(** * Random point visualizer (thm1pt1.go): point generation and canvas mapping

    A shallow embedding of the Go program: [GeneratePoints], [UpdateCanvas],
    the callbacks of the controls, and [Run] with its event loop.

    Go's [float64] and [float32] are IEEE 754 binary64 and binary32; both are
    modelled with the Standard Library's executable specification of IEEE
    arithmetic ([SpecFloat]), round-to-nearest-even, with signed zeros,
    infinities and NaN.  Every operation of the source is rounded on its own
    (no fused multiply-add), as the amd64 compiler emits it. *)

From Stdlib Require Import ZArith Bool Lia.
From Stdlib Require Import Floats.SpecFloat.
From stdpp Require Import base list strings.

Local Open Scope Z_scope.

(** ** IEEE 754 formats *)

Definition float64 := spec_float.
Definition float32 := spec_float.

Module F64.
Definition prec : Z := 53.
Definition emax : Z := 1024.
Definition add : float64 -> float64 -> float64 := SFadd prec emax.
Definition sub : float64 -> float64 -> float64 := SFsub prec emax.
Definition mul : float64 -> float64 -> float64 := SFmul prec emax.
Definition div : float64 -> float64 -> float64 := SFdiv prec emax.
Definition eqb : float64 -> float64 -> bool := SFeqb.
Definition ltb : float64 -> float64 -> bool := SFltb.
Definition leb : float64 -> float64 -> bool := SFleb.
Definition valid : float64 -> bool := valid_binary prec emax.
(** An integer constant or a power-of-two multiple of one, rounded. *)
Definition of_Z (z : Z) : float64 := binary_normalize prec emax z 0 false.
Definition scaled (m e : Z) : float64 := binary_normalize prec emax m e false.
End F64.

Module F32.
Definition prec : Z := 24.
Definition emax : Z := 128.
Definition add : float32 -> float32 -> float32 := SFadd prec emax.
Definition sub : float32 -> float32 -> float32 := SFsub prec emax.
Definition mul : float32 -> float32 -> float32 := SFmul prec emax.
Definition div : float32 -> float32 -> float32 := SFdiv prec emax.
Definition eqb : float32 -> float32 -> bool := SFeqb.
Definition ltb : float32 -> float32 -> bool := SFltb.
Definition leb : float32 -> float32 -> bool := SFleb.
Definition valid : float32 -> bool := valid_binary prec emax.
Definition of_Z (z : Z) : float32 := binary_normalize prec emax z 0 false.
Definition scaled (m e : Z) : float32 := binary_normalize prec emax m e false.
(** The conversion [float32(x)] of a [float64]: the value is rounded to
    binary32; zeros, infinities and NaN are kept. *)
Definition of_f64 (x : float64) : float32 :=
  match x with
  | S754_finite s m e => binary_round prec emax s m e
  | _ => x
  end.
End F32.

(** The classes of values a float can be in. *)
Definition is_nan (x : spec_float) : bool :=
  match x with S754_nan => true | _ => false end.

Definition is_finite (x : spec_float) : bool :=
  match x with S754_zero _ | S754_finite _ _ _ => true | _ => false end.

Definition is_zero (x : spec_float) : bool :=
  match x with S754_zero _ => true | _ => false end.

(** ** Data model *)

(** [Point]: a 2D point with X and Y coordinates. *)
Record Point := { X : float64; Y : float64 }.

(** [color.Color], as far as the program builds colours: [color.RGBA]
    literals and [color.Transparent]. *)
Inductive Color :=
| RGBA (R G B A : N)
| Transparent.

(** [GUIConfig]. *)
Record GUIConfig := {
  NumPoints : Z;
  MinX : float64; MaxX : float64;
  MinY : float64; MaxY : float64;
  CanvasWidth : float32;
  CanvasHeight : float32;
  PointSize : float32;
  PointColor : Color
}.

(** [fyne.Size], [fyne.Position] and the two canvas primitives in use. *)
Record Size := NewSize { Width : float32; Height : float32 }.
Record Position := NewPos { PosX : float32; PosY : float32 }.

Inductive CanvasObject :=
| Rectangle (FillColor : Color) (StrokeColor : option Color)
            (StrokeWidth : float32) (size : Size)
| Circle (FillColor : Color) (position : Position) (size : Size).

(** [fyne.Container]: only its [Objects] slice matters here. *)
Record Container := { Objects : list CanvasObject }.

(** [PointVisualizer].  [canvas] is a pointer, nil until [Run] sets it. *)
Record PointVisualizer := {
  config : GUIConfig;
  points : list Point;
  canvas : option Container;
  pointObjects : list CanvasObject
}.

(** A Go call either returns or panics at run time. *)
Inductive outcome (A : Type) :=
| Returned (a : A)
| Panicked (msg : string).
Arguments Returned {A} a.
Arguments Panicked {A} msg.

#[global] Instance outcome_ret : MRet outcome := fun A a => Returned a.
#[global] Instance outcome_bind : MBind outcome := fun A B k o =>
  match o with
  | Returned a => k a
  | Panicked msg => Panicked msg
  end.

(** [make([]Point, n)]: n zero points; a negative length panics. *)
Definition make_points (n : Z) : outcome (list Point) :=
  if n <? 0 then Panicked "makeslice: len out of range"
  else Returned (replicate (Z.to_nat n) {| X := S754_zero false; Y := S754_zero false |}).

(** [s[i] = p]: an index outside the slice panics. *)
Definition store (s : list Point) (i : nat) (p : Point) : outcome (list Point) :=
  if decide (i < length s)%nat then Returned (<[i := p]> s)
  else Panicked "index out of range".

(** [NewPointVisualizer]'s configuration. *)
Definition defaultConfig : GUIConfig := {|
  NumPoints := 30;
  MinX := F64.of_Z 0; MaxX := F64.of_Z 100;
  MinY := F64.of_Z 0; MaxY := F64.of_Z 100;
  CanvasWidth := F32.of_Z 600;
  CanvasHeight := F32.of_Z 400;
  PointSize := F32.of_Z 6;
  PointColor := RGBA 70 130 255 255
|}.

Definition NewPointVisualizer : PointVisualizer := {|
  config := defaultConfig;
  points := [];
  canvas := None;
  pointObjects := []
|}.

Section Program.

(** The process-wide source of [math/rand]: its state, and [rand.Float64],
    which returns a number and advances the state.  The seed installed by
    [rand.Seed(time.Now().UnixNano())] is the initial state. *)
Variable RandSource : Type.
Variable Float64 : RandSource -> float64 * RandSource.

(** [strconv.ParseFloat(s, 64)]: [Some v] when [err == nil]. *)
Variable ParseFloat : string -> option float64.

(** *** GeneratePoints *)

(** One coordinate: [lo + rand.Float64()*(hi-lo)]. *)
Definition draw (lo hi : float64) (g : RandSource) : float64 * RandSource :=
  let '(r, g') := Float64 g in
  (F64.add lo (F64.mul r (F64.sub hi lo)), g').

(** The loop [for i := 0; i < NumPoints; i++], with [k] iterations left. *)
Fixpoint GeneratePoints_loop (k : nat) (i : nat) (cfg : GUIConfig)
         (pts : list Point) (g : RandSource)
  : outcome (list Point * RandSource) :=
  match k with
  | O => Returned (pts, g)
  | S k' =>
      let '(x, g1) := draw (MinX cfg) (MaxX cfg) g in
      let '(y, g2) := draw (MinY cfg) (MaxY cfg) g1 in
      pts' ← store pts i {| X := x; Y := y |};
      GeneratePoints_loop k' (S i) cfg pts' g2
  end.

Definition GeneratePoints (pv : PointVisualizer) (g : RandSource)
  : outcome (PointVisualizer * RandSource) :=
  pts0 ← make_points (NumPoints (config pv));
  '(pts, g') ← GeneratePoints_loop (Z.to_nat (NumPoints (config pv))) 0
                 (config pv) pts0 g;
  Returned ({| config := config pv; points := pts;
               canvas := canvas pv; pointObjects := pointObjects pv |}, g').

(** *** UpdateCanvas *)

Definition padding : float32 := F32.of_Z 20.

Definition scaleX (cfg : GUIConfig) : float32 :=
  F32.div (F32.sub (CanvasWidth cfg) (F32.mul (F32.of_Z 2) padding))
          (F32.of_f64 (F64.sub (MaxX cfg) (MinX cfg))).

Definition scaleY (cfg : GUIConfig) : float32 :=
  F32.div (F32.sub (CanvasHeight cfg) (F32.mul (F32.of_Z 2) padding))
          (F32.of_f64 (F64.sub (MaxY cfg) (MinY cfg))).

Definition canvasX (cfg : GUIConfig) (p : Point) : float32 :=
  F32.sub (F32.add padding
             (F32.mul (F32.of_f64 (F64.sub (X p) (MinX cfg))) (scaleX cfg)))
          (F32.div (PointSize cfg) (F32.of_Z 2)).

Definition canvasY (cfg : GUIConfig) (p : Point) : float32 :=
  F32.sub (F32.add padding
             (F32.mul (F32.of_f64 (F64.sub (MaxY cfg) (Y p))) (scaleY cfg)))
          (F32.div (PointSize cfg) (F32.of_Z 2)).

Definition background (cfg : GUIConfig) : CanvasObject :=
  Rectangle (RGBA 248 249 250 255) None (S754_zero false)
            (NewSize (CanvasWidth cfg) (CanvasHeight cfg)).

Definition border (cfg : GUIConfig) : CanvasObject :=
  Rectangle Transparent (Some (RGBA 200 200 200 255)) (F32.of_Z 2)
            (NewSize (CanvasWidth cfg) (CanvasHeight cfg)).

Definition circle (cfg : GUIConfig) (p : Point) : CanvasObject :=
  Circle (PointColor cfg) (NewPos (canvasX cfg p) (canvasY cfg p))
         (NewSize (PointSize cfg) (PointSize cfg)).

(** The loop [for _, point := range pv.points]: each circle is added to the
    container and appended to [pointObjects]. *)
Fixpoint UpdateCanvas_loop (cfg : GUIConfig) (pts : list Point)
         (objs pobjs : list CanvasObject)
  : list CanvasObject * list CanvasObject :=
  match pts with
  | [] => (objs, pobjs)
  | p :: rest =>
      let c := circle cfg p in
      UpdateCanvas_loop cfg rest (objs ++ [c]) (pobjs ++ [c])
  end.

Definition UpdateCanvas (pv : PointVisualizer) : outcome PointVisualizer :=
  match canvas pv with
  | None => Panicked "invalid memory address or nil pointer dereference"
  | Some _ =>
      let cfg := config pv in
      let objs0 := [] ++ [background cfg] in
      let objs1 := objs0 ++ [border cfg] in
      let '(objs, pobjs) := UpdateCanvas_loop cfg (points pv) objs1 [] in
      Returned {| config := cfg; points := points pv;
                  canvas := Some {| Objects := objs |};
                  pointObjects := pobjs |}
  end.

(** *** The generate button *)

(** The texts of the four range entries. *)
Record Entries := {
  xMinEntry : string; xMaxEntry : string;
  yMinEntry : string; yMaxEntry : string
}.

Definition set_MinX (v : float64) (c : GUIConfig) : GUIConfig :=
  {| NumPoints := NumPoints c; MinX := v; MaxX := MaxX c;
     MinY := MinY c; MaxY := MaxY c; CanvasWidth := CanvasWidth c;
     CanvasHeight := CanvasHeight c; PointSize := PointSize c;
     PointColor := PointColor c |}.
Definition set_MaxX (v : float64) (c : GUIConfig) : GUIConfig :=
  {| NumPoints := NumPoints c; MinX := MinX c; MaxX := v;
     MinY := MinY c; MaxY := MaxY c; CanvasWidth := CanvasWidth c;
     CanvasHeight := CanvasHeight c; PointSize := PointSize c;
     PointColor := PointColor c |}.
Definition set_MinY (v : float64) (c : GUIConfig) : GUIConfig :=
  {| NumPoints := NumPoints c; MinX := MinX c; MaxX := MaxX c;
     MinY := v; MaxY := MaxY c; CanvasWidth := CanvasWidth c;
     CanvasHeight := CanvasHeight c; PointSize := PointSize c;
     PointColor := PointColor c |}.
Definition set_MaxY (v : float64) (c : GUIConfig) : GUIConfig :=
  {| NumPoints := NumPoints c; MinX := MinX c; MaxX := MaxX c;
     MinY := MinY c; MaxY := v; CanvasWidth := CanvasWidth c;
     CanvasHeight := CanvasHeight c; PointSize := PointSize c;
     PointColor := PointColor c |}.

(** [if val, err := strconv.ParseFloat(text, 64); err == nil { field = val }] *)
Definition update_from (text : string) (set : float64 -> GUIConfig -> GUIConfig)
           (c : GUIConfig) : GUIConfig :=
  match ParseFloat text with
  | Some val => set val c
  | None => c
  end.

Definition with_config (pv : PointVisualizer) (c : GUIConfig) : PointVisualizer :=
  {| config := c; points := points pv; canvas := canvas pv;
     pointObjects := pointObjects pv |}.

(** The callback of [generateBtn]. *)
Definition generateBtn_OnTapped (en : Entries) (pv : PointVisualizer)
           (g : RandSource) : outcome (PointVisualizer * RandSource) :=
  let c1 := update_from (xMinEntry en) set_MinX (config pv) in
  let c2 := update_from (xMaxEntry en) set_MaxX c1 in
  let c3 := update_from (yMinEntry en) set_MinY c2 in
  let c4 := update_from (yMaxEntry en) set_MaxY c3 in
  '(pv1, g') ← GeneratePoints (with_config pv c4) g;
  pv2 ← UpdateCanvas pv1;
  Returned (pv2, g').

End Program.

Arguments draw {RandSource} Float64 lo hi g.
Arguments GeneratePoints_loop {RandSource} Float64 k i cfg pts g.
Arguments GeneratePoints {RandSource} Float64 pv g.
Arguments generateBtn_OnTapped {RandSource} Float64 ParseFloat en pv g.

(** ** Notions used to state the properties *)

(** Go's comparisons on floats. *)
Definition fle (x y : spec_float) : Prop := SFleb x y = true.
Definition flt (x y : spec_float) : Prop := SFltb x y = true.
Definition feq (x y : spec_float) : Prop := SFeqb x y = true.

(** The results of [rand.Float64]: numbers of the half-open interval [0,1). *)
Definition in_unit (r : float64) : bool :=
  F64.valid r && F64.leb (F64.of_Z 0) r && F64.ltb r (F64.of_Z 1).

Definition unit_source {RandSource} (Float64 : RandSource -> float64 * RandSource) : Prop :=
  forall g, in_unit (fst (Float64 g)) = true.

(** The half-open and the closed interval between two bounds. *)
Definition in_half_open (lo hi x : float64) : bool := F64.leb lo x && F64.ltb x hi.
Definition in_closed (lo hi x : float64) : bool := F64.leb lo x && F64.leb x hi.

Definition in_domain (cfg : GUIConfig) (p : Point) : bool :=
  in_half_open (MinX cfg) (MaxX cfg) (X p) && in_half_open (MinY cfg) (MaxY cfg) (Y p).

(** The domain invariant of the specification: [minX < maxX] and [minY < maxY]. *)
Definition valid_domain (cfg : GUIConfig) : bool :=
  F64.ltb (MinX cfg) (MaxX cfg) && F64.ltb (MinY cfg) (MaxY cfg).

(** The surface invariant: width and height exceed twice the padding. *)
Definition valid_surface (cfg : GUIConfig) : bool :=
  F32.ltb (F32.mul (F32.of_Z 2) padding) (CanvasWidth cfg)
  && F32.ltb (F32.mul (F32.of_Z 2) padding) (CanvasHeight cfg).

(** Well-formed numbers: every float64 and float32 value of a Go program is
    a canonical one of its format. *)
Definition wf_domain (cfg : GUIConfig) : bool :=
  F64.valid (MinX cfg) && F64.valid (MaxX cfg) && F64.valid (MinY cfg) && F64.valid (MaxY cfg).

Definition wf_config (cfg : GUIConfig) : bool :=
  wf_domain cfg
  && F32.valid (CanvasWidth cfg) && F32.valid (CanvasHeight cfg) && F32.valid (PointSize cfg).

Definition wf_point (p : Point) : bool := F64.valid (X p) && F64.valid (Y p).

(** The widths of the domain do not overflow. *)
Definition finite_widths (cfg : GUIConfig) : bool :=
  is_finite (F64.sub (MaxX cfg) (MinX cfg)) && is_finite (F64.sub (MaxY cfg) (MinY cfg)).

Definition in_closed_domain (cfg : GUIConfig) (p : Point) : bool :=
  in_closed (MinX cfg) (MaxX cfg) (X p) && in_closed (MinY cfg) (MaxY cfg) (Y p).

(** The four corners of the domain. *)
Definition corners (cfg : GUIConfig) : list Point :=
  [ {| X := MinX cfg; Y := MinY cfg |}; {| X := MinX cfg; Y := MaxY cfg |};
    {| X := MaxX cfg; Y := MinY cfg |}; {| X := MaxX cfg; Y := MaxY cfg |} ].

(** The points of one generation run as a list built front to back: the
    i-th point takes the draws number 2i and 2i+1 of the source. *)
Fixpoint generated {RandSource} (Float64 : RandSource -> float64 * RandSource)
         (cfg : GUIConfig) (k : nat) (g : RandSource) : list Point * RandSource :=
  match k with
  | O => ([], g)
  | S k' =>
      let '(x, g1) := draw Float64 (MinX cfg) (MaxX cfg) g in
      let '(y, g2) := draw Float64 (MinY cfg) (MaxY cfg) g1 in
      let '(rest, g3) := generated Float64 cfg k' g2 in
      ({| X := x; Y := y |} :: rest, g3)
  end.

(** The mapping in the words of the specification: a scale factor per axis,
    [px = padding + (x - minX) * scaleX], the inverted
    [py = padding + (maxY - y) * scaleY], both minus half the point size. *)
Definition spec_scale (extent pad lo hi : spec_float) : float32 :=
  F32.div (F32.sub extent (F32.mul (F32.of_Z 2) pad)) (F32.of_f64 (F64.sub hi lo)).

Definition spec_toCanvas (cfg : GUIConfig) (pad : float32) (p : Point) : Position :=
  let sx := spec_scale (CanvasWidth cfg) pad (MinX cfg) (MaxX cfg) in
  let sy := spec_scale (CanvasHeight cfg) pad (MinY cfg) (MaxY cfg) in
  let px := F32.add pad (F32.mul (F32.of_f64 (F64.sub (X p) (MinX cfg))) sx) in
  let py := F32.add pad (F32.mul (F32.of_f64 (F64.sub (MaxY cfg) (Y p))) sy) in
  let half := F32.div (PointSize cfg) (F32.of_Z 2) in
  NewPos (F32.sub px half) (F32.sub py half).

(** The mapped position before the half-size offset is taken off. *)
Definition centreX (cfg : GUIConfig) (p : Point) : float32 :=
  F32.add padding (F32.mul (F32.of_f64 (F64.sub (X p) (MinX cfg))) (scaleX cfg)).

Definition centreY (cfg : GUIConfig) (p : Point) : float32 :=
  F32.add padding (F32.mul (F32.of_f64 (F64.sub (MaxY cfg) (Y p))) (scaleY cfg)).

Definition position_of (o : CanvasObject) : option Position :=
  match o with
  | Circle _ pos _ => Some pos
  | Rectangle _ _ _ _ => None
  end.

(** ** Test doubles

    A scripted random source: the state is the list of numbers still to be
    drawn; a number outside [0,1) is replaced by 0, and so is every draw
    after the end of the script. *)
Definition Script := list float64.

Definition script_Float64 (g : Script) : float64 * Script :=
  match g with
  | [] => (S754_zero false, [])
  | r :: g' => (if in_unit r then r else S754_zero false, g')
  end.

(** The largest float64 below 1: [1 - 2^-53]. *)
Definition below_one : float64 := F64.scaled (2 ^ 53 - 1) (-53).

(** A parser that knows the decimal texts used in the examples and fails on
    every other text, as [strconv.ParseFloat] does on these inputs. *)
Definition parse_examples (s : string) : option float64 :=
  if String.eqb s "5" then Some (F64.of_Z 5)
  else if String.eqb s "0.0" then Some (F64.of_Z 0)
  else if String.eqb s "100.0" then Some (F64.of_Z 100)
  else None.

Definition with_domain (x0 x1 y0 y1 : float64) (c : GUIConfig) : GUIConfig :=
  set_MaxY y1 (set_MinY y0 (set_MaxX x1 (set_MinX x0 c))).

Definition with_NumPoints (n : Z) (c : GUIConfig) : GUIConfig :=
  {| NumPoints := n; MinX := MinX c; MaxX := MaxX c;
     MinY := MinY c; MaxY := MaxY c; CanvasWidth := CanvasWidth c;
     CanvasHeight := CanvasHeight c; PointSize := PointSize c;
     PointColor := PointColor c |}.

(** The visualizer as [Run] has it before the first generation: the default
    configuration and an empty container. *)
Definition started : PointVisualizer :=
  {| config := defaultConfig; points := [];
     canvas := Some {| Objects := [] |}; pointObjects := [] |}.

(** ** Rounding, as a function on integers

    The definitions used to reason on the IEEE operations: the nearest-even
    quotient, the value of a float on the grid of the smallest subnormal,
    and the rounding of a number [m * 2^e] in these terms. *)

(** Round to nearest, ties to even, of [m / 2^n]. *)
Definition rne_shift (m n : Z) : Z :=
  let q := m / 2 ^ n in
  let r := m mod 2 ^ n in
  match 2 * r ?= 2 ^ n with
  | Lt => q
  | Eq => if Z.even q then q else q + 1
  | Gt => q + 1
  end.

(** The remainder [rho] of the bits shifted out, against [2^k], as the
    round and sticky bits record it. *)
Definition located (k rho : Z) (r s : bool) : Prop :=
  match r, s with
  | false, false => rho = 0
  | false, true => 0 < 2 * rho < 2 ^ k
  | true, false => 2 * rho = 2 ^ k
  | true, true => 2 ^ k < 2 * rho
  end.

(** The result of a rounding from its final mantissa [q], at most [2^prec],
    and exponent [f]: zero, a finite number (renormalised when the rounding
    carried into a new digit), or an infinity on overflow. *)
Definition pack (prec emax : Z) (s : bool) (q f : Z) : spec_float :=
  if q =? 0 then S754_zero s
  else if q =? 2 ^ prec then
         if f + 1 <=? emax - prec then S754_finite s (Z.to_pos (2 ^ (prec - 1))) (f + 1)
         else S754_infinity s
       else if f <=? emax - prec then S754_finite s (Z.to_pos q) f
            else S754_infinity s.

(** The value of a float in units of the smallest subnormal, [2^emin]; the
    infinities stand at [2^emax], beyond every finite number. *)
Definition grid (prec emax : Z) (x : spec_float) : Z :=
  match x with
  | S754_zero _ | S754_nan => 0
  | S754_infinity s => cond_Zopp s (2 ^ (emax - emin prec emax))
  | S754_finite s m e => cond_Zopp s (Z.pos m * 2 ^ (e - emin prec emax))
  end.

(** The mantissa to which [m * 2^e] is rounded, at the exponent
    [fexp (digits m + e)]. *)
Definition round_mant (prec emax : Z) (m e : Z) : Z :=
  let f := fexp prec emax (Zdigits2 m + e) in
  if f <=? e then m * 2 ^ (e - f) else rne_shift m (f - e).

(** The value, in units of [2^emin], of [m * 2^e] rounded. *)
Definition round_grid (prec emax : Z) (m e : Z) : Z :=
  Z.min (2 ^ (emax - emin prec emax))
        (round_mant prec emax m e * 2 ^ (fexp prec emax (Zdigits2 m + e) - emin prec emax)).

(** The value, in units of [2^emin], of the signed [z * 2^e] rounded. *)
Definition round_dy (prec emax : Z) (z e : Z) : Z :=
  Z.sgn z * round_grid prec emax (Z.abs z) e.

(** [x <= (hi - lo) * (1 + 2^-20)], the difference and the product taken
    exactly. *)
Definition within_rounding (x hi lo : float32) : Prop :=
  grid F32.prec F32.emax x * 2 ^ 20 <=
  (grid F32.prec F32.emax hi - grid F32.prec F32.emax lo) * (2 ^ 20 + 1).

(** ** The controls and the start of the program

    The callbacks that [CreateControlPanel] installs and the part of [Run]
    that works on the visualizer.  The fyne widgets themselves (labels,
    entries, window) hold display state only and stay outside. *)

(** [float64(x)] of a [float32]. *)
Definition float64_of_float32 (x : float32) : float64 :=
  match x with
  | S754_finite s m e => binary_round F64.prec F64.emax s m e
  | _ => x
  end.

(** The integer part of a finite number: the fraction is discarded
    (truncation towards zero). *)
Definition truncate (x : spec_float) : option Z :=
  match x with
  | S754_zero _ => Some 0
  | S754_finite s m e => Some (cond_Zopp s (Z.shiftl (Z.pos m) e))
  | S754_infinity _ | S754_nan => None
  end.

(** The values of the 64-bit [int]. *)
Definition fits_int (z : Z) : bool := (- 2 ^ 63 <=? z) && (z <? 2 ^ 63).

Definition set_NumPoints (n : Z) (c : GUIConfig) : GUIConfig :=
  {| NumPoints := n; MinX := MinX c; MaxX := MaxX c;
     MinY := MinY c; MaxY := MaxY c; CanvasWidth := CanvasWidth c;
     CanvasHeight := CanvasHeight c; PointSize := PointSize c;
     PointColor := PointColor c |}.
Definition set_PointSize (v : float32) (c : GUIConfig) : GUIConfig :=
  {| NumPoints := NumPoints c; MinX := MinX c; MaxX := MaxX c;
     MinY := MinY c; MaxY := MaxY c; CanvasWidth := CanvasWidth c;
     CanvasHeight := CanvasHeight c; PointSize := v;
     PointColor := PointColor c |}.
Definition set_PointColor (v : Color) (c : GUIConfig) : GUIConfig :=
  {| NumPoints := NumPoints c; MinX := MinX c; MaxX := MaxX c;
     MinY := MinY c; MaxY := MaxY c; CanvasWidth := CanvasWidth c;
     CanvasHeight := CanvasHeight c; PointSize := PointSize c;
     PointColor := v |}.

(** The four colour buttons. *)
Inductive ColorButton := blueBtn | redBtn | greenBtn | purpleBtn.

Definition button_color (b : ColorButton) : Color :=
  match b with
  | blueBtn => RGBA 70 130 255 255
  | redBtn => RGBA 255 99 71 255
  | greenBtn => RGBA 60 179 113 255
  | purpleBtn => RGBA 138 43 226 255
  end.

(** What the user does in the window: each event runs one callback. *)
Inductive Event :=
| PointsSliderChanged (value : float64)
| SizeSliderChanged (value : float64)
| ColorTapped (b : ColorButton)
| GenerateTapped (en : Entries).

Section Controls.

Variable RandSource : Type.
Variable Float64 : RandSource -> float64 * RandSource.
Variable ParseFloat : string -> option float64.

(** [int(v)] for a [v] that has no [int] value (NaN, an infinity, a number
    out of range): Go leaves the result to the implementation. *)
Variable int_overflow : float64 -> Z.

(** [int(value)] *)
Definition int_of_float64 (value : float64) : Z :=
  match truncate value with
  | Some z => if fits_int z then z else int_overflow value
  | None => int_overflow value
  end.

(** [pointsSlider.OnChanged] *)
Definition pointsSlider_OnChanged (value : float64) (pv : PointVisualizer)
  : PointVisualizer :=
  with_config pv (set_NumPoints (int_of_float64 value) (config pv)).

(** [sizeSlider.OnChanged] *)
Definition sizeSlider_OnChanged (value : float64) (pv : PointVisualizer)
  : PointVisualizer :=
  with_config pv (set_PointSize (F32.of_f64 value) (config pv)).

(** The callbacks of the colour buttons. *)
Definition colorBtn_OnTapped (b : ColorButton) (pv : PointVisualizer)
  : outcome PointVisualizer :=
  UpdateCanvas (with_config pv (set_PointColor (button_color b) (config pv))).

(** [Run], up to the event loop: the canvas is created, then the initial
    points are generated and drawn. *)
Definition Run_start (pv : PointVisualizer) (g : RandSource)
  : outcome (PointVisualizer * RandSource) :=
  let pv0 := {| config := config pv; points := points pv;
                canvas := Some {| Objects := [] |};
                pointObjects := pointObjects pv |} in
  '(pv1, g') ← GeneratePoints Float64 pv0 g;
  pv2 ← UpdateCanvas pv1;
  Returned (pv2, g').

Definition dispatch (ev : Event) (pv : PointVisualizer) (g : RandSource)
  : outcome (PointVisualizer * RandSource) :=
  match ev with
  | PointsSliderChanged value => Returned (pointsSlider_OnChanged value pv, g)
  | SizeSliderChanged value => Returned (sizeSlider_OnChanged value pv, g)
  | ColorTapped b => pv' ← colorBtn_OnTapped b pv; Returned (pv', g)
  | GenerateTapped en => generateBtn_OnTapped Float64 ParseFloat en pv g
  end.

(** The event loop of [window.ShowAndRun], on the events of one session. *)
Fixpoint ShowAndRun (evs : list Event) (pv : PointVisualizer) (g : RandSource)
  : outcome (PointVisualizer * RandSource) :=
  match evs with
  | [] => Returned (pv, g)
  | ev :: rest => '(pv', g') ← dispatch ev pv g; ShowAndRun rest pv' g'
  end.

Definition Run (pv : PointVisualizer) (g : RandSource) (evs : list Event)
  : outcome (PointVisualizer * RandSource) :=
  '(pv1, g1) ← Run_start pv g; ShowAndRun evs pv1 g1.

(** [main]; [g] is the state of the source that [rand.Seed] installs. *)
Definition main (g : RandSource) (evs : list Event)
  : outcome (PointVisualizer * RandSource) :=
  Run NewPointVisualizer g evs.

End Controls.

Arguments Run_start {RandSource} Float64 pv g.
Arguments dispatch {RandSource} Float64 ParseFloat int_overflow ev pv g.
Arguments ShowAndRun {RandSource} Float64 ParseFloat int_overflow evs pv g.
Arguments Run {RandSource} Float64 ParseFloat int_overflow pv g evs.
Arguments main {RandSource} Float64 ParseFloat int_overflow g evs.

(** The source after [k] draws, and the [k]-th number drawn. *)
Definition advance {RandSource} (Float64 : RandSource -> float64 * RandSource)
           (k : nat) (g : RandSource) : RandSource :=
  Nat.iter k (fun g => (Float64 g).2) g.

Definition nth_draw {RandSource} (Float64 : RandSource -> float64 * RandSource)
           (k : nat) (g : RandSource) : float64 :=
  (Float64 (advance Float64 k g)).1.

(** The result of [int(v)] on amd64 for a [v] without [int] value: the
    smallest [int]. *)
Definition amd64_int_overflow (v : float64) : Z := - 2 ^ 63.

(** A circle with another fill colour. *)
Definition recolour (c : Color) (o : CanvasObject) : CanvasObject :=
  match o with
  | Circle _ pos size => Circle c pos size
  | Rectangle _ _ _ _ => o
  end.
(** The canvas shows the points as [cfg] draws them. *)
Definition drawn_with (cfg : GUIConfig) (pv : PointVisualizer) : Prop :=
  pointObjects pv = map (circle cfg) (points pv) /\
  canvas pv = Some {| Objects := background cfg :: border cfg :: pointObjects pv |}.

(** The canvas shows the points under the current configuration. *)
Definition up_to_date (pv : PointVisualizer) : Prop := drawn_with (config pv) pv.

(** The same, but for the point size, which may be an earlier one. *)
Definition in_sync (pv : PointVisualizer) : Prop :=
  exists size, drawn_with (set_PointSize size (config pv)) pv.

(** A value that a slider with the range [lo..hi] can report. *)
Definition in_slider_range (lo hi : Z) (value : float64) : bool :=
  F64.valid value && F64.leb (F64.of_Z lo) value && F64.leb value (F64.of_Z hi).

(** The events of the window as built by [CreateControlPanel]: the points
    slider has the range 5..200 and the size slider the range 2..15. *)
Definition possible (ev : Event) : bool :=
  match ev with
  | PointsSliderChanged value => in_slider_range 5 200 value
  | SizeSliderChanged value => in_slider_range 2 15 value
  | ColorTapped _ | GenerateTapped _ => true
  end.
(** The default visualizer with the given points on display. *)
Definition displayed (pts : list Point) : PointVisualizer :=
  {| config := defaultConfig; points := pts;
     canvas := Some {| Objects := background defaultConfig :: border defaultConfig
                                    :: map (circle defaultConfig) pts |};
     pointObjects := map (circle defaultConfig) pts |}.
(** What holds of the visualizer between two events of a session started by
    [main]: the canvas is in sync, the count and the point size are in the
    ranges of their sliders, and the canvas has its initial size. *)
Definition session_invariant (pv : PointVisualizer) : Prop :=
  in_sync pv /\ 5 <= NumPoints (config pv) <= 200 /\
  fle (F32.of_Z 2) (PointSize (config pv)) /\ fle (PointSize (config pv)) (F32.of_Z 15) /\
  CanvasWidth (config pv) = F32.of_Z 600 /\ CanvasHeight (config pv) = F32.of_Z 400.

(** The points are those of a generation under the current domain. *)
Definition generated_under {RandSource} (Float64 : RandSource -> float64 * RandSource)
           (pv : PointVisualizer) : Prop :=
  exists n g0, points pv = (generated Float64 (config pv) n g0).1.

(** ** Elementary facts on IEEE arithmetic *)

Section FloatFacts.
Variables prec emax : Z.

Lemma compare_cont_Eq_inv (m n : positive) :
  Pos.compare_cont Eq m n = Eq -> m = n.
Proof.
  intros C. now apply Pos.compare_eq.
Qed.

Lemma SFeqb_finite_inv (x y : spec_float) :
  is_finite x = true -> SFeqb x y = true ->
  (is_zero x = true /\ is_zero y = true) \/ (is_zero x = false /\ y = x).
Proof.
  unfold SFeqb, SFcompare.
  destruct x as [sx|sx| |sx mx ex], y as [sy|sy| |sy my ey]; try discriminate;
    intros _ H.
  - left; split; reflexivity.
  - destruct sy; discriminate.
  - destruct sy; discriminate.
  - destruct sx; discriminate.
  - destruct sy; discriminate.
  - right. split; [reflexivity|].
    destruct sx, sy; try discriminate;
      destruct (Z.compare_spec ex ey) as [E|E|E]; try discriminate; subst;
      destruct (Pos.compare_cont Eq mx my) eqn:C; try discriminate;
      apply compare_cont_Eq_inv in C; now subst.
Qed.

Lemma SFeqb_refl (x : spec_float) : is_nan x = false -> SFeqb x x = true.
Proof.
  unfold SFeqb, SFcompare.
  destruct x as [s|s| |s m e]; try discriminate; intros _;
    try (destruct s; reflexivity).
  rewrite Z.compare_refl.
  assert (Pos.compare_cont Eq m m = Eq) as -> by apply Pos.compare_refl.
  now destruct s.
Qed.

Lemma SFleb_refl (x : spec_float) : is_nan x = false -> SFleb x x = true.
Proof.
  intros N. pose proof (SFeqb_refl x N) as H. unfold SFeqb, SFleb in *.
  destruct (SFcompare x x) as [[]|]; congruence.
Qed.

Lemma SFsub_diag (s : bool) (m : positive) (e : Z) :
  SFsub prec emax (S754_finite s m e) (S754_finite s m e) = S754_zero false.
Proof. unfold SFsub. now rewrite Z.sub_diag. Qed.

(** A zero-extent axis: equal finite bounds have the difference zero. *)
Lemma SFsub_feq_zero (lo hi : spec_float) :
  is_finite lo = true -> SFeqb lo hi = true ->
  is_zero (SFsub prec emax hi lo) = true.
Proof.
  intros Hf He. destruct (SFeqb_finite_inv lo hi Hf He) as [[Hl Hh]|[Hl ->]].
  - destruct lo as [[]| | |], hi as [[]| | |]; try discriminate; reflexivity.
  - destruct lo as [|s| |s m e]; try discriminate. now rewrite SFsub_diag.
Qed.

Lemma SFmul_zero_r (r w : spec_float) :
  is_finite r = true -> is_zero w = true -> is_zero (SFmul prec emax r w) = true.
Proof. destruct r, w; try discriminate; reflexivity. Qed.

Lemma SFmul_zero_l (r w : spec_float) :
  is_zero r = true -> is_finite w = true -> is_zero (SFmul prec emax r w) = true.
Proof. destruct r, w; try discriminate; reflexivity. Qed.

Lemma SFadd_zero_r (x z : spec_float) :
  is_finite x = true -> is_zero z = true -> SFeqb (SFadd prec emax x z) x = true.
Proof.
  intros Hx Hz. destruct z as [sz| | |]; try discriminate.
  destruct x as [sx|sx| |sx mx ex]; try discriminate.
  - now destruct sx, sz.
  - now apply SFeqb_refl.
Qed.

(** Nothing finite comes out of a division by zero, nor out of an operation
    on a non-finite number. *)
Lemma SFdiv_zero_not_finite (c d : spec_float) :
  is_zero d = true -> is_finite (SFdiv prec emax c d) = false.
Proof. destruct c, d; try discriminate; reflexivity. Qed.

Lemma SFmul_not_finite_r (x s : spec_float) :
  is_finite s = false -> is_finite (SFmul prec emax x s) = false.
Proof. destruct x, s; try discriminate; reflexivity. Qed.

Lemma SFadd_not_finite_r (x y : spec_float) :
  is_finite y = false -> is_finite (SFadd prec emax x y) = false.
Proof.
  destruct x as [| | |], y as [| | |]; try discriminate; try reflexivity;
    intros _; repeat match goal with b : bool |- _ => destruct b end; reflexivity.
Qed.

Lemma SFsub_not_finite_l (x y : spec_float) :
  is_finite x = false -> is_finite (SFsub prec emax x y) = false.
Proof.
  destruct x as [| | |], y as [| | |]; try discriminate; try reflexivity;
    intros _; repeat match goal with b : bool |- _ => destruct b end; reflexivity.
Qed.

(** Finite results have finite arguments. *)
Lemma SFltb_not_nan (x y : spec_float) :
  SFltb x y = true -> is_nan x = false /\ is_nan y = false.
Proof. destruct x, y; try discriminate; split; reflexivity. Qed.

Lemma SFleb_not_nan (x y : spec_float) :
  SFleb x y = true -> is_nan x = false /\ is_nan y = false.
Proof. destruct x, y; try discriminate; split; reflexivity. Qed.

Lemma SFmul_comm (x y : spec_float) : SFmul prec emax x y = SFmul prec emax y x.
Proof.
  destruct x as [sx|sx| |sx mx ex], y as [sy|sy| |sy my ey]; cbn [SFmul];
    try reflexivity; try (now rewrite xorb_comm).
  now rewrite xorb_comm, Pos.mul_comm, Z.add_comm.
Qed.

Lemma SFadd_finite_inv (x y : spec_float) :
  is_finite (SFadd prec emax x y) = true -> is_finite x = true /\ is_finite y = true.
Proof.
  destruct x as [[]|[]| |], y as [[]|[]| |]; try discriminate; split; reflexivity.
Qed.

Lemma SFsub_finite_inv (x y : spec_float) :
  is_finite (SFsub prec emax x y) = true -> is_finite x = true /\ is_finite y = true.
Proof.
  destruct x as [[]|[]| |], y as [[]|[]| |]; try discriminate; split; reflexivity.
Qed.

Lemma SFmul_finite_inv (x y : spec_float) :
  is_finite (SFmul prec emax x y) = true -> is_finite x = true /\ is_finite y = true.
Proof.
  destruct x as [[]|[]| |], y as [[]|[]| |]; try discriminate; split; reflexivity.
Qed.

Lemma SFdiv_finite_inv (x y : spec_float) :
  is_finite (SFdiv prec emax x y) = true ->
  is_finite x = true /\ is_zero y = false /\ is_nan y = false.
Proof.
  destruct x as [[]|[]| |], y as [[]|[]| |]; try discriminate; repeat split.
Qed.

End FloatFacts.

Lemma finite_not_nan (x : spec_float) : is_finite x = true -> is_nan x = false.
Proof. now destruct x. Qed.

Lemma in_unit_finite (r : float64) : in_unit r = true -> is_finite r = true.
Proof.
  unfold in_unit. intros H.
  apply andb_prop in H as [H H1]. apply andb_prop in H as [_ H0].
  destruct r as [s|[]| |s m e]; try reflexivity; discriminate.
Qed.

Lemma script_unit_source : unit_source script_Float64.
Proof.
  intros [|r g]; simpl; [reflexivity|].
  destruct (in_unit r) eqn:E; [exact E|reflexivity].
Qed.

(** ** The rounding of the IEEE operations

    [binary_round] and the operations built on it are characterised by
    their values: the result is the nearest-even rounding of the exact
    result, rounding is monotone, and it leaves representable numbers
    alone. *)

Lemma digits2_pos_size (m : positive) : digits2_pos m = Pos.size m.
Proof. induction m; simpl; congruence. Qed.

Lemma digits2_log2 (m : positive) : Z.pos (digits2_pos m) = Z.log2 (Z.pos m) + 1.
Proof.
  rewrite digits2_pos_size. destruct m; simpl; lia.
Qed.

Lemma Zdigits2_log2 (m : Z) : 0 < m -> Zdigits2 m = Z.log2 m + 1.
Proof. destruct m; try lia. intros _. apply digits2_log2. Qed.

Lemma Zdigits2_bounds (m : Z) :
  0 < m -> 2 ^ (Zdigits2 m - 1) <= m < 2 ^ Zdigits2 m.
Proof.
  intros H. rewrite Zdigits2_log2 by assumption.
  replace (Z.log2 m + 1 - 1) with (Z.log2 m) by lia.
  apply Z.log2_spec. assumption.
Qed.

Lemma Zdigits2_pos (m : Z) : 0 < m -> 0 < Zdigits2 m.
Proof.
  intros H. rewrite Zdigits2_log2 by assumption.
  pose proof (Z.log2_nonneg m). lia.
Qed.

Lemma Zdigits2_le (m1 m2 : Z) : 0 < m1 -> m1 <= m2 -> Zdigits2 m1 <= Zdigits2 m2.
Proof.
  intros H1 H2. rewrite !Zdigits2_log2 by lia.
  pose proof (Z.log2_le_mono m1 m2 H2). lia.
Qed.

Lemma Zdigits2_unique (m d : Z) : 2 ^ (d - 1) <= m < 2 ^ d -> 0 < d -> Zdigits2 m = d.
Proof.
  intros H Hd. assert (0 < m) by (pose proof (Z.pow_pos_nonneg 2 (d - 1)); lia).
  rewrite Zdigits2_log2 by assumption.
  rewrite (Z.log2_unique m (d - 1)); try lia.
  replace (Z.succ (d - 1)) with d by lia. assumption.
Qed.

Lemma Zdigits2_mul_pow2 (m k : Z) :
  0 < m -> 0 <= k -> Zdigits2 (m * 2 ^ k) = Zdigits2 m + k.
Proof.
  intros Hm Hk. assert (0 < 2 ^ k) by (apply Z.pow_pos_nonneg; lia).
  rewrite !Zdigits2_log2 by nia. rewrite Z.log2_mul_pow2 by lia. lia.
Qed.

(** ** Shifting right *)

Lemma iter_pos_nat {A} (f : A -> A) (p : positive) (x : A) :
  SpecFloat.iter_pos f p x = Nat.iter (Pos.to_nat p) f x.
Proof.
  revert x. induction p as [p IH|p IH|]; intros x.
  - rewrite Pos2Nat.inj_xI, Nat.iter_succ_r.
    replace (2 * Pos.to_nat p)%nat with (Pos.to_nat p + Pos.to_nat p)%nat by lia.
    rewrite Nat.iter_add, <- !IH. reflexivity.
  - rewrite Pos2Nat.inj_xO.
    replace (2 * Pos.to_nat p)%nat with (Pos.to_nat p + Pos.to_nat p)%nat by lia.
    rewrite Nat.iter_add, <- !IH. reflexivity.
  - reflexivity.
Qed.

Lemma shr_1_step (m k rho : Z) (q : Z) (r s : bool) :
  0 <= k -> 0 <= q -> m = q * 2 ^ k + rho -> 0 <= rho < 2 ^ k -> located k rho r s ->
  exists q' r' s' rho',
    shr_1 (Build_shr_record q r s) = Build_shr_record q' r' s' /\
    0 <= q' /\ m = q' * 2 ^ (k + 1) + rho' /\ 0 <= rho' < 2 ^ (k + 1) /\
    located (k + 1) rho' r' s'.
Proof.
  intros Hk Hq Hm Hrho Hloc.
  assert (E : 2 ^ (k + 1) = 2 * 2 ^ k) by (rewrite Z.pow_add_r by lia; lia).
  destruct q as [|[p|p|]|p]; try lia; simpl.
  - exists 0, false, (r || s), rho. rewrite E.
    repeat split; try lia. destruct r, s; simpl in *; lia.
  - exists (Z.pos p), true, (r || s), (rho + 2 ^ k). rewrite E.
    repeat split; try lia. destruct r, s; simpl in *; lia.
  - exists (Z.pos p), false, (r || s), rho. rewrite E.
    repeat split; try lia. destruct r, s; simpl in *; lia.
  - exists 0, true, (r || s), (rho + 2 ^ k). rewrite E.
    repeat split; try lia. destruct r, s; simpl in *; lia.
Qed.

Lemma shr_1_iter (m : Z) (k : nat) :
  0 <= m ->
  exists q r s rho,
    Nat.iter k shr_1 (Build_shr_record m false false) = Build_shr_record q r s /\
    0 <= q /\ m = q * 2 ^ Z.of_nat k + rho /\ 0 <= rho < 2 ^ Z.of_nat k /\
    located (Z.of_nat k) rho r s.
Proof.
  intros Hm. induction k as [|k IH].
  - exists m, false, false, 0. simpl. repeat split; lia.
  - destruct IH as (q & r & s & rho & E & Hq & Hd & Hr & Hl).
    rewrite Nat.iter_succ, E.
    destruct (shr_1_step m (Z.of_nat k) rho q r s) as (q' & r' & s' & rho' & H1 & H2 & H3 & H4 & H5);
      try assumption; try lia.
    exists q', r', s', rho'. replace (Z.of_nat (S k)) with (Z.of_nat k + 1) by lia.
    repeat split; try assumption; lia.
Qed.

(** The mantissa after the shift does not depend on the location given. *)
Lemma shr_1_iter_m (k : nat) :
  forall (m : Z) (r s : bool),
    0 <= m ->
    shr_m (Nat.iter k shr_1 (Build_shr_record m r s)) = m / 2 ^ Z.of_nat k.
Proof.
  induction k as [|k IH]; intros m r s Hm.
  - simpl. now rewrite Z.div_1_r.
  - rewrite Nat.iter_succ_r.
    replace (2 ^ Z.of_nat (S k)) with (2 * 2 ^ Z.of_nat k)
      by (rewrite Nat2Z.inj_succ, Z.pow_succ_r by lia; lia).
    rewrite <- Z.div_div by (try apply Z.pow_pos_nonneg; lia).
    destruct m as [|[p|p|]|p]; try lia; simpl shr_1; rewrite IH by lia; f_equal.
    + rewrite Pos2Z.inj_xI. apply (Z.div_unique _ 2 _ 1); lia.
    + rewrite Pos2Z.inj_xO. apply (Z.div_unique _ 2 _ 0); lia.
Qed.

Lemma round_located (m k q rho : Z) (r s : bool) :
  0 <= k -> m = q * 2 ^ k + rho -> 0 <= rho < 2 ^ k -> located k rho r s ->
  round_nearest_even q (loc_of_shr_record (Build_shr_record q r s)) = rne_shift m k.
Proof.
  intros Hk Hm Hr Hl. unfold rne_shift.
  assert (0 < 2 ^ k) by (apply Z.pow_pos_nonneg; lia).
  assert (Hq : m / 2 ^ k = q) by (symmetry; apply (Z.div_unique _ _ _ rho); lia).
  assert (Hrho : m mod 2 ^ k = rho) by (symmetry; apply (Z.mod_unique _ _ q); lia).
  rewrite Hq, Hrho.
  destruct r, s; simpl in *.
  - assert ((2 * rho ?= 2 ^ k) = Gt) as -> by (apply Z.compare_gt_iff; lia). reflexivity.
  - assert ((2 * rho ?= 2 ^ k) = Eq) as -> by (apply Z.compare_eq_iff; lia). reflexivity.
  - assert ((2 * rho ?= 2 ^ k) = Lt) as -> by (apply Z.compare_lt_iff; lia). reflexivity.
  - assert ((2 * rho ?= 2 ^ k) = Lt) as -> by (apply Z.compare_lt_iff; lia). reflexivity.
Qed.

Lemma rne_shift_0 (m : Z) : rne_shift m 0 = m.
Proof.
  unfold rne_shift. rewrite Z.pow_0_r, Z.mod_1_r, Z.div_1_r. reflexivity.
Qed.

Lemma rne_shift_bounds (m n : Z) :
  m / 2 ^ n <= rne_shift m n <= m / 2 ^ n + 1.
Proof.
  unfold rne_shift. destruct (2 * (m mod 2 ^ n) ?= 2 ^ n); [destruct (Z.even _)| |]; lia.
Qed.

Lemma rne_shift_mono (m1 m2 n : Z) :
  0 <= n -> m1 <= m2 -> rne_shift m1 n <= rne_shift m2 n.
Proof.
  intros Hn Hm. assert (Hp : 0 < 2 ^ n) by (apply Z.pow_pos_nonneg; lia).
  pose proof (Z.div_le_mono m1 m2 (2 ^ n) Hp Hm) as Hq.
  destruct (Z.eq_dec (m1 / 2 ^ n) (m2 / 2 ^ n)) as [E|E].
  - pose proof (Z.div_mod m1 (2 ^ n)) as D1. pose proof (Z.div_mod m2 (2 ^ n)) as D2.
    unfold rne_shift. rewrite E in *.
    destruct (Z.compare_spec (2 * (m1 mod 2 ^ n)) (2 ^ n)),
             (Z.compare_spec (2 * (m2 mod 2 ^ n)) (2 ^ n));
      try destruct (Z.even _); lia.
  - pose proof (rne_shift_bounds m1 n). pose proof (rne_shift_bounds m2 n). lia.
Qed.

(** Shifting an exact mantissa, then rounding. *)
Lemma shr_exact (M E n : Z) :
  0 <= M -> 0 <= n ->
  exists R, shr (Build_shr_record M false false) E n = (R, E + n) /\
            round_nearest_even (shr_m R) (loc_of_shr_record R) = rne_shift M n.
Proof.
  intros HM Hn. destruct n as [|p|p]; try lia.
  - eexists. split; [simpl; f_equal; lia|]. simpl. now rewrite rne_shift_0.
  - unfold shr. rewrite iter_pos_nat.
    destruct (shr_1_iter M (Pos.to_nat p) HM) as (q & r & s & rho & -> & Hq & Hd & Hr & Hl).
    eexists. split; [reflexivity|]. rewrite positive_nat_Z in *.
    cbn [shr_m]. now apply (round_located M (Z.pos p) q rho).
Qed.

(** Shifting with any location: the mantissa is the quotient, and rounding
    adds at most one. *)
Lemma loc_round_bounds (q : Z) (l : location) :
  q <= round_nearest_even q l <= q + 1.
Proof. destruct l as [|[]]; simpl; try destruct (Z.even q); lia. Qed.

Lemma shr_any (M E n : Z) (l : location) :
  0 <= M -> 0 <= n ->
  exists R, shr (shr_record_of_loc M l) E n = (R, E + n) /\
            shr_m R = M / 2 ^ n.
Proof.
  intros HM Hn.
  assert (Hrec : exists r s, shr_record_of_loc M l = Build_shr_record M r s)
    by (destruct l as [|[]]; simpl; eauto).
  destruct Hrec as (r & s & ->).
  destruct n as [|p|p]; try lia.
  - eexists. split; [simpl; f_equal; lia|]. simpl. now rewrite Z.div_1_r.
  - unfold shr. rewrite iter_pos_nat. eexists. split; [reflexivity|].
    rewrite shr_1_iter_m by assumption. now rewrite positive_nat_Z.
Qed.

Section Rounding.
Variables prec emax : Z.
Hypothesis Hprec : 1 < prec.
Hypothesis Hemax : prec < emax.

Local Set Default Proof Using "Hprec Hemax".

Local Abbreviation emin := (SpecFloat.emin prec emax).
Local Abbreviation fexp := (SpecFloat.fexp prec emax).
Local Abbreviation top := (2 ^ (emax - emin)).

Lemma emin_eq : emin = 3 - emax - prec.
Proof. reflexivity. Qed.

Lemma fexp_eq (e : Z) : fexp e = Z.max (e - prec) emin.
Proof. reflexivity. Qed.

Lemma fexp_ge_emin (e : Z) : emin <= fexp e.
Proof. rewrite fexp_eq. lia. Qed.

Lemma fexp_mono (e1 e2 : Z) : e1 <= e2 -> fexp e1 <= fexp e2.
Proof. rewrite !fexp_eq. lia. Qed.

Lemma shr_no_shift (R : shr_record) (e n : Z) : n <= 0 -> shr R e n = (R, e).
Proof. destruct n; try lia; reflexivity. Qed.

(** The second shift of [binary_round_aux]: at most one digit, when the
    rounding carried. *)
Lemma bra_finish (s : bool) (q f : Z) :
  0 <= q <= 2 ^ prec -> emin <= f ->
  (let '(mrs, e) := shr_fexp prec emax q f loc_Exact in
   match shr_m mrs with
   | Z0 => S754_zero s
   | Zpos m => if e <=? emax - prec then S754_finite s m e else S754_infinity s
   | Zneg _ => S754_nan
   end) = pack prec emax s q f.
Proof.
  intros Hq Hf. unfold shr_fexp, pack. cbn [shr_record_of_loc].
  assert (Hp : 0 < 2 ^ prec) by (apply Z.pow_pos_nonneg; lia).
  destruct (Z.eqb_spec q 0) as [->|Hq0].
  - rewrite shr_no_shift by (simpl Zdigits2; rewrite fexp_eq; lia). reflexivity.
  - destruct (Z.eqb_spec q (2 ^ prec)) as [->|Hq1].
    + assert (Hd : Zdigits2 (2 ^ prec) = prec + 1).
      { apply Zdigits2_unique; [|lia]. replace (prec + 1 - 1) with prec by lia.
        rewrite Z.pow_add_r by lia. lia. }
      rewrite Hd. replace (fexp (prec + 1 + f) - f) with 1 by (rewrite fexp_eq; lia).
      destruct (shr_any (2 ^ prec) f 1 loc_Exact) as (R & HR & Hm); try lia.
      cbn [shr_record_of_loc] in HR. rewrite HR, Hm.
      replace (2 ^ prec / 2 ^ 1) with (2 ^ (prec - 1)).
      2:{ replace prec with (prec - 1 + 1) at 2 by lia.
          rewrite Z.pow_add_r by lia. rewrite Z.div_mul by lia. reflexivity. }
      assert (0 < 2 ^ (prec - 1)) by (apply Z.pow_pos_nonneg; lia).
      destruct (2 ^ (prec - 1)) eqn:E; try lia. reflexivity.
    + assert (Hd : Zdigits2 q <= prec).
      { assert (0 < q) by lia. pose proof (Zdigits2_bounds q H).
        destruct (Z_le_gt_dec (Zdigits2 q) prec); [assumption|].
        assert (2 ^ prec <= 2 ^ (Zdigits2 q - 1)) by (apply Z.pow_le_mono_r; lia). lia. }
      rewrite shr_no_shift by (rewrite fexp_eq; lia). cbn [shr_m].
      destruct q; try lia. reflexivity.
Qed.

Lemma bra_pack (s : bool) (M E : Z) (l : location) :
  0 <= M -> E <= fexp (Zdigits2 M + E) ->
  exists q,
    binary_round_aux prec emax s M E l = pack prec emax s q (fexp (Zdigits2 M + E)) /\
    M / 2 ^ (fexp (Zdigits2 M + E) - E) <= q <= M / 2 ^ (fexp (Zdigits2 M + E) - E) + 1 /\
    0 <= q <= 2 ^ prec /\
    (emin < fexp (Zdigits2 M + E) -> 2 ^ (prec - 1) <= q) /\
    (l = loc_Exact -> q = rne_shift M (fexp (Zdigits2 M + E) - E)).
Proof.
  intros HM Hn. set (f := fexp (Zdigits2 M + E)) in *. set (n := f - E).
  assert (Hn0 : 0 <= n) by (unfold n; lia).
  assert (Hpn : 0 < 2 ^ n) by (apply Z.pow_pos_nonneg; lia).
  unfold binary_round_aux, shr_fexp. fold f. fold n.
  destruct (shr_any M E n l HM Hn0) as (R & HR & Hm). rewrite HR.
  replace (E + n) with f by (unfold n; lia).
  set (q := round_nearest_even (shr_m R) (loc_of_shr_record R)).
  assert (Hqb : M / 2 ^ n <= q <= M / 2 ^ n + 1)
    by (unfold q; rewrite <- Hm; apply loc_round_bounds).
  assert (Hdiv0 : 0 <= M / 2 ^ n) by (apply Z.div_pos; lia).
  assert (Hupper : M / 2 ^ n < 2 ^ prec).
  { destruct (Z.eq_dec M 0) as [->|HM0].
    - rewrite Z.div_0_l by lia. apply Z.pow_pos_nonneg; lia.
    - assert (HMpos : 0 < M) by lia. pose proof (Zdigits2_bounds M HMpos) as [_ Hd].
      apply Z.div_lt_upper_bound; [assumption|].
      rewrite <- Z.pow_add_r by lia.
      eapply Z.lt_le_trans; [exact Hd|]. apply Z.pow_le_mono_r; [lia|].
      unfold n, f. rewrite fexp_eq. lia. }
  assert (Hlower : emin < f -> 2 ^ (prec - 1) <= M / 2 ^ n).
  { intros Hf. destruct (Z.eq_dec M 0) as [->|HM0].
    - exfalso. unfold f in Hf, Hn. simpl Zdigits2 in *. rewrite fexp_eq in *. lia.
    - assert (HMpos : 0 < M) by lia. pose proof (Zdigits2_bounds M HMpos) as [Hd _].
      assert (En : n = Zdigits2 M - prec) by (unfold n, f in *; rewrite fexp_eq in *; lia).
      apply Z.div_le_lower_bound; [assumption|].
      rewrite <- Z.pow_add_r by lia.
      replace (n + (prec - 1)) with (Zdigits2 M - 1) by lia. assumption. }
  exists q. split; [apply bra_finish; [lia|apply fexp_ge_emin]|].
  repeat split; try lia.
  intros ->. cbn [shr_record_of_loc] in HR.
  destruct (shr_exact M E n HM Hn0) as (R' & HR' & Hrnd).
  rewrite HR in HR'. injection HR' as <-. exact Hrnd.
Qed.

Lemma pack_valid (s : bool) (q f : Z) :
  0 <= q <= 2 ^ prec -> emin <= f -> (emin < f -> 2 ^ (prec - 1) <= q) ->
  valid_binary prec emax (pack prec emax s q f) = true.
Proof.
  intros Hq Hf Hn. unfold pack.
  assert (Hp1 : 0 < 2 ^ (prec - 1)) by (apply Z.pow_pos_nonneg; lia).
  assert (Hp : 2 ^ prec = 2 * 2 ^ (prec - 1)).
  { replace prec with (prec - 1 + 1) at 1 by lia. rewrite Z.pow_add_r by lia. lia. }
  destruct (Z.eqb_spec q 0); [reflexivity|].
  destruct (Z.eqb_spec q (2 ^ prec)).
  - destruct (Z.leb_spec (f + 1) (emax - prec)); [|reflexivity].
    cbn [valid_binary]. unfold bounded, canonical_mantissa.
    apply andb_true_intro. split; [|now apply Z.leb_le].
    apply Z.eqb_eq. change (Z.pos (digits2_pos ?m)) with (Zdigits2 (Z.pos m)).
    rewrite Z2Pos.id by lia.
    rewrite (Zdigits2_unique (2 ^ (prec - 1)) prec) by lia.
    rewrite fexp_eq. lia.
  - destruct (Z.leb_spec f (emax - prec)); [|reflexivity].
    cbn [valid_binary]. unfold bounded, canonical_mantissa.
    apply andb_true_intro. split; [|now apply Z.leb_le].
    apply Z.eqb_eq. change (Z.pos (digits2_pos ?m)) with (Zdigits2 (Z.pos m)).
    rewrite Z2Pos.id by lia.
    assert (Hq0 : 0 < q) by lia. pose proof (Zdigits2_bounds q Hq0) as Hd.
    pose proof (Zdigits2_pos q Hq0).
    assert (Zdigits2 q <= prec).
    { destruct (Z_le_gt_dec (Zdigits2 q) prec); [assumption|].
      assert (2 ^ prec <= 2 ^ (Zdigits2 q - 1)) by (apply Z.pow_le_mono_r; lia). lia. }
    rewrite fexp_eq. destruct (Z.eq_dec f emin); [lia|].
    assert (prec <= Zdigits2 q).
    { destruct (Z_le_gt_dec prec (Zdigits2 q)); [assumption|].
      assert (2 ^ Zdigits2 q <= 2 ^ (prec - 1)) by (apply Z.pow_le_mono_r; lia). lia. }
    lia.
Qed.

Lemma pack_grid (s : bool) (q f : Z) :
  0 <= q <= 2 ^ prec -> emin <= f -> (emin < f -> 2 ^ (prec - 1) <= q) ->
  grid prec emax (pack prec emax s q f) = cond_Zopp s (Z.min top (q * 2 ^ (f - emin))).
Proof.
  intros Hq Hf Hn. unfold pack.
  assert (Hp1 : 0 < 2 ^ (prec - 1)) by (apply Z.pow_pos_nonneg; lia).
  assert (Hp : 2 ^ prec = 2 * 2 ^ (prec - 1)).
  { replace prec with (prec - 1 + 1) at 1 by lia. rewrite Z.pow_add_r by lia. lia. }
  assert (Hpf : 0 < 2 ^ (f - emin)) by (apply Z.pow_pos_nonneg; lia).
  assert (Hin : f <= emax - prec -> q < 2 ^ prec -> q * 2 ^ (f - emin) < top).
  { intros H1 H2. apply Z.lt_le_trans with (2 ^ prec * 2 ^ (f - emin)); [nia|].
    rewrite <- Z.pow_add_r by lia. apply Z.pow_le_mono_r; lia. }
  assert (Hout : emax - prec < f -> top <= q * 2 ^ (f - emin)).
  { intros H1. apply Z.le_trans with (2 ^ (prec - 1) * 2 ^ (f - emin)).
    - rewrite <- Z.pow_add_r by lia. apply Z.pow_le_mono_r; unfold SpecFloat.emin in *; lia.
    - apply Z.mul_le_mono_nonneg_r; [lia|]. apply Hn. unfold SpecFloat.emin in *. lia. }
  destruct (Z.eqb_spec q 0) as [->|Hq0].
  - simpl. assert (0 < top) by (apply Z.pow_pos_nonneg; unfold SpecFloat.emin; lia).
    rewrite Z.min_r by lia. now destruct s.
  - destruct (Z.eqb_spec q (2 ^ prec)) as [->|Hq1].
    + assert (E : 2 ^ prec * 2 ^ (f - emin) = 2 ^ (prec - 1) * 2 ^ (f + 1 - emin)).
      { rewrite Hp. replace (f + 1 - emin) with (f - emin + 1) by lia.
        rewrite (Z.pow_add_r 2 (f - emin)) by lia. lia. }
      destruct (Z.leb_spec (f + 1) (emax - prec)).
      * cbn [grid]. rewrite Z2Pos.id by lia. f_equal. rewrite E.
        rewrite Z.min_r; [reflexivity|].
        apply Z.lt_le_incl. rewrite <- Z.pow_add_r by lia.
        apply Z.pow_lt_mono_r; lia.
      * cbn [grid]. f_equal. rewrite E. rewrite Z.min_l; [reflexivity|].
        rewrite <- Z.pow_add_r by lia. apply Z.pow_le_mono_r; unfold SpecFloat.emin in *; lia.
    + destruct (Z.leb_spec f (emax - prec)).
      * cbn [grid]. rewrite Z2Pos.id by lia. f_equal. rewrite Z.min_r; [reflexivity|].
        apply Z.lt_le_incl, Hin; lia.
      * cbn [grid]. f_equal. rewrite Z.min_l; [reflexivity|]. apply Hout; lia.
Qed.

Lemma pack_class (s : bool) (q f : Z) :
  pack prec emax s q f = S754_zero s \/ pack prec emax s q f = S754_infinity s \/
  exists m e, pack prec emax s q f = S754_finite s m e.
Proof.
  unfold pack. destruct (q =? 0); [now left|right].
  destruct (q =? 2 ^ prec).
  - destruct (f + 1 <=? emax - prec); [right; eauto|now left].
  - destruct (f <=? emax - prec); [right; eauto|now left].
Qed.

Lemma pos_iter_xO (m d : positive) : Z.pos (Pos.iter xO m d) = Z.pos m * 2 ^ Z.pos d.
Proof.
  induction d as [|d IH] using Pos.peano_ind.
  - simpl. lia.
  - rewrite Pos.iter_succ, Pos2Z.inj_xO, IH, Pos2Z.inj_succ, Z.pow_succ_r by lia. lia.
Qed.

Lemma shl_align_spec (m : positive) (e f : Z) :
  exists mz,
    shl_align m e f = (mz, Z.min e f) /\ Z.pos mz = Z.pos m * 2 ^ (e - Z.min e f).
Proof.
  unfold shl_align. destruct (f - e) as [|d|d] eqn:E.
  - exists m. rewrite Z.min_l by lia. rewrite Z.sub_diag. split; [reflexivity|simpl; lia].
  - exists m. rewrite Z.min_l by lia. rewrite Z.sub_diag. split; [reflexivity|simpl; lia].
  - exists (Pos.iter xO m d). rewrite Z.min_r by lia. split; [reflexivity|].
    rewrite pos_iter_xO. f_equal. f_equal. lia.
Qed.

Lemma binary_round_pack (s : bool) (m : positive) (e : Z) :
  let f := fexp (Zdigits2 (Z.pos m) + e) in
  let q := round_mant prec emax (Z.pos m) e in
  binary_round prec emax s m e = pack prec emax s q f /\
  0 <= q <= 2 ^ prec /\ (emin < f -> 2 ^ (prec - 1) <= q).
Proof.
  intros f q. unfold binary_round.
  change (Z.pos (digits2_pos m)) with (Zdigits2 (Z.pos m)). fold f.
  destruct (shl_align_spec m e f) as (mz & -> & Hmz).
  assert (Hd : Zdigits2 (Z.pos mz) + Z.min e f = Zdigits2 (Z.pos m) + e).
  { rewrite Hmz, Zdigits2_mul_pow2 by lia. lia. }
  destruct (bra_pack s (Z.pos mz) (Z.min e f) loc_Exact) as (q' & Hb & _ & Hq & Hn & Hx);
    [lia|rewrite Hd; fold f; lia|].
  rewrite Hd in *. fold f in Hb, Hq, Hn, Hx.
  assert (q' = q) as ->.
  { rewrite Hx by reflexivity. unfold q, round_mant. fold f.
    destruct (Z.leb_spec f e).
    - rewrite Z.min_r in * by lia. rewrite Z.sub_diag, rne_shift_0. exact Hmz.
    - rewrite Z.min_l in * by lia. rewrite Z.sub_diag in Hmz.
      f_equal. rewrite Hmz. simpl. lia. }
  auto.
Qed.

Lemma binary_round_valid (s : bool) (m : positive) (e : Z) :
  valid_binary prec emax (binary_round prec emax s m e) = true.
Proof.
  destruct (binary_round_pack s m e) as (-> & Hq & Hn).
  apply pack_valid; [assumption|apply fexp_ge_emin|assumption].
Qed.

Lemma binary_round_grid (s : bool) (m : positive) (e : Z) :
  grid prec emax (binary_round prec emax s m e) =
  cond_Zopp s (round_grid prec emax (Z.pos m) e).
Proof.
  destruct (binary_round_pack s m e) as (-> & Hq & Hn).
  apply pack_grid; [assumption|apply fexp_ge_emin|assumption].
Qed.

Lemma binary_round_class (s : bool) (m : positive) (e : Z) :
  binary_round prec emax s m e = S754_zero s \/
  binary_round prec emax s m e = S754_infinity s \/
  exists m' e', binary_round prec emax s m e = S754_finite s m' e'.
Proof.
  destruct (binary_round_pack s m e) as (-> & _). apply pack_class.
Qed.

(** *** The rounded value as a function of the number rounded *)

Lemma round_mant_bounds (m e : Z) :
  0 < m ->
  0 <= round_mant prec emax m e <= 2 ^ prec /\
  (emin < fexp (Zdigits2 m + e) -> 2 ^ (prec - 1) <= round_mant prec emax m e).
Proof.
  intros Hm. destruct m as [|p|p]; try lia.
  destruct (binary_round_pack false p e) as (_ & Hq & Hn). auto.
Qed.

Lemma round_grid_nonneg (m e : Z) : 0 < m -> 0 <= round_grid prec emax m e.
Proof.
  intros Hm. unfold round_grid. destruct (round_mant_bounds m e Hm) as [Hq _].
  assert (0 <= 2 ^ (fexp (Zdigits2 m + e) - emin)) by (apply Z.pow_nonneg; lia).
  assert (0 <= top) by (apply Z.pow_nonneg; lia). nia.
Qed.

Lemma rne_shift_scale (m n k : Z) :
  0 <= n -> 0 <= k -> rne_shift (m * 2 ^ k) (n + k) = rne_shift m n.
Proof.
  intros Hn Hk. unfold rne_shift.
  assert (Hpk : 0 < 2 ^ k) by (apply Z.pow_pos_nonneg; lia).
  assert (Hpn : 0 < 2 ^ n) by (apply Z.pow_pos_nonneg; lia).
  rewrite Z.pow_add_r by lia.
  rewrite Z.div_mul_cancel_r by lia.
  rewrite Zmult_mod_distr_r.
  assert (C : (2 * (m mod 2 ^ n * 2 ^ k) ?= 2 ^ n * 2 ^ k) = (2 * (m mod 2 ^ n) ?= 2 ^ n)).
  { rewrite Z.mul_assoc. symmetry. apply Zmult_compare_compat_r. lia. }
  now rewrite C.
Qed.

Lemma rne_shift_exact (m n : Z) : 0 <= n -> rne_shift (m * 2 ^ n) n = m.
Proof.
  intros Hn. rewrite <- (Z.add_0_l n) at 2. rewrite rne_shift_scale by lia.
  apply rne_shift_0.
Qed.

(** Rounding does not depend on how the number is written. *)
Lemma round_grid_scale (m e k : Z) :
  0 < m -> 0 <= k -> round_grid prec emax (m * 2 ^ k) (e - k) = round_grid prec emax m e.
Proof.
  intros Hm Hk. unfold round_grid, round_mant.
  rewrite Zdigits2_mul_pow2 by lia.
  replace (Zdigits2 m + k + (e - k)) with (Zdigits2 m + e) by lia.
  set (f := fexp (Zdigits2 m + e)).
  f_equal. f_equal.
  destruct (Z.leb_spec f (e - k)), (Z.leb_spec f e); try lia.
  - rewrite <- Z.mul_assoc, <- Z.pow_add_r by lia. f_equal. f_equal. lia.
  - replace k with ((e - f) + (f - (e - k))) at 1 by lia.
    rewrite Z.pow_add_r, Z.mul_assoc by lia. apply rne_shift_exact. lia.
  - replace (f - (e - k)) with (f - e + k) by lia. apply rne_shift_scale; lia.
Qed.

Lemma rne_shift_small (m d n : Z) :
  0 <= m < 2 ^ d -> 0 <= d < n -> rne_shift m n = 0.
Proof.
  intros Hm Hd. unfold rne_shift.
  assert (2 ^ (d + 1) <= 2 ^ n) by (apply Z.pow_le_mono_r; lia).
  rewrite Z.pow_add_r in H by lia.
  rewrite Z.div_small, Z.mod_small by lia.
  assert ((2 * m ?= 2 ^ n) = Lt) as -> by (apply Z.compare_lt_iff; lia).
  reflexivity.
Qed.

Lemma rne_shift_upper (m d n : Z) :
  0 <= m < 2 ^ d -> 0 <= n <= d -> rne_shift m n <= 2 ^ (d - n).
Proof.
  intros Hm Hn. pose proof (rne_shift_bounds m n) as [_ Hb].
  assert (Hpn : 0 < 2 ^ n) by (apply Z.pow_pos_nonneg; lia).
  assert (m / 2 ^ n < 2 ^ (d - n)); [|lia].
  apply Z.div_lt_upper_bound; [assumption|].
  rewrite <- Z.pow_add_r by lia. replace (n + (d - n)) with d by lia. lia.
Qed.

(** The rounded value before the overflow test. *)
Lemma round_upper (m e x : Z) :
  0 < m -> Zdigits2 m + e <= x -> emin <= x ->
  round_mant prec emax m e * 2 ^ (fexp (Zdigits2 m + e) - emin) <= 2 ^ (x - emin).
Proof.
  intros Hm Hx Hx'. pose proof (Zdigits2_bounds m Hm) as Hd.
  pose proof (Zdigits2_pos m Hm) as Hd0.
  set (d := Zdigits2 m) in *. unfold round_mant. fold d.
  pose proof (fexp_ge_emin (d + e)) as Hf. set (f := fexp (d + e)) in *.
  assert (Hpf : 0 < 2 ^ (f - emin)) by (apply Z.pow_pos_nonneg; lia).
  destruct (Z.leb_spec f e).
  - rewrite <- Z.mul_assoc, <- Z.pow_add_r by lia.
    replace (e - f + (f - emin)) with (e - emin) by lia.
    apply Z.le_trans with (2 ^ d * 2 ^ (e - emin)).
    + apply Z.mul_le_mono_nonneg_r; [apply Z.pow_nonneg|]; lia.
    + rewrite <- Z.pow_add_r by lia. apply Z.pow_le_mono_r; lia.
  - destruct (Z_le_gt_dec (f - e) d).
    + apply Z.le_trans with (2 ^ (d - (f - e)) * 2 ^ (f - emin)).
      * apply Z.mul_le_mono_nonneg_r; [lia|]. apply rne_shift_upper; lia.
      * rewrite <- Z.pow_add_r by lia. apply Z.pow_le_mono_r; lia.
    + rewrite (rne_shift_small m d) by lia. simpl.
      apply Z.pow_nonneg. lia.
Qed.

Lemma round_lower (m e : Z) :
  0 < m -> emin < fexp (Zdigits2 m + e) ->
  2 ^ (Zdigits2 m - 1 + e - emin) <=
  round_mant prec emax m e * 2 ^ (fexp (Zdigits2 m + e) - emin).
Proof.
  intros Hm Hf. destruct (round_mant_bounds m e Hm) as [_ Hq]. specialize (Hq Hf).
  assert (E : fexp (Zdigits2 m + e) = Zdigits2 m + e - prec)
    by (rewrite fexp_eq in *; lia).
  rewrite E in *.
  apply Z.le_trans with (2 ^ (prec - 1) * 2 ^ (Zdigits2 m + e - prec - emin)).
  - rewrite <- Z.pow_add_r by lia. apply Z.pow_le_mono_r; lia.
  - apply Z.mul_le_mono_nonneg_r; [apply Z.pow_nonneg|]; lia.
Qed.

(** Rounding is monotone. *)
Lemma round_grid_mono (m1 m2 e : Z) :
  0 < m1 -> m1 <= m2 -> round_grid prec emax m1 e <= round_grid prec emax m2 e.
Proof.
  intros H1 H12. unfold round_grid. apply Z.min_le_compat_l.
  pose proof (Zdigits2_le m1 m2 H1 H12) as Hd.
  pose proof (fexp_mono (Zdigits2 m1 + e) (Zdigits2 m2 + e)) as Hf.
  destruct (Z.eq_dec (fexp (Zdigits2 m1 + e)) (fexp (Zdigits2 m2 + e))) as [E|E].
  - unfold round_mant. rewrite E.
    apply Z.mul_le_mono_nonneg_r; [apply Z.pow_nonneg; lia|].
    destruct (Z.leb_spec (fexp (Zdigits2 m2 + e)) e).
    + apply Z.mul_le_mono_nonneg_r; [apply Z.pow_nonneg|]; lia.
    + apply rne_shift_mono; lia.
  - pose proof (fexp_ge_emin (Zdigits2 m1 + e)).
    assert (Hf2 : emin < fexp (Zdigits2 m2 + e)) by lia.
    assert (Hlt : Zdigits2 m1 < Zdigits2 m2).
    { destruct (Z.eq_dec (Zdigits2 m1) (Zdigits2 m2)) as [E'|E']; [|lia].
      rewrite E' in E. lia. }
    eapply Z.le_trans; [|apply round_lower; [lia|assumption]].
    apply round_upper; [assumption|lia|]. rewrite fexp_eq in Hf2. lia.
Qed.

(** *** Representable numbers *)

Lemma bounded_inv (m : positive) (e : Z) :
  bounded prec emax m e = true ->
  fexp (Zdigits2 (Z.pos m) + e) = e /\ emin <= e <= emax - prec /\
  Zdigits2 (Z.pos m) <= prec /\ (emin < e -> Zdigits2 (Z.pos m) = prec).
Proof.
  unfold bounded, canonical_mantissa. intros H.
  apply andb_prop in H as [H1 H2]. apply Z.eqb_eq in H1. apply Z.leb_le in H2.
  change (Z.pos (digits2_pos m)) with (Zdigits2 (Z.pos m)) in H1.
  rewrite fexp_eq in *. repeat split; lia.
Qed.

Lemma bounded_lt_pow (m : positive) (e : Z) :
  bounded prec emax m e = true -> Z.pos m < 2 ^ prec.
Proof.
  intros H. apply bounded_inv in H as (_ & _ & Hd & _).
  pose proof (Zdigits2_bounds (Z.pos m) eq_refl) as [_ Hb].
  eapply Z.lt_le_trans; [exact Hb|]. apply Z.pow_le_mono_r; lia.
Qed.

Lemma bounded_grid_lt_top (m : positive) (e : Z) :
  bounded prec emax m e = true -> Z.pos m * 2 ^ (e - emin) < top.
Proof.
  intros H. pose proof (bounded_lt_pow m e H). apply bounded_inv in H as (_ & He & _).
  assert (0 < 2 ^ (e - emin)) by (apply Z.pow_pos_nonneg; lia).
  apply Z.lt_le_trans with (2 ^ prec * 2 ^ (e - emin)); [nia|].
  rewrite <- Z.pow_add_r by lia. apply Z.pow_le_mono_r; lia.
Qed.

Lemma round_grid_id (m : positive) (e : Z) :
  bounded prec emax m e = true ->
  round_grid prec emax (Z.pos m) e = Z.pos m * 2 ^ (e - emin).
Proof.
  intros H. pose proof (bounded_grid_lt_top m e H).
  apply bounded_inv in H as (Hf & _).
  unfold round_grid, round_mant. rewrite Hf, Z.leb_refl, Z.sub_diag. simpl (2 ^ 0).
  rewrite Z.mul_1_r. lia.
Qed.

Lemma binary_round_id (s : bool) (m : positive) (e : Z) :
  bounded prec emax m e = true ->
  binary_round prec emax s m e = S754_finite s m e.
Proof.
  intros H. destruct (binary_round_pack s m e) as (-> & _).
  pose proof (bounded_lt_pow m e H). apply bounded_inv in H as (Hf & He & _).
  unfold round_mant, pack. rewrite Hf, Z.leb_refl, Z.sub_diag. simpl (2 ^ 0).
  rewrite Z.mul_1_r.
  destruct (Z.eqb_spec (Z.pos m) 0); [lia|].
  destruct (Z.eqb_spec (Z.pos m) (2 ^ prec)); [lia|].
  destruct (Z.leb_spec e (emax - prec)); [|lia]. reflexivity.
Qed.

(** Of two representable numbers of the same sign, the one with the larger
    exponent is the larger. *)
Lemma bounded_lex (m1 m2 : positive) (e1 e2 : Z) :
  bounded prec emax m1 e1 = true -> bounded prec emax m2 e2 = true -> e1 < e2 ->
  Z.pos m1 * 2 ^ (e1 - emin) < Z.pos m2 * 2 ^ (e2 - emin).
Proof.
  intros H1 H2 He. pose proof (bounded_lt_pow m1 e1 H1) as Hm1.
  apply bounded_inv in H1 as (_ & He1 & _). apply bounded_inv in H2 as (_ & He2 & _ & Hd2).
  pose proof (Zdigits2_bounds (Z.pos m2) eq_refl) as [Hb _].
  rewrite Hd2 in Hb by lia.
  assert (0 < 2 ^ (e1 - emin)) by (apply Z.pow_pos_nonneg; lia).
  apply Z.lt_le_trans with (2 ^ prec * 2 ^ (e1 - emin)); [nia|].
  apply Z.le_trans with (2 ^ (prec - 1) * 2 ^ (e2 - emin)).
  - rewrite <- !Z.pow_add_r by lia. apply Z.pow_le_mono_r; lia.
  - apply Z.mul_le_mono_nonneg_r; [apply Z.pow_nonneg|]; lia.
Qed.

Lemma bounded_compare (m1 m2 : positive) (e1 e2 : Z) :
  bounded prec emax m1 e1 = true -> bounded prec emax m2 e2 = true ->
  match e1 ?= e2 with
  | Lt => Lt
  | Gt => Gt
  | Eq => Pos.compare_cont Eq m1 m2
  end = (Z.pos m1 * 2 ^ (e1 - emin) ?= Z.pos m2 * 2 ^ (e2 - emin)).
Proof.
  intros H1 H2. symmetry. destruct (Z.compare_spec e1 e2) as [E|E|E].
  - subst e2. apply bounded_inv in H1 as (_ & He1 & _).
    assert (0 < 2 ^ (e1 - emin)) by (apply Z.pow_pos_nonneg; lia).
    change (Pos.compare_cont Eq m1 m2) with (Z.pos m1 ?= Z.pos m2).
    symmetry. apply Zmult_compare_compat_r. lia.
  - apply Z.compare_lt_iff. now apply bounded_lex.
  - apply Z.compare_gt_iff. now apply bounded_lex.
Qed.

(** The comparison of Go, on numbers that are not NaN, is the comparison of
    the values. *)
Lemma SFcompare_grid (x y : spec_float) :
  valid_binary prec emax x = true -> valid_binary prec emax y = true ->
  is_nan x = false -> is_nan y = false ->
  SFcompare x y = Some (grid prec emax x ?= grid prec emax y).
Proof.
  intros Vx Vy Nx Ny.
  assert (Ht : 0 < top) by (apply Z.pow_pos_nonneg; unfold SpecFloat.emin; lia).
  assert (Hpos : forall m e, bounded prec emax m e = true ->
                             0 < Z.pos m * 2 ^ (e - emin) < top).
  { intros m e H. split; [|now apply bounded_grid_lt_top].
    apply bounded_inv in H as (_ & He & _).
    assert (0 < 2 ^ (e - emin)) by (apply Z.pow_pos_nonneg; lia). nia. }
  assert (Hlt : forall a b : Z, a < b -> Some (a ?= b) = Some Lt)
    by (intros a b H; f_equal; now apply Z.compare_lt_iff).
  assert (Hgt : forall a b : Z, b < a -> Some (a ?= b) = Some Gt)
    by (intros a b H; f_equal; now apply Z.compare_gt_iff).
  destruct x as [sx|sx| |sx mx ex], y as [sy|sy| |sy my ey]; try discriminate;
    cbn [SFcompare grid valid_binary] in *;
    try pose proof (Hpos _ _ Vx) as Px; try pose proof (Hpos _ _ Vy) as Py.
  - reflexivity.
  - destruct sy; unfold cond_Zopp; symmetry; [apply Hgt|apply Hlt]; lia.
  - destruct sy; unfold cond_Zopp; symmetry; [apply Hgt|apply Hlt]; lia.
  - destruct sx; unfold cond_Zopp; symmetry; [apply Hlt|apply Hgt]; lia.
  - destruct sx, sy; unfold cond_Zopp; symmetry;
      [now rewrite Z.compare_refl|apply Hlt; lia|apply Hgt; lia|now rewrite Z.compare_refl].
  - destruct sx; unfold cond_Zopp; symmetry; [apply Hlt|apply Hgt];
      destruct sy; lia.
  - destruct sx; unfold cond_Zopp; symmetry; [apply Hlt|apply Hgt]; lia.
  - destruct sy; unfold cond_Zopp; symmetry; [apply Hgt|apply Hlt];
      destruct sx; lia.
  - pose proof (bounded_compare mx my ex ey Vx Vy) as C.
    destruct sx, sy; unfold cond_Zopp.
    + f_equal.
      rewrite (Z.compare_opp (Z.pos mx * 2 ^ (ex - emin)) (Z.pos my * 2 ^ (ey - emin))).
      rewrite (Z.compare_antisym (Z.pos mx * 2 ^ (ex - emin))), <- C.
      now destruct (ex ?= ey).
    + symmetry. apply Hlt. lia.
    + symmetry. apply Hgt. lia.
    + f_equal. exact C.
Qed.

(** *** Signed rounding *)

Lemma round_dy_mono (z1 z2 e : Z) :
  z1 <= z2 -> round_dy prec emax z1 e <= round_dy prec emax z2 e.
Proof.
  intros H. unfold round_dy.
  destruct (Z.lt_trichotomy z1 0) as [H1|[->|H1]];
    destruct (Z.lt_trichotomy z2 0) as [H2|[->|H2]]; try lia.
  - rewrite !Z.sgn_neg, !Z.abs_neq by lia.
    assert (round_grid prec emax (- z2) e <= round_grid prec emax (- z1) e)
      by (apply round_grid_mono; lia).
    lia.
  - rewrite Z.sgn_neg by lia. simpl.
    assert (0 <= round_grid prec emax (Z.abs z1) e) by (apply round_grid_nonneg; lia).
    lia.
  - rewrite (Z.sgn_neg z1), (Z.sgn_pos z2) by lia.
    assert (0 <= round_grid prec emax (Z.abs z1) e) by (apply round_grid_nonneg; lia).
    assert (0 <= round_grid prec emax (Z.abs z2) e) by (apply round_grid_nonneg; lia).
    lia.
  - rewrite (Z.sgn_pos z2) by lia. simpl.
    assert (0 <= round_grid prec emax (Z.abs z2) e) by (apply round_grid_nonneg; lia).
    lia.
  - rewrite !Z.sgn_pos, !Z.abs_eq by lia.
    assert (round_grid prec emax z1 e <= round_grid prec emax z2 e)
      by (apply round_grid_mono; lia).
    lia.
Qed.

Lemma round_dy_scale (z e k : Z) :
  0 <= k -> round_dy prec emax (z * 2 ^ k) (e - k) = round_dy prec emax z e.
Proof.
  intros Hk. unfold round_dy.
  assert (Hp : 0 < 2 ^ k) by (apply Z.pow_pos_nonneg; lia).
  destruct (Z.eq_dec z 0) as [->|Hz]; [reflexivity|].
  rewrite Z.sgn_mul, (Z.sgn_pos (2 ^ k)), Z.mul_1_r by assumption.
  rewrite Z.abs_mul, (Z.abs_eq (2 ^ k)) by lia.
  rewrite round_grid_scale by lia. reflexivity.
Qed.

Lemma round_dy_opp (z e : Z) : round_dy prec emax (- z) e = - round_dy prec emax z e.
Proof. unfold round_dy. rewrite Z.sgn_opp, Z.abs_opp. lia. Qed.

Lemma round_dy_nonneg (z e : Z) : 0 <= z -> 0 <= round_dy prec emax z e.
Proof.
  intros H. unfold round_dy. destruct (Z.eq_dec z 0) as [->|]; [simpl; lia|].
  rewrite Z.sgn_pos by lia.
  assert (0 <= round_grid prec emax (Z.abs z) e) by (apply round_grid_nonneg; lia).
  lia.
Qed.

Lemma grid_finite_eq (s : bool) (m : positive) (e : Z) :
  grid prec emax (S754_finite s m e) = cond_Zopp s (Z.pos m) * 2 ^ (e - emin).
Proof. destruct s; simpl; lia. Qed.

Lemma round_dy_cond (s : bool) (m : positive) (e : Z) :
  round_dy prec emax (cond_Zopp s (Z.pos m)) e = cond_Zopp s (round_grid prec emax (Z.pos m) e).
Proof.
  destruct s; unfold round_dy, cond_Zopp.
  - change (- Z.pos m) with (Z.neg m). change (Z.sgn (Z.neg m)) with (-1).
    change (Z.abs (Z.neg m)) with (Z.pos m). lia.
  - change (Z.sgn (Z.pos m)) with 1. change (Z.abs (Z.pos m)) with (Z.pos m). lia.
Qed.

Lemma round_dy_at_emin (z e : Z) :
  emin <= e -> round_dy prec emax z e = round_dy prec emax (z * 2 ^ (e - emin)) emin.
Proof.
  intros H. rewrite <- (round_dy_scale z e (e - emin)) by lia. f_equal. lia.
Qed.

(** Rounding leaves a representable number as it is. *)
Lemma round_dy_id (x : spec_float) :
  valid_binary prec emax x = true -> is_finite x = true ->
  round_dy prec emax (grid prec emax x) emin = grid prec emax x.
Proof.
  intros Vx Fx. destruct x as [s| | |s m e]; try discriminate; [reflexivity|].
  cbn [valid_binary] in Vx. pose proof (bounded_inv m e Vx) as (_ & He & _).
  rewrite grid_finite_eq, <- round_dy_at_emin by lia.
  rewrite round_dy_cond, round_grid_id by assumption.
  destruct s; unfold cond_Zopp; lia.
Qed.

Lemma binary_normalize_spec (z e : Z) (sz : bool) :
  let r := binary_normalize prec emax z e sz in
  valid_binary prec emax r = true /\ is_nan r = false /\
  grid prec emax r = round_dy prec emax z e.
Proof.
  destruct z as [|m|m]; cbn [binary_normalize].
  - repeat split.
  - split; [apply binary_round_valid|]. split.
    + destruct (binary_round_class false m e) as [->|[->|(m' & e' & ->)]]; reflexivity.
    + rewrite binary_round_grid. change (Z.pos m) with (cond_Zopp false (Z.pos m)) at 2.
      now rewrite round_dy_cond.
  - split; [apply binary_round_valid|]. split.
    + destruct (binary_round_class true m e) as [->|[->|(m' & e' & ->)]]; reflexivity.
    + rewrite binary_round_grid. change (Z.neg m) with (cond_Zopp true (Z.pos m)).
      now rewrite round_dy_cond.
Qed.

(** *** Addition and subtraction *)

Lemma aligned_grid (s : bool) (m : positive) (e ez : Z) :
  ez <= e -> emin <= ez ->
  cond_Zopp s (Z.pos (shl_align m e ez).1) * 2 ^ (ez - emin) =
  grid prec emax (S754_finite s m e).
Proof.
  intros H1 H2. destruct (shl_align_spec m e ez) as (mz & -> & Hmz). cbn [fst].
  rewrite Z.min_r in Hmz by lia. rewrite grid_finite_eq, Hmz.
  replace (e - emin) with (e - ez + (ez - emin)) by lia.
  rewrite Z.pow_add_r by lia. destruct s; simpl; lia.
Qed.

Lemma SFadd_spec (x y : spec_float) :
  valid_binary prec emax x = true -> valid_binary prec emax y = true ->
  is_finite x = true -> is_finite y = true ->
  let r := SFadd prec emax x y in
  valid_binary prec emax r = true /\ is_nan r = false /\
  grid prec emax r = round_dy prec emax (grid prec emax x + grid prec emax y) emin.
Proof.
  intros Vx Vy Fx Fy.
  destruct x as [sx| | |sx mx ex], y as [sy| | |sy my ey]; try discriminate.
  - destruct sx, sy; repeat split.
  - cbn [SFadd]. repeat split; [assumption|].
    rewrite Z.add_0_l. symmetry. now apply round_dy_id.
  - cbn [SFadd]. repeat split; [assumption|].
    rewrite Z.add_0_r. symmetry. now apply round_dy_id.
  - cbn [SFadd valid_binary] in *.
    pose proof (bounded_inv mx ex Vx) as (_ & Hex & _).
    pose proof (bounded_inv my ey Vy) as (_ & Hey & _).
    set (ez := Z.min ex ey).
    destruct (binary_normalize_spec
                (cond_Zopp sx (Z.pos (shl_align mx ex ez).1)
                 + cond_Zopp sy (Z.pos (shl_align my ey ez).1)) ez false)
      as (V & N & G).
    split; [exact V|]. split; [exact N|]. rewrite G.
    rewrite <- (aligned_grid sx mx ex ez), <- (aligned_grid sy my ey ez) by (unfold ez; lia).
    rewrite <- Z.mul_add_distr_r.
    apply round_dy_at_emin. unfold ez; lia.
Qed.

Lemma SFsub_spec (x y : spec_float) :
  valid_binary prec emax x = true -> valid_binary prec emax y = true ->
  is_finite x = true -> is_finite y = true ->
  let r := SFsub prec emax x y in
  valid_binary prec emax r = true /\ is_nan r = false /\
  grid prec emax r = round_dy prec emax (grid prec emax x - grid prec emax y) emin.
Proof.
  intros Vx Vy Fx Fy.
  destruct x as [sx| | |sx mx ex], y as [sy| | |sy my ey]; try discriminate.
  - destruct sx, sy; repeat split.
  - cbn [SFsub]. repeat split; [assumption|].
    rewrite Z.sub_0_l, round_dy_opp.
    rewrite (round_dy_id (S754_finite sy my ey)) by assumption.
    rewrite !grid_finite_eq. destruct sy; simpl; lia.
  - cbn [SFsub]. repeat split; [assumption|].
    rewrite Z.sub_0_r. symmetry. now apply round_dy_id.
  - cbn [SFsub valid_binary] in *.
    pose proof (bounded_inv mx ex Vx) as (_ & Hex & _).
    pose proof (bounded_inv my ey Vy) as (_ & Hey & _).
    set (ez := Z.min ex ey).
    destruct (binary_normalize_spec
                (cond_Zopp sx (Z.pos (shl_align mx ex ez).1)
                 - cond_Zopp sy (Z.pos (shl_align my ey ez).1)) ez false)
      as (V & N & G).
    split; [exact V|]. split; [exact N|]. rewrite G.
    rewrite <- (aligned_grid sx mx ex ez), <- (aligned_grid sy my ey ez) by (unfold ez; lia).
    rewrite <- Z.mul_sub_distr_r.
    apply round_dy_at_emin. unfold ez; lia.
Qed.

(** *** Rounding a number given by mantissa and exponent *)

Lemma binary_round_spec (s : bool) (m : positive) (e : Z) :
  let r := binary_round prec emax s m e in
  valid_binary prec emax r = true /\ is_nan r = false /\
  grid prec emax r = round_dy prec emax (cond_Zopp s (Z.pos m)) e.
Proof.
  split; [apply binary_round_valid|]. split.
  - destruct (binary_round_class s m e) as [->|[->|(m' & e' & ->)]]; reflexivity.
  - now rewrite binary_round_grid, round_dy_cond.
Qed.

Lemma binary_round_aux_exact (s : bool) (m : positive) (e : Z) :
  e <= fexp (Zdigits2 (Z.pos m) + e) ->
  binary_round_aux prec emax s (Z.pos m) e loc_Exact = binary_round prec emax s m e.
Proof.
  intros H. unfold binary_round.
  change (Z.pos (digits2_pos m)) with (Zdigits2 (Z.pos m)).
  destruct (shl_align_spec m e (fexp (Zdigits2 (Z.pos m) + e))) as (mz & -> & Hmz).
  rewrite Z.min_l in * by lia. rewrite Z.sub_diag, Z.mul_1_r in Hmz.
  injection Hmz as ->. reflexivity.
Qed.

(** *** Multiplication *)

Lemma Zdigits2_mul_lower (a b : Z) :
  0 < a -> 0 < b -> Zdigits2 a + Zdigits2 b - 1 <= Zdigits2 (a * b).
Proof.
  intros Ha Hb.
  pose proof (Zdigits2_bounds a Ha) as [La _]. pose proof (Zdigits2_bounds b Hb) as [Lb _].
  pose proof (Zdigits2_pos a Ha). pose proof (Zdigits2_pos b Hb).
  assert (Hab : 0 < a * b) by nia.
  pose proof (Zdigits2_bounds (a * b) Hab) as [_ U].
  assert (2 ^ (Zdigits2 a - 1 + (Zdigits2 b - 1)) < 2 ^ Zdigits2 (a * b)).
  { rewrite Z.pow_add_r by lia.
    assert (0 < 2 ^ (Zdigits2 a - 1)) by (apply Z.pow_pos_nonneg; lia).
    assert (0 < 2 ^ (Zdigits2 b - 1)) by (apply Z.pow_pos_nonneg; lia). nia. }
  apply Z.pow_lt_mono_r_iff in H1; [lia|lia|].
  pose proof (Zdigits2_pos (a * b) Hab). lia.
Qed.

Lemma mul_no_shift (mx my : positive) (ex ey : Z) :
  bounded prec emax mx ex = true -> bounded prec emax my ey = true ->
  ex + ey <= fexp (Zdigits2 (Z.pos (mx * my)) + (ex + ey)).
Proof.
  intros Hx Hy.
  apply bounded_inv in Hx as (_ & Hex & Hdx & Hnx).
  apply bounded_inv in Hy as (_ & Hey & Hdy & Hny).
  pose proof (Zdigits2_mul_lower (Z.pos mx) (Z.pos my) eq_refl eq_refl) as Hd.
  pose proof (Zdigits2_pos (Z.pos mx) eq_refl). pose proof (Zdigits2_pos (Z.pos my) eq_refl).
  rewrite Pos2Z.inj_mul, fexp_eq. unfold SpecFloat.emin in *. lia.
Qed.

Lemma SFmul_spec (x y : spec_float) :
  valid_binary prec emax x = true -> valid_binary prec emax y = true ->
  is_finite x = true -> is_finite y = true ->
  let r := SFmul prec emax x y in
  valid_binary prec emax r = true /\ is_nan r = false /\
  grid prec emax r =
    match y with
    | S754_finite sy my ey =>
        round_dy prec emax (grid prec emax x * cond_Zopp sy (Z.pos my)) (emin + ey)
    | _ => 0
    end.
Proof.
  intros Vx Vy Fx Fy.
  destruct x as [sx| | |sx mx ex], y as [sy| | |sy my ey]; try discriminate;
    try (repeat split; fail).
  cbn [SFmul valid_binary] in *.
  rewrite binary_round_aux_exact by now apply mul_no_shift.
  destruct (binary_round_spec (xorb sx sy) (mx * my) (ex + ey)) as (V & N & G).
  split; [exact V|]. split; [exact N|]. rewrite G.
  pose proof (bounded_inv mx ex Vx) as (_ & Hex & _).
  rewrite grid_finite_eq.
  replace (emin + ey) with (ex + ey - (ex - emin)) by lia.
  rewrite <- (round_dy_scale _ (ex + ey) (ex - emin)) by lia.
  f_equal. rewrite Pos2Z.inj_mul. destruct sx, sy; unfold cond_Zopp; simpl xorb; lia.
Qed.

(** *** Division: the result is a valid number *)

Lemma SFdiv_core_shape (m1 m2 : positive) (e1 e2 : Z) :
  bounded prec emax m1 e1 = true -> bounded prec emax m2 e2 = true ->
  exists q e' l,
    SFdiv_core_binary prec emax (Z.pos m1) e1 (Z.pos m2) e2 = (q, e', l) /\
    0 <= q /\ e' <= fexp (Zdigits2 q + e') /\
    e' <= e1 - e2 /\ (emin <= e' \/ e' = e1 - e2) /\
    q * Z.pos m2 <= Z.pos m1 * 2 ^ (e1 - e2 - e').
Proof.
  intros H1 H2. unfold SFdiv_core_binary.
  set (d1 := Zdigits2 (Z.pos m1)). set (d2 := Zdigits2 (Z.pos m2)).
  set (e' := Z.min (fexp (d1 + e1 - (d2 + e2))) (e1 - e2)).
  set (s := e1 - e2 - e').
  set (m' := match s with Z.pos _ => Z.shiftl (Z.pos m1) s | 0 => Z.pos m1 | Z.neg _ => 0 end).
  assert (Hs : 0 <= s) by (unfold s, e'; lia).
  assert (Hm' : m' = Z.pos m1 * 2 ^ s).
  { unfold m'. clearbody s. destruct s as [|p|p]; try lia.
    now rewrite Z.shiftl_mul_pow2 by lia. }
  pose proof (Z_div_mod m' (Z.pos m2) eq_refl) as Hdiv.
  destruct (Z.div_eucl m' (Z.pos m2)) as [q r]. destruct Hdiv as [Hq Hr].
  exists q, e', (new_location (Z.pos m2) r). split; [reflexivity|].
  pose proof (Zdigits2_bounds (Z.pos m1) eq_refl) as [L1 _]. fold d1 in L1.
  pose proof (Zdigits2_bounds (Z.pos m2) eq_refl) as [_ U2]. fold d2 in U2.
  pose proof (Zdigits2_pos (Z.pos m1) eq_refl) as P1. fold d1 in P1.
  pose proof (Zdigits2_pos (Z.pos m2) eq_refl) as P2. fold d2 in P2.
  assert (Hps : 0 < 2 ^ s) by (apply Z.pow_pos_nonneg; lia).
  assert (Hq0 : 0 <= q) by nia.
  split; [assumption|].
  assert (Hrest : e' <= e1 - e2 /\ (emin <= e' \/ e' = e1 - e2) /\
                  q * Z.pos m2 <= Z.pos m1 * 2 ^ (e1 - e2 - e')).
  { fold s. rewrite <- Hm'. pose proof (fexp_ge_emin (d1 + e1 - (d2 + e2))).
    unfold e'. repeat split; lia. }
  split; [|exact Hrest].
  assert (Hlow : 2 ^ (d1 - 1 + s) <= m').
  { rewrite Hm', Z.pow_add_r by lia. nia. }
  destruct (Z.eq_dec q 0) as [->|Hqn].
  - simpl Zdigits2. rewrite fexp_eq.
    assert (m' < 2 ^ d2) by lia.
    assert (d1 - 1 + s < d2).
    { apply (Z.pow_lt_mono_r_iff 2); lia. }
    unfold s, e' in *. rewrite fexp_eq in *. lia.
  - assert (Hqp : 0 < q) by lia.
    pose proof (Zdigits2_bounds q Hqp) as [_ Uq].
    pose proof (Zdigits2_pos q Hqp) as Pq.
    assert (Hdq : d1 + s - d2 <= Zdigits2 q).
    { destruct (Z_le_gt_dec (d1 + s - d2) (Zdigits2 q)); [assumption|exfalso].
      assert (m' < 2 ^ (Zdigits2 q + d2)).
      { rewrite Z.pow_add_r by lia.
        assert (q + 1 <= 2 ^ Zdigits2 q) by lia. nia. }
      assert (2 ^ (Zdigits2 q + d2) <= 2 ^ (d1 - 1 + s)) by (apply Z.pow_le_mono_r; lia).
      lia. }
    apply Z.le_trans with (fexp (d1 + e1 - (d2 + e2))); [unfold e'; lia|].
    apply fexp_mono. unfold s in Hdq. lia.
Qed.

Lemma SFdiv_valid (x y : spec_float) :
  valid_binary prec emax x = true -> valid_binary prec emax y = true ->
  valid_binary prec emax (SFdiv prec emax x y) = true.
Proof.
  intros Vx Vy.
  destruct x as [sx|sx| |sx mx ex], y as [sy|sy| |sy my ey]; try reflexivity.
  cbn [SFdiv valid_binary] in *.
  destruct (SFdiv_core_shape mx my ex ey Vx Vy) as (q & e' & l & -> & Hq & He & _).
  destruct (bra_pack (xorb sx sy) q e' l Hq He) as (q' & -> & _ & Hq' & Hn & _).
  apply pack_valid; [assumption|apply fexp_ge_emin|assumption].
Qed.

(** *** Comparisons through values *)

Lemma SFleb_grid (x y : spec_float) :
  valid_binary prec emax x = true -> valid_binary prec emax y = true ->
  is_nan x = false -> is_nan y = false ->
  SFleb x y = true <-> grid prec emax x <= grid prec emax y.
Proof.
  intros Vx Vy Nx Ny. unfold SFleb. rewrite (SFcompare_grid x y) by assumption.
  destruct (Z.compare_spec (grid prec emax x) (grid prec emax y)); split; intros; try lia;
    try reflexivity; discriminate.
Qed.

Lemma SFltb_grid (x y : spec_float) :
  valid_binary prec emax x = true -> valid_binary prec emax y = true ->
  is_nan x = false -> is_nan y = false ->
  SFltb x y = true <-> grid prec emax x < grid prec emax y.
Proof.
  intros Vx Vy Nx Ny. unfold SFltb. rewrite (SFcompare_grid x y) by assumption.
  destruct (Z.compare_spec (grid prec emax x) (grid prec emax y)); split; intros; try lia;
    try reflexivity; discriminate.
Qed.

Lemma grid_top_bounds (x : spec_float) :
  valid_binary prec emax x = true -> - top <= grid prec emax x <= top.
Proof.
  intros V.
  assert (Ht : 0 < top) by (apply Z.pow_pos_nonneg; unfold SpecFloat.emin; lia).
  destruct x as [s|s| |s m e]; cbn [grid]; try lia.
  - destruct s; unfold cond_Zopp; lia.
  - cbn [valid_binary] in V. pose proof (bounded_grid_lt_top m e V).
    pose proof (bounded_inv m e V) as (_ & He & _).
    assert (0 < 2 ^ (e - emin)) by (apply Z.pow_pos_nonneg; lia).
    destruct s; unfold cond_Zopp; nia.
Qed.

(** A number that is not NaN and lies strictly between the infinities is
    finite. *)
Lemma finite_of_grid (x : spec_float) :
  is_nan x = false -> - top < grid prec emax x < top -> is_finite x = true.
Proof.
  intros N H. destruct x as [s|s| |s m e]; try reflexivity; try discriminate.
  cbn [grid] in H. destruct s; unfold cond_Zopp in H; lia.
Qed.

Lemma grid_lt_top_of_finite (x : spec_float) :
  valid_binary prec emax x = true -> is_finite x = true ->
  - top < grid prec emax x < top.
Proof.
  intros V F.
  assert (Ht : 0 < top) by (apply Z.pow_pos_nonneg; unfold SpecFloat.emin; lia).
  destruct x as [s|s| |s m e]; try discriminate; cbn [grid]; try lia.
  cbn [valid_binary] in V. pose proof (bounded_grid_lt_top m e V).
  pose proof (bounded_inv m e V) as (_ & He & _).
  assert (0 < 2 ^ (e - emin)) by (apply Z.pow_pos_nonneg; lia).
  destruct s; unfold cond_Zopp; nia.
Qed.

(** The sign of a finite number is the sign of its value. *)
Lemma grid_sign (s : bool) (m : positive) (e : Z) :
  bounded prec emax m e = true ->
  (s = false -> 0 < grid prec emax (S754_finite s m e)) /\
  (s = true -> grid prec emax (S754_finite s m e) < 0).
Proof.
  intros V. pose proof (bounded_inv m e V) as (_ & He & _).
  assert (0 < 2 ^ (e - emin)) by (apply Z.pow_pos_nonneg; lia).
  split; intros ->; cbn [grid cond_Zopp]; nia.
Qed.

(** *** Monotonicity of the operations *)

Lemma SFadd_mono_r (a x y : spec_float) :
  valid_binary prec emax a = true -> valid_binary prec emax x = true ->
  valid_binary prec emax y = true ->
  is_finite a = true -> is_finite x = true -> is_finite y = true ->
  grid prec emax x <= grid prec emax y ->
  grid prec emax (SFadd prec emax a x) <= grid prec emax (SFadd prec emax a y).
Proof.
  intros Va Vx Vy Fa Fx Fy H.
  destruct (SFadd_spec a x Va Vx Fa Fx) as (_ & _ & ->).
  destruct (SFadd_spec a y Va Vy Fa Fy) as (_ & _ & ->).
  apply round_dy_mono. lia.
Qed.

Lemma SFsub_mono_l (x y b : spec_float) :
  valid_binary prec emax b = true -> valid_binary prec emax x = true ->
  valid_binary prec emax y = true ->
  is_finite b = true -> is_finite x = true -> is_finite y = true ->
  grid prec emax x <= grid prec emax y ->
  grid prec emax (SFsub prec emax x b) <= grid prec emax (SFsub prec emax y b).
Proof.
  intros Vb Vx Vy Fb Fx Fy H.
  destruct (SFsub_spec x b Vx Vb Fx Fb) as (_ & _ & ->).
  destruct (SFsub_spec y b Vy Vb Fy Fb) as (_ & _ & ->).
  apply round_dy_mono. lia.
Qed.

Lemma SFsub_anti_r (a x y : spec_float) :
  valid_binary prec emax a = true -> valid_binary prec emax x = true ->
  valid_binary prec emax y = true ->
  is_finite a = true -> is_finite x = true -> is_finite y = true ->
  grid prec emax x <= grid prec emax y ->
  grid prec emax (SFsub prec emax a y) <= grid prec emax (SFsub prec emax a x).
Proof.
  intros Va Vx Vy Fa Fx Fy H.
  destruct (SFsub_spec a x Va Vx Fa Fx) as (_ & _ & ->).
  destruct (SFsub_spec a y Va Vy Fa Fy) as (_ & _ & ->).
  apply round_dy_mono. lia.
Qed.

(** Multiplication by a number that is not negative. *)
Lemma SFmul_mono_l (x y s : spec_float) :
  valid_binary prec emax s = true -> valid_binary prec emax x = true ->
  valid_binary prec emax y = true ->
  is_finite s = true -> is_finite x = true -> is_finite y = true ->
  0 <= grid prec emax s ->
  grid prec emax x <= grid prec emax y ->
  grid prec emax (SFmul prec emax x s) <= grid prec emax (SFmul prec emax y s).
Proof.
  intros Vs Vx Vy Fs Fx Fy Hs H.
  destruct (SFmul_spec x s Vx Vs Fx Fs) as (_ & _ & ->).
  destruct (SFmul_spec y s Vy Vs Fy Fs) as (_ & _ & ->).
  destruct s as [ss| | |ss ms es]; try discriminate.
  cbn [valid_binary] in Vs. destruct (grid_sign ss ms es Vs) as [_ Hneg].
  destruct ss; [specialize (Hneg eq_refl); lia|].
  apply round_dy_mono. cbn [cond_Zopp]. nia.
Qed.

Lemma SFmul_nonneg (x s : spec_float) :
  valid_binary prec emax s = true -> valid_binary prec emax x = true ->
  is_finite s = true -> is_finite x = true ->
  0 <= grid prec emax s -> 0 <= grid prec emax x ->
  0 <= grid prec emax (SFmul prec emax x s).
Proof.
  intros Vs Vx Fs Fx Hs Hx.
  destruct (SFmul_spec x s Vx Vs Fx Fs) as (_ & _ & ->).
  destruct s as [ss| | |ss ms es]; try discriminate.
  cbn [valid_binary] in Vs. destruct (grid_sign ss ms es Vs) as [_ Hneg].
  destruct ss; [specialize (Hneg eq_refl); lia|].
  apply round_dy_nonneg. cbn [cond_Zopp]. nia.
Qed.

(** *** Validity is preserved *)

Lemma SFadd_valid (x y : spec_float) :
  valid_binary prec emax x = true -> valid_binary prec emax y = true ->
  valid_binary prec emax (SFadd prec emax x y) = true.
Proof.
  intros Vx Vy.
  destruct (is_finite x) eqn:Fx, (is_finite y) eqn:Fy;
    [now apply SFadd_spec|..];
    destruct x as [[]|[]| |], y as [[]|[]| |]; try discriminate; try reflexivity; assumption.
Qed.

Lemma SFsub_valid (x y : spec_float) :
  valid_binary prec emax x = true -> valid_binary prec emax y = true ->
  valid_binary prec emax (SFsub prec emax x y) = true.
Proof.
  intros Vx Vy.
  destruct (is_finite x) eqn:Fx, (is_finite y) eqn:Fy;
    [now apply SFsub_spec|..];
    destruct x as [[]|[]| |], y as [[]|[]| |]; try discriminate; try reflexivity; assumption.
Qed.

Lemma SFmul_valid (x y : spec_float) :
  valid_binary prec emax x = true -> valid_binary prec emax y = true ->
  valid_binary prec emax (SFmul prec emax x y) = true.
Proof.
  intros Vx Vy.
  destruct (is_finite x) eqn:Fx, (is_finite y) eqn:Fy;
    [now apply SFmul_spec|..];
    destruct x as [[]|[]| |], y as [[]|[]| |]; try discriminate; reflexivity.
Qed.

(** *** Signs *)

Lemma SFdiv_nonneg (x y : spec_float) :
  valid_binary prec emax x = true -> valid_binary prec emax y = true ->
  is_finite (SFdiv prec emax x y) = true ->
  0 <= grid prec emax x -> 0 <= grid prec emax y ->
  0 <= grid prec emax (SFdiv prec emax x y).
Proof.
  intros Vx Vy F Hx Hy.
  destruct x as [sx|sx| |sx mx ex], y as [sy|sy| |sy my ey]; try discriminate;
    try (cbn [SFdiv grid]; lia).
  cbn [valid_binary] in *.
  destruct (grid_sign sx mx ex Vx) as [_ Hnx]. destruct (grid_sign sy my ey Vy) as [_ Hny].
  destruct sx; [specialize (Hnx eq_refl); lia|].
  destruct sy; [specialize (Hny eq_refl); lia|].
  cbn [SFdiv] in *.
  destruct (SFdiv_core_shape mx my ex ey Vx Vy) as (q & e' & l & -> & Hq & He & _).
  destruct (bra_pack (xorb false false) q e' l Hq He) as (q' & -> & _ & Hq' & Hn & _).
  rewrite pack_grid by (try apply fexp_ge_emin; assumption).
  cbn [xorb cond_Zopp].
  assert (0 <= 2 ^ (fexp (Zdigits2 q + e') - emin)) by (apply Z.pow_nonneg; lia).
  assert (0 <= top) by (apply Z.pow_nonneg; lia).
  apply Z.min_glb; nia.
Qed.

(** The difference of a number and a smaller one is not negative. *)
Lemma SFsub_nonneg (x y : spec_float) :
  valid_binary prec emax x = true -> valid_binary prec emax y = true ->
  SFleb y x = true ->
  is_nan (SFsub prec emax x y) = false -> 0 <= grid prec emax (SFsub prec emax x y).
Proof.
  intros Vx Vy H N.
  assert (Ht : 0 < top) by (apply Z.pow_pos_nonneg; unfold SpecFloat.emin; lia).
  destruct (is_finite x) eqn:Fx, (is_finite y) eqn:Fy.
  - destruct (SFsub_spec x y Vx Vy Fx Fy) as (_ & _ & ->).
    apply round_dy_nonneg.
    apply SFleb_grid in H; try assumption; try lia;
      destruct x, y; try discriminate; reflexivity.
  - destruct x as [sx|sx| |sx mx ex], y as [[]|[]| |sy my ey]; try discriminate;
      cbn [SFsub grid negb cond_Zopp]; try lia; destruct sx; discriminate.
  - destruct x as [sx|[]| |sx mx ex], y as [sy|sy| |sy my ey]; try discriminate;
      cbn [SFsub grid negb cond_Zopp]; try lia; destruct sy; discriminate.
  - destruct x as [sx|[]| |sx mx ex], y as [sy|[]| |sy my ey]; try discriminate;
      cbn [SFsub grid negb cond_Zopp]; lia.
Qed.

(** *** A product with a factor below one *)

Lemma round_dy_idem (z : Z) :
  Z.abs (round_dy prec emax z emin) < top ->
  round_dy prec emax (round_dy prec emax z emin) emin = round_dy prec emax z emin.
Proof.
  intros H. destruct (binary_normalize_spec z emin false) as (V & N & G).
  rewrite <- G in *. apply round_dy_id; [assumption|].
  apply finite_of_grid; [assumption|lia].
Qed.

(** A number below the midpoint of two neighbours is rounded to the lower
    one at most. *)
Lemma round_grid_down (z q n k : Z) :
  0 < z -> 2 ^ (prec - 1) <= q < 2 ^ prec -> 0 <= n -> 0 <= k -> 1 <= n + k ->
  z < (2 * q + 1) * 2 ^ (n + k - 1) ->
  round_grid prec emax z (emin - k) <= q * 2 ^ n.
Proof.
  intros Hz Hq Hn Hk Hnk Hlt.
  set (z1 := (2 * q + 1) * 2 ^ (n + k - 1) - 1).
  assert (Hp : 0 < 2 ^ (n + k - 1)) by (apply Z.pow_pos_nonneg; lia).
  assert (Hp1 : 0 < 2 ^ (prec - 1)) by (apply Z.pow_pos_nonneg; lia).
  assert (E1 : 2 ^ (n + k) = 2 * 2 ^ (n + k - 1)).
  { replace (n + k) with (n + k - 1 + 1) at 1 by lia. rewrite Z.pow_add_r by lia. lia. }
  assert (E2 : 2 ^ prec = 2 * 2 ^ (prec - 1)).
  { replace prec with (prec - 1 + 1) at 1 by lia. rewrite Z.pow_add_r by lia. lia. }
  apply Z.le_trans with (round_grid prec emax z1 (emin - k));
    [apply round_grid_mono; unfold z1; lia|].
  assert (Hd : Zdigits2 z1 = prec + (n + k)).
  { apply Zdigits2_unique; [|lia].
    replace (prec + (n + k) - 1) with (prec - 1 + (n + k)) by lia.
    rewrite (Z.pow_add_r 2 (prec - 1) (n + k)), (Z.pow_add_r 2 prec (n + k)), E1, E2 by lia.
    unfold z1. nia. }
  unfold round_grid, round_mant. rewrite Hd.
  replace (fexp (prec + (n + k) + (emin - k))) with (emin + n) by (rewrite fexp_eq; lia).
  destruct (Z.leb_spec (emin + n) (emin - k)); [lia|].
  replace (emin + n - (emin - k)) with (n + k) by lia.
  replace (emin + n - emin) with n by lia.
  assert (R : rne_shift z1 (n + k) = q).
  { unfold rne_shift.
    assert (Hdiv : z1 / 2 ^ (n + k) = q).
    { symmetry. apply (Z.div_unique _ _ _ (2 ^ (n + k - 1) - 1)); unfold z1; lia. }
    assert (Hmod : z1 mod 2 ^ (n + k) = 2 ^ (n + k - 1) - 1).
    { symmetry. apply (Z.mod_unique _ _ q); unfold z1; lia. }
    rewrite Hdiv, Hmod.
    assert ((2 * (2 ^ (n + k - 1) - 1) ?= 2 ^ (n + k)) = Lt) as ->
      by (apply Z.compare_lt_iff; lia).
    reflexivity. }
  rewrite R. apply Z.le_min_r.
Qed.

(** When rounding increases a number, the result is the upper one of two
    neighbours. *)
Lemma round_grid_up_shape (d : Z) :
  0 < d -> d < round_grid prec emax d emin ->
  exists q n,
    1 <= n /\ 2 ^ (prec - 1) <= q < 2 ^ prec /\ q * 2 ^ n < d /\
    round_grid prec emax d emin <= (q + 1) * 2 ^ n.
Proof.
  intros Hd Hup. unfold round_grid, round_mant in *.
  pose proof (Zdigits2_bounds d Hd) as [L U]. pose proof (Zdigits2_pos d Hd) as P.
  set (f := fexp (Zdigits2 d + emin)) in *.
  assert (Ef : f = Z.max (Zdigits2 d + emin - prec) emin) by (unfold f; apply fexp_eq).
  clearbody f.
  destruct (Z.leb_spec f emin).
  - exfalso. replace f with emin in Hup by lia.
    rewrite !Z.sub_diag, Z.mul_1_r in Hup. lia.
  - set (n := f - emin) in *.
    assert (En : n = Zdigits2 d - prec) by (unfold n; lia).
    clearbody n.
    assert (Hpn : 0 < 2 ^ n) by (apply Z.pow_pos_nonneg; lia).
    pose proof (rne_shift_bounds d n) as [_ Hb].
    pose proof (Z.div_mod d (2 ^ n)) as Hdm.
    pose proof (Z.mod_pos_bound d (2 ^ n) Hpn) as Hm.
    exists (d / 2 ^ n), n. split; [lia|]. split; [|split].
    + split.
      * apply Z.div_le_lower_bound; [assumption|].
        rewrite <- Z.pow_add_r by lia.
        replace (n + (prec - 1)) with (Zdigits2 d - 1) by lia. assumption.
      * apply Z.div_lt_upper_bound; [assumption|].
        rewrite <- Z.pow_add_r by lia.
        replace (n + prec) with (Zdigits2 d) by lia. assumption.
    + destruct (Z.eq_dec (d mod 2 ^ n) 0) as [E0|E0]; [exfalso|nia].
      assert (R : rne_shift d n = d / 2 ^ n).
      { unfold rne_shift. rewrite E0.
        assert ((2 * 0 ?= 2 ^ n) = Lt) as -> by (apply Z.compare_lt_iff; lia).
        reflexivity. }
      rewrite R in Hup. nia.
    + eapply Z.le_trans; [apply Z.le_min_r|].
      apply Z.mul_le_mono_nonneg_r; lia.
Qed.

(** The heart of the upper bound of a draw: a rounded width [w] times a
    factor [mr * 2^er] below one, rounded, is at most the exact width [d]. *)
Lemma round_mul_unit_le (d mr er : Z) :
  0 < d -> round_grid prec emax d emin < top ->
  0 < mr < 2 ^ prec -> er <= - prec ->
  round_dy prec emax (round_grid prec emax d emin * mr) (emin + er) <= d.
Proof.
  intros Hd Hfin Hmr Her.
  set (w := round_grid prec emax d emin) in *.
  assert (Hw0 : 0 <= w) by (apply round_grid_nonneg; assumption).
  assert (Hpk : 2 ^ prec <= 2 ^ (- er)) by (apply Z.pow_le_mono_r; lia).
  assert (Hp : 0 < 2 ^ prec) by (apply Z.pow_pos_nonneg; lia).
  assert (Hwd : w = round_dy prec emax d emin).
  { unfold round_dy. rewrite Z.sgn_pos, Z.abs_eq by lia. unfold w. lia. }
  destruct (Z_le_gt_dec w d) as [Hle|Hgt].
  - apply Z.le_trans with w; [|assumption].
    apply Z.le_trans with (round_dy prec emax (w * 2 ^ (- er)) (emin - (- er))).
    + replace (emin + er) with (emin - - er) by lia.
      apply round_dy_mono. nia.
    + rewrite round_dy_scale by lia. rewrite Hwd.
      rewrite round_dy_idem; [lia|]. rewrite <- Hwd. lia.
  - destruct (round_grid_up_shape d Hd) as (q & n & Hn & Hq & Hqd & Hwq); [fold w; lia|].
    fold w in Hwq.
    assert (Hw : 0 < w) by lia.
    unfold round_dy. rewrite Z.sgn_pos, Z.abs_eq, Z.mul_1_l by nia.
    replace (emin + er) with (emin - - er) by lia.
    apply Z.le_trans with (q * 2 ^ n); [|lia].
    apply round_grid_down; [nia|lia|lia|lia|lia|].
    assert (Hpn : 0 < 2 ^ n) by (apply Z.pow_pos_nonneg; lia).
    assert (E2 : 2 ^ prec = 2 * 2 ^ (prec - 1)).
    { replace prec with (prec - 1 + 1) at 1 by lia. rewrite Z.pow_add_r by lia. lia. }
    replace (n + - er - 1) with (n - 1 + - er) by lia.
    rewrite Z.pow_add_r by lia.
    assert (E3 : 2 ^ n = 2 * 2 ^ (n - 1)).
    { replace n with (n - 1 + 1) at 1 by lia. rewrite Z.pow_add_r by lia. lia. }
    assert (Hpn1 : 0 < 2 ^ (n - 1)) by (apply Z.pow_pos_nonneg; lia).
    apply Z.le_lt_trans with ((q + 1) * 2 ^ n * (2 ^ prec - 1)).
    { apply Z.mul_le_mono_nonneg; lia. }
    apply Z.lt_le_trans with ((2 * q + 1) * 2 ^ (n - 1) * 2 ^ prec).
    + rewrite E3.
      assert (Hcore : 2 * (q + 1) * (2 ^ prec - 1) < (2 * q + 1) * 2 ^ prec) by nia.
      replace ((q + 1) * (2 * 2 ^ (n - 1)) * (2 ^ prec - 1))
        with (2 * (q + 1) * (2 ^ prec - 1) * 2 ^ (n - 1)) by ring.
      replace ((2 * q + 1) * 2 ^ (n - 1) * 2 ^ prec)
        with ((2 * q + 1) * 2 ^ prec * 2 ^ (n - 1)) by ring.
      apply Z.mul_lt_mono_pos_r; assumption.
    + rewrite <- Z.mul_assoc. apply Z.mul_le_mono_nonneg_l; [lia|].
      apply Z.mul_le_mono_nonneg_l; lia.
Qed.

(** A representable width times a factor below one, rounded, is at most
    the width. *)
Lemma round_mul_unit_le_width (w : spec_float) (mr er : Z) :
  valid_binary prec emax w = true -> is_finite w = true ->
  0 <= grid prec emax w -> 0 < mr < 2 ^ prec -> er <= - prec ->
  0 <= round_dy prec emax (grid prec emax w * mr) (emin + er) <= grid prec emax w.
Proof.
  intros V F H0 Hmr Her. split; [apply round_dy_nonneg; try assumption; nia|].
  assert (Hpk : 2 ^ prec <= 2 ^ (- er)) by (apply Z.pow_le_mono_r; lia).
  apply Z.le_trans
    with (round_dy prec emax (grid prec emax w * 2 ^ (- er)) (emin - (- er))).
  - replace (emin + er) with (emin - - er) by lia.
    apply round_dy_mono; try assumption. nia.
  - rewrite round_dy_scale by (try assumption; lia).
    rewrite round_dy_id by assumption. lia.
Qed.

End Rounding.

(** ** The error of a rounding

    A rounding to a normal number increases its argument by the factor
    [1 + 2^(1-prec)] at most. *)

Section RoundingError.
Variables prec emax : Z.
Hypothesis Hprec : 1 < prec.
Hypothesis Hemax : prec < emax.

Local Set Default Proof Using "Hprec Hemax".

Local Abbreviation emin := (SpecFloat.emin prec emax).
Local Abbreviation fexp := (SpecFloat.fexp prec emax).
Local Abbreviation K := (2 ^ (prec - 1)).

Lemma rne_shift_rel (z n : Z) :
  0 <= n -> K <= z / 2 ^ n -> rne_shift z n * 2 ^ n * K <= z * (K + 1).
Proof.
  intros Hn Hq. pose proof (rne_shift_bounds z n) as [_ Hb].
  assert (Hpn : 0 < 2 ^ n) by (apply Z.pow_pos_nonneg; lia).
  assert (HK : 0 < K) by (apply Z.pow_pos_nonneg; lia).
  pose proof (Z.div_mod z (2 ^ n)) as Hdm.
  pose proof (Z.mod_pos_bound z (2 ^ n) Hpn) as Hm.
  set (q := z / 2 ^ n) in *.
  apply Z.le_trans with ((q + 1) * 2 ^ n * K).
  - apply Z.mul_le_mono_nonneg_r; [lia|]. apply Z.mul_le_mono_nonneg_r; lia.
  - apply Z.le_trans with (q * 2 ^ n * (K + 1)); [|apply Z.mul_le_mono_nonneg_r; lia].
    replace ((q + 1) * 2 ^ n * K) with (q * 2 ^ n * K + 2 ^ n * K) by ring.
    replace (q * 2 ^ n * (K + 1)) with (q * 2 ^ n * K + 2 ^ n * q) by ring.
    apply Z.add_le_mono_l. apply Z.mul_le_mono_nonneg_l; lia.
Qed.

(** A number given on the grid, [z * 2^emin]. *)
Lemma round_grid_rel (z : Z) :
  0 < z -> round_grid prec emax z emin * K <= z * (K + 1).
Proof.
  intros Hz. assert (HK : 0 < K) by (apply Z.pow_pos_nonneg; lia).
  unfold round_grid.
  eapply Z.le_trans; [apply Z.mul_le_mono_nonneg_r; [lia|apply Z.le_min_r]|].
  unfold round_mant.
  pose proof (fexp_ge_emin prec emax Hprec Hemax (Zdigits2 z + emin)) as Hf.
  pose proof (fexp_eq prec emax Hprec Hemax (Zdigits2 z + emin)) as Ef.
  set (f := fexp (Zdigits2 z + emin)) in *. clearbody f.
  pose proof (Zdigits2_bounds z Hz) as [L U].
  destruct (Z.leb_spec f emin).
  - replace f with emin by lia. rewrite Z.sub_diag. change (2 ^ 0) with 1. nia.
  - assert (En : f - emin = Zdigits2 z - prec) by lia.
    apply rne_shift_rel; [lia|].
    apply Z.div_le_lower_bound; [apply Z.pow_pos_nonneg; lia|].
    rewrite <- Z.pow_add_r by lia.
    replace (f - emin + (prec - 1)) with (Zdigits2 z - 1) by lia. assumption.
Qed.

(** A number below the grid, [z * 2^(emin - k)]: the result is subnormal,
    or in the relative bound. *)
Lemma round_grid_rel_below (z k : Z) :
  0 < z -> 0 <= k ->
  round_grid prec emax z (emin - k) <= 2 ^ prec \/
  round_grid prec emax z (emin - k) * 2 ^ k * K <= z * (K + 1).
Proof.
  intros Hz Hk. assert (HK : 0 < K) by (apply Z.pow_pos_nonneg; lia).
  assert (Hpk : 0 < 2 ^ k) by (apply Z.pow_pos_nonneg; lia).
  destruct (round_mant_bounds prec emax Hprec Hemax z (emin - k) Hz) as [Hq Hn].
  unfold round_grid.
  pose proof (fexp_ge_emin prec emax Hprec Hemax (Zdigits2 z + (emin - k))) as Hf.
  pose proof (fexp_eq prec emax Hprec Hemax (Zdigits2 z + (emin - k))) as Ef.
  pose proof (Zdigits2_bounds z Hz) as [L U].
  destruct (Z.eq_dec (fexp (Zdigits2 z + (emin - k))) emin) as [E|E].
  - left. rewrite E, Z.sub_diag. change (2 ^ 0) with 1. rewrite Z.mul_1_r.
    eapply Z.le_trans; [apply Z.le_min_r|]. lia.
  - right. unfold round_mant.
    set (f := fexp (Zdigits2 z + (emin - k))) in *. clearbody f.
    destruct (Z.leb_spec f (emin - k)); [lia|].
    eapply Z.le_trans;
      [apply Z.mul_le_mono_nonneg_r; [lia|];
       apply Z.mul_le_mono_nonneg_r; [lia|apply Z.le_min_r]|].
    assert (En : f - (emin - k) = Zdigits2 z - prec) by lia.
    replace (rne_shift z (f - (emin - k)) * 2 ^ (f - emin) * 2 ^ k)
      with (rne_shift z (f - (emin - k)) * 2 ^ (f - (emin - k))).
    2:{ rewrite <- Z.mul_assoc, <- Z.pow_add_r by lia. do 2 f_equal. lia. }
    apply rne_shift_rel; [lia|].
    apply Z.div_le_lower_bound; [apply Z.pow_pos_nonneg; lia|].
    rewrite <- Z.pow_add_r by lia.
    replace (f - (emin - k) + (prec - 1)) with (Zdigits2 z - 1) by lia. assumption.
Qed.

Lemma SFadd_upper (x y : spec_float) :
  valid_binary prec emax x = true -> valid_binary prec emax y = true ->
  is_finite x = true -> is_finite y = true ->
  0 <= grid prec emax x + grid prec emax y ->
  grid prec emax (SFadd prec emax x y) * K <= (grid prec emax x + grid prec emax y) * (K + 1).
Proof.
  intros Vx Vy Fx Fy H.
  destruct (SFadd_spec prec emax Hprec Hemax x y Vx Vy Fx Fy) as (_ & _ & ->).
  set (z := grid prec emax x + grid prec emax y) in *. clearbody z.
  destruct (Z.eq_dec z 0) as [->|Hz]; [reflexivity|].
  unfold round_dy. rewrite Z.sgn_pos, Z.abs_eq, Z.mul_1_l by lia.
  apply round_grid_rel. lia.
Qed.

Lemma SFsub_upper (x y : spec_float) :
  valid_binary prec emax x = true -> valid_binary prec emax y = true ->
  is_finite x = true -> is_finite y = true ->
  0 <= grid prec emax x - grid prec emax y ->
  grid prec emax (SFsub prec emax x y) * K <= (grid prec emax x - grid prec emax y) * (K + 1).
Proof.
  intros Vx Vy Fx Fy H.
  destruct (SFsub_spec prec emax Hprec Hemax x y Vx Vy Fx Fy) as (_ & _ & ->).
  set (z := grid prec emax x - grid prec emax y) in *. clearbody z.
  destruct (Z.eq_dec z 0) as [->|Hz]; [reflexivity|].
  unfold round_dy. rewrite Z.sgn_pos, Z.abs_eq, Z.mul_1_l by lia.
  apply round_grid_rel. lia.
Qed.

Lemma SFmul_upper (x y : spec_float) :
  valid_binary prec emax x = true -> valid_binary prec emax y = true ->
  is_finite x = true -> is_finite y = true ->
  0 <= grid prec emax x -> 0 <= grid prec emax y ->
  grid prec emax (SFmul prec emax x y) <= 2 ^ prec \/
  grid prec emax (SFmul prec emax x y) * 2 ^ (- emin) * K <=
  grid prec emax x * grid prec emax y * (K + 1).
Proof.
  intros Vx Vy Fx Fy Hx Hy.
  assert (Hp : 0 < 2 ^ prec) by (apply Z.pow_pos_nonneg; lia).
  assert (HK : 0 < K) by (apply Z.pow_pos_nonneg; lia).
  destruct (SFmul_spec prec emax Hprec Hemax x y Vx Vy Fx Fy) as (_ & _ & ->).
  destruct y as [sy| | |sy my ey]; try discriminate; [left; lia|].
  cbn [valid_binary] in Vy. destruct (grid_sign prec emax Hprec Hemax sy my ey Vy) as [_ Hneg].
  destruct sy; [specialize (Hneg eq_refl); lia|]. cbn [cond_Zopp].
  pose proof (bounded_inv prec emax Hprec Hemax my ey Vy) as (_ & Hey & _).
  destruct (Z.eq_dec (grid prec emax x) 0) as [E0|E0].
  { rewrite E0, Z.mul_0_l. left. change (round_dy prec emax 0 (emin + ey)) with 0. lia. }
  set (gx := grid prec emax x) in *. clearbody gx.
  assert (Hz : 0 < gx * Z.pos my) by nia.
  unfold round_dy. rewrite Z.sgn_pos, Z.abs_eq, Z.mul_1_l by lia.
  rewrite grid_finite_eq by assumption. cbn [cond_Zopp].
  destruct (Z_le_gt_dec 0 ey) as [Hpos|Hneg'].
  - right.
    replace (emin + ey) with (emin + ey - 0) by lia.
    assert (Es : round_grid prec emax (gx * Z.pos my) (emin + ey) =
                 round_grid prec emax (gx * Z.pos my * 2 ^ ey) emin).
    { rewrite <- (round_grid_scale prec emax Hprec Hemax (gx * Z.pos my) (emin + ey) ey) by lia.
      f_equal. lia. }
    replace (emin + ey - 0) with (emin + ey) by lia. rewrite Es.
    assert (Hpe : 0 < 2 ^ ey) by (apply Z.pow_pos_nonneg; lia).
    pose proof (round_grid_rel (gx * Z.pos my * 2 ^ ey) ltac:(nia)) as R.
    assert (Hpt : 0 < 2 ^ (- emin)) by (apply Z.pow_pos_nonneg; unfold SpecFloat.emin; lia).
    replace (ey - emin) with (ey + - emin) by lia. rewrite Z.pow_add_r by (unfold SpecFloat.emin; lia).
    set (G := round_grid prec emax (gx * Z.pos my * 2 ^ ey) emin) in *. clearbody G.
    replace (G * 2 ^ (- emin) * K) with (G * K * 2 ^ (- emin)) by ring.
    replace (gx * (Z.pos my * (2 ^ ey * 2 ^ (- emin))) * (K + 1))
      with (gx * Z.pos my * 2 ^ ey * (K + 1) * 2 ^ (- emin)) by ring.
    apply Z.mul_le_mono_nonneg_r; lia.
  - replace (emin + ey) with (emin - - ey) by lia.
    destruct (round_grid_rel_below (gx * Z.pos my) (- ey)) as [R|R]; try lia.
    right.
    set (G := round_grid prec emax (gx * Z.pos my) (emin - - ey)) in *. clearbody G.
    assert (Hpe : 0 < 2 ^ (ey - emin)) by (apply Z.pow_pos_nonneg; lia).
    replace (- emin) with (- ey + (ey - emin)) by lia.
    rewrite Z.pow_add_r by lia.
    replace (G * (2 ^ (- ey) * 2 ^ (ey - emin)) * K)
      with (G * 2 ^ (- ey) * K * 2 ^ (ey - emin)) by ring.
    replace (gx * (Z.pos my * 2 ^ (ey - emin)) * (K + 1))
      with (gx * Z.pos my * (K + 1) * 2 ^ (ey - emin)) by ring.
    apply Z.mul_le_mono_nonneg_r; lia.
Qed.

(** The mantissa before the rounding of a normal result has all its
    digits. *)
Lemma bra_floor_lower (M E : Z) :
  0 < M -> E <= fexp (Zdigits2 M + E) -> emin < fexp (Zdigits2 M + E) ->
  K <= M / 2 ^ (fexp (Zdigits2 M + E) - E).
Proof.
  intros HM Hn Hf. pose proof (Zdigits2_bounds M HM) as [Hd _].
  pose proof (fexp_eq prec emax Hprec Hemax (Zdigits2 M + E)) as Ef.
  set (f := fexp (Zdigits2 M + E)) in *. clearbody f.
  assert (En : f - E = Zdigits2 M - prec) by lia.
  apply Z.div_le_lower_bound; [apply Z.pow_pos_nonneg; lia|].
  rewrite <- Z.pow_add_r by lia.
  replace (f - E + (prec - 1)) with (Zdigits2 M - 1) by lia. assumption.
Qed.

Lemma SFdiv_upper (x y : spec_float) :
  valid_binary prec emax x = true -> valid_binary prec emax y = true ->
  is_finite x = true -> is_finite y = true ->
  0 < grid prec emax x -> 0 < grid prec emax y ->
  (grid prec emax (SFdiv prec emax x y) <= K /\
   (grid prec emax (SFdiv prec emax x y) - 1) * grid prec emax y <=
   grid prec emax x * 2 ^ (- emin)) \/
  grid prec emax (SFdiv prec emax x y) * grid prec emax y * K <=
  grid prec emax x * 2 ^ (- emin) * (K + 1).
Proof.
  intros Vx Vy Fx Fy Hx Hy.
  assert (Hp : 0 < 2 ^ prec) by (apply Z.pow_pos_nonneg; lia).
  assert (HK : 0 < K) by (apply Z.pow_pos_nonneg; lia).
  assert (Hemin : emin <= 0) by (unfold SpecFloat.emin; lia).
  destruct x as [sx| | |sx mx ex]; try discriminate.
  destruct y as [sy| | |sy my ey]; try discriminate.
  cbn [valid_binary] in *.
  destruct (grid_sign prec emax Hprec Hemax sx mx ex Vx) as [_ Hnx].
  destruct (grid_sign prec emax Hprec Hemax sy my ey Vy) as [_ Hny].
  destruct sx; [specialize (Hnx eq_refl); lia|].
  destruct sy; [specialize (Hny eq_refl); lia|].
  pose proof (bounded_inv prec emax Hprec Hemax mx ex Vx) as (_ & Hex & _).
  pose proof (bounded_inv prec emax Hprec Hemax my ey Vy) as (_ & Hey & _).
  rewrite !grid_finite_eq by assumption. cbn [cond_Zopp SFdiv xorb].
  destruct (SFdiv_core_shape prec emax Hprec Hemax mx my ex ey Vx Vy)
    as (q & e' & l & -> & Hq & He & He1 & He2 & Hqm).
  destruct (bra_pack prec emax Hprec Hemax false q e' l Hq He)
    as (q' & -> & Hfl & Hq' & Hn & _).
  rewrite pack_grid by (try apply fexp_ge_emin; assumption). cbn [cond_Zopp].
  pose proof (fexp_ge_emin prec emax Hprec Hemax (Zdigits2 q + e')) as Hf.
  pose proof (fexp_eq prec emax Hprec Hemax (Zdigits2 q + e')) as Ef.
  assert (Hfloor : emin < fexp (Zdigits2 q + e') -> K <= q / 2 ^ (fexp (Zdigits2 q + e') - e')).
  { intros Hlt. apply bra_floor_lower; try assumption.
    destruct (Z.eq_dec q 0) as [->|]; [|lia]. exfalso.
    change (Zdigits2 0) with 0 in *. lia. }
  set (f := fexp (Zdigits2 q + e')) in *. clearbody f.
  set (n := f - e') in *.
  assert (Hn0 : 0 <= n) by (unfold n; lia).
  assert (Hpn : 0 < 2 ^ n) by (apply Z.pow_pos_nonneg; lia).
  pose proof (Z.div_mod q (2 ^ n) ltac:(lia)) as Hdm.
  pose proof (Z.mod_pos_bound q (2 ^ n) Hpn) as Hmod.
  set (fl := q / 2 ^ n) in *.
  set (A := e' + ey - 2 * emin).
  assert (HA : 0 <= A) by (unfold A; lia).
  set (s := ex - ey - e') in *.
  assert (Hs : 0 <= s) by (unfold s; lia).
  assert (HpA : 0 < 2 ^ A) by (apply Z.pow_pos_nonneg; lia).
  assert (Hps : 0 < 2 ^ s) by (apply Z.pow_pos_nonneg; lia).
  assert (E1 : 2 ^ (f - emin) * 2 ^ (ey - emin) = 2 ^ n * 2 ^ A).
  { rewrite <- !Z.pow_add_r by lia. f_equal. unfold n, A. lia. }
  assert (E2 : 2 ^ (ex - emin) * 2 ^ (- emin) = 2 ^ s * 2 ^ A).
  { rewrite <- !Z.pow_add_r by lia. f_equal. unfold s, A. lia. }
  assert (Hfl2 : fl * 2 ^ n <= q) by lia.
  assert (Hfl0 : 0 <= fl) by (apply Z.div_pos; lia).
  (* the quotient rounded down is below the exact quotient *)
  assert (Hdown : fl * 2 ^ n * Z.pos my * 2 ^ A <= Z.pos mx * 2 ^ s * 2 ^ A).
  { apply Z.mul_le_mono_nonneg_r; [lia|].
    apply Z.le_trans with (q * Z.pos my); [|exact Hqm].
    apply Z.mul_le_mono_nonneg_r; lia. }
  destruct (Z_le_gt_dec K fl) as [HKfl|HKfl].
  - right.
    assert (Hqk : q' * K <= fl * (K + 1)) by nia.
    eapply Z.le_trans;
      [apply Z.mul_le_mono_nonneg_r; [lia|];
       apply Z.mul_le_mono_nonneg_r; [nia|apply Z.le_min_r]|].
    replace (q' * 2 ^ (f - emin) * (Z.pos my * 2 ^ (ey - emin)) * K)
      with (q' * K * Z.pos my * (2 ^ (f - emin) * 2 ^ (ey - emin))) by ring.
    replace (Z.pos mx * 2 ^ (ex - emin) * 2 ^ (- emin) * (K + 1))
      with (Z.pos mx * (K + 1) * (2 ^ (ex - emin) * 2 ^ (- emin))) by ring.
    rewrite E1, E2.
    apply Z.le_trans with (fl * (K + 1) * Z.pos my * (2 ^ n * 2 ^ A)).
    { apply Z.mul_le_mono_nonneg_r; [nia|]. apply Z.mul_le_mono_nonneg_r; lia. }
    replace (fl * (K + 1) * Z.pos my * (2 ^ n * 2 ^ A))
      with (fl * 2 ^ n * Z.pos my * 2 ^ A * (K + 1)) by ring.
    replace (Z.pos mx * (K + 1) * (2 ^ s * 2 ^ A))
      with (Z.pos mx * 2 ^ s * 2 ^ A * (K + 1)) by ring.
    apply Z.mul_le_mono_nonneg_r; lia.
  - left. assert (E : f = emin) by (destruct (Z.eq_dec f emin); [assumption|lia]).
    assert (Hpy : 0 < 2 ^ (ey - emin)) by (apply Z.pow_pos_nonneg; lia).
    split.
    + rewrite E, Z.sub_diag. change (2 ^ 0) with 1. rewrite Z.mul_1_r.
      eapply Z.le_trans; [apply Z.le_min_r|]. lia.
    + apply Z.le_trans with (fl * 2 ^ (f - emin) * (Z.pos my * 2 ^ (ey - emin))).
      { apply Z.mul_le_mono_nonneg_r; [nia|].
        rewrite E, Z.sub_diag. change (2 ^ 0) with 1. rewrite Z.mul_1_r.
        pose proof (Z.le_min_r (2 ^ (emax - emin)) (q' * 1)). lia. }
      replace (fl * 2 ^ (f - emin) * (Z.pos my * 2 ^ (ey - emin)))
        with (fl * Z.pos my * (2 ^ (f - emin) * 2 ^ (ey - emin))) by ring.
      replace (Z.pos mx * 2 ^ (ex - emin) * 2 ^ (- emin))
        with (Z.pos mx * (2 ^ (ex - emin) * 2 ^ (- emin))) by ring.
      rewrite E1, E2. lia.
Qed.

End RoundingError.

(** ** The two formats of the program *)

Lemma F64_format : 1 < F64.prec /\ F64.prec < F64.emax.
Proof. unfold F64.prec, F64.emax. lia. Qed.

Lemma F32_format : 1 < F32.prec /\ F32.prec < F32.emax.
Proof. unfold F32.prec, F32.emax. lia. Qed.

Lemma SFltb_SFleb (x y : spec_float) : SFltb x y = true -> SFleb x y = true.
Proof. unfold SFltb, SFleb. destruct (SFcompare x y) as [[]|]; congruence. Qed.

(** The conversion to float32 rounds the value. *)
Lemma of_f64_spec (x : float64) :
  F64.valid x = true -> is_finite x = true ->
  F32.valid (F32.of_f64 x) = true /\ is_nan (F32.of_f64 x) = false /\
  grid F32.prec F32.emax (F32.of_f64 x) =
  round_dy F32.prec F32.emax (grid F64.prec F64.emax x) (emin F64.prec F64.emax).
Proof.
  destruct F32_format as [P32 E32]. destruct F64_format as [P64 E64].
  intros V F. destruct x as [s| | |s m e]; try discriminate; [repeat split|].
  cbn [F32.of_f64].
  destruct (binary_round_spec F32.prec F32.emax P32 E32 s m e) as (V' & N' & G').
  split; [exact V'|]. split; [exact N'|]. rewrite G'.
  pose proof (bounded_inv F64.prec F64.emax P64 E64 m e V) as (_ & He & _).
  rewrite grid_finite_eq by assumption.
  rewrite <- (round_dy_scale F32.prec F32.emax P32 E32 _ e (e - emin F64.prec F64.emax)) by lia.
  f_equal. lia.
Qed.

Lemma of_f64_valid (x : float64) : F64.valid x = true -> F32.valid (F32.of_f64 x) = true.
Proof.
  intros V. destruct x as [s|s| |s m e]; try reflexivity.
  destruct F32_format as [P32 E32]. now apply binary_round_valid.
Qed.

Lemma of_f64_finite_inv (x : float64) :
  is_finite (F32.of_f64 x) = true -> is_finite x = true.
Proof. now destruct x. Qed.

Lemma of_f64_nan (x : float64) : is_nan (F32.of_f64 x) = false -> is_nan x = false.
Proof. now destruct x. Qed.

Lemma of_f64_mono (x y : float64) :
  F64.valid x = true -> F64.valid y = true -> is_finite x = true -> is_finite y = true ->
  grid F64.prec F64.emax x <= grid F64.prec F64.emax y ->
  grid F32.prec F32.emax (F32.of_f64 x) <= grid F32.prec F32.emax (F32.of_f64 y).
Proof.
  intros Vx Vy Fx Fy H. destruct F32_format as [P32 E32].
  destruct (of_f64_spec x Vx Fx) as (_ & _ & ->).
  destruct (of_f64_spec y Vy Fy) as (_ & _ & ->).
  now apply round_dy_mono.
Qed.

Lemma of_f64_nonneg (x : float64) :
  F64.valid x = true -> is_nan x = false -> 0 <= grid F64.prec F64.emax x ->
  0 <= grid F32.prec F32.emax (F32.of_f64 x).
Proof.
  intros V N H. destruct F32_format as [P32 E32].
  destruct (is_finite x) eqn:F.
  - destruct (of_f64_spec x V F) as (_ & _ & ->). now apply round_dy_nonneg.
  - destruct x as [s|[]| |s m e]; try discriminate.
    cbn [grid cond_Zopp] in H.
    assert (0 < 2 ^ (F64.emax - emin F64.prec F64.emax))
      by (apply Z.pow_pos_nonneg; unfold emin, F64.emax, F64.prec; lia).
    lia.
Qed.

(** ** The affine map of the canvas

    Both coordinates are [padding + float32(d) * scale - half] for a float64
    difference [d]; the map is monotone in [d] when the scale is not
    negative. *)

Lemma padding_ok : F32.valid padding = true /\ is_finite padding = true.
Proof. split; reflexivity. Qed.

Lemma place_parts (d : float64) (s half : float32) :
  is_finite (F32.sub (F32.add padding (F32.mul (F32.of_f64 d) s)) half) = true ->
  is_finite d = true /\ is_finite s = true /\ is_finite half = true /\
  is_finite (F32.mul (F32.of_f64 d) s) = true /\
  is_finite (F32.add padding (F32.mul (F32.of_f64 d) s)) = true.
Proof.
  intros H. apply SFsub_finite_inv in H as [HA Hh].
  pose proof HA as HA'. apply SFadd_finite_inv in HA as [_ HB].
  pose proof HB as HB'. apply SFmul_finite_inv in HB as [HD Hs].
  apply of_f64_finite_inv in HD. repeat split; assumption.
Qed.

Lemma place_mono (d1 d2 : float64) (s half : float32) :
  F64.valid d1 = true -> F64.valid d2 = true ->
  F32.valid s = true -> F32.valid half = true ->
  0 <= grid F32.prec F32.emax s ->
  grid F64.prec F64.emax d1 <= grid F64.prec F64.emax d2 ->
  is_finite (F32.sub (F32.add padding (F32.mul (F32.of_f64 d1) s)) half) = true ->
  is_finite (F32.sub (F32.add padding (F32.mul (F32.of_f64 d2) s)) half) = true ->
  fle (F32.sub (F32.add padding (F32.mul (F32.of_f64 d1) s)) half)
      (F32.sub (F32.add padding (F32.mul (F32.of_f64 d2) s)) half).
Proof.
  intros V1 V2 Vs Vh Hs Hd F1 F2.
  destruct F32_format as [P32 E32]. destruct padding_ok as [Vp Fp].
  destruct (place_parts d1 s half F1) as (Fd1 & Fs & Fh & FB1 & FA1).
  destruct (place_parts d2 s half F2) as (Fd2 & _ & _ & FB2 & FA2).
  pose proof (of_f64_valid d1 V1) as VD1. pose proof (of_f64_valid d2 V2) as VD2.
  pose proof (of_f64_mono d1 d2 V1 V2 Fd1 Fd2 Hd) as HD.
  assert (FD2 : is_finite (F32.of_f64 d2) = true).
  { apply SFmul_finite_inv in FB2. tauto. }
  assert (FD1' : is_finite (F32.of_f64 d1) = true).
  { apply SFmul_finite_inv in FB1. tauto. }
  pose proof (SFmul_mono_l F32.prec F32.emax P32 E32 _ _ s Vs VD1 VD2 Fs FD1' FD2 Hs HD) as HB.
  pose proof (SFmul_valid F32.prec F32.emax P32 E32 _ _ VD1 Vs) as VB1.
  pose proof (SFmul_valid F32.prec F32.emax P32 E32 _ _ VD2 Vs) as VB2.
  pose proof (SFadd_mono_r F32.prec F32.emax P32 E32 padding _ _ Vp VB1 VB2 Fp FB1 FB2 HB) as HA.
  pose proof (SFadd_valid F32.prec F32.emax P32 E32 _ _ Vp VB1) as VA1.
  pose proof (SFadd_valid F32.prec F32.emax P32 E32 _ _ Vp VB2) as VA2.
  pose proof (SFsub_mono_l F32.prec F32.emax P32 E32 _ _ half Vh VA1 VA2 Fh FA1 FA2 HA) as HP.
  unfold fle.
  apply (SFleb_grid F32.prec F32.emax P32 E32); try exact HP.
  - now apply SFsub_valid.
  - now apply SFsub_valid.
  - now apply finite_not_nan.
  - now apply finite_not_nan.
Qed.

Lemma wf_config_inv (cfg : GUIConfig) :
  wf_config cfg = true ->
  F64.valid (MinX cfg) = true /\ F64.valid (MaxX cfg) = true /\
  F64.valid (MinY cfg) = true /\ F64.valid (MaxY cfg) = true /\
  F32.valid (CanvasWidth cfg) = true /\ F32.valid (CanvasHeight cfg) = true /\
  F32.valid (PointSize cfg) = true.
Proof.
  unfold wf_config, wf_domain. intros H.
  repeat (apply andb_prop in H as [H ?]). repeat split; assumption.
Qed.

(** The scale of an axis is a valid number and, when finite, not negative. *)
Lemma scale_ok (extent : float32) (lo hi : float64) :
  F32.valid extent = true -> F64.valid lo = true -> F64.valid hi = true ->
  F64.leb lo hi = true ->
  F32.ltb (F32.mul (F32.of_Z 2) padding) extent = true ->
  let s := F32.div (F32.sub extent (F32.mul (F32.of_Z 2) padding))
                   (F32.of_f64 (F64.sub hi lo)) in
  F32.valid s = true /\ (is_finite s = true -> 0 <= grid F32.prec F32.emax s).
Proof.
  intros Ve Vlo Vhi Hd Hs s.
  destruct F32_format as [P32 E32]. destruct F64_format as [P64 E64].
  assert (V40 : F32.valid (F32.mul (F32.of_Z 2) padding) = true) by reflexivity.
  pose proof (SFsub_valid F32.prec F32.emax P32 E32 _ _ Ve V40) as Vc.
  pose proof (SFsub_valid F64.prec F64.emax P64 E64 _ _ Vhi Vlo) as Vw.
  pose proof (of_f64_valid _ Vw) as VD.
  pose proof (SFdiv_valid F32.prec F32.emax P32 E32 _ _ Vc VD) as Vs.
  split; [exact Vs|]. intros Fs.
  destruct (SFdiv_finite_inv F32.prec F32.emax _ _ Fs) as (Fc & _ & ND).
  apply (SFdiv_nonneg F32.prec F32.emax P32 E32); try assumption.
  - apply (SFsub_nonneg F32.prec F32.emax P32 E32); try assumption.
    + now apply SFltb_SFleb.
    + now apply finite_not_nan.
  - apply of_f64_nonneg; [assumption|now apply of_f64_nan|].
    apply (SFsub_nonneg F64.prec F64.emax P64 E64); try assumption.
    now apply of_f64_nan.
Qed.

(** ** A draw lies between its bounds *)

(** The numbers of the unit interval: zero, or a positive mantissa with an
    exponent of at most [-53]. *)
Lemma in_unit_inv (r : float64) :
  in_unit r = true ->
  is_zero r = true \/
  exists mr er, r = S754_finite false mr er /\ Z.pos mr < 2 ^ F64.prec /\ er <= - F64.prec.
Proof.
  destruct F64_format as [P64 E64].
  unfold in_unit. intros H.
  apply andb_prop in H as [H H1]. apply andb_prop in H as [V H0].
  destruct r as [s|[]| |s m e]; try discriminate; [now left|right].
  destruct s; [discriminate|]. exists m, e. split; [reflexivity|].
  cbn [F64.valid valid_binary] in V.
  pose proof (bounded_lt_pow F64.prec F64.emax P64 E64 m e V) as Hm.
  split; [exact Hm|].
  pose proof (bounded_inv F64.prec F64.emax P64 E64 m e V) as (_ & He & Hd & Hn).
  apply (SFltb_grid F64.prec F64.emax P64 E64) in H1; try reflexivity; try assumption.
  change (grid F64.prec F64.emax (F64.of_Z 1)) with (2 ^ 1074) in H1.
  cbn [grid cond_Zopp] in H1.
  destruct (Z_le_gt_dec e (- F64.prec)) as [|Hgt]; [assumption|exfalso].
  pose proof (Zdigits2_bounds (Z.pos m) eq_refl) as [L _].
  rewrite Hn in L by (unfold emin, F64.prec, F64.emax in *; lia).
  assert (2 ^ 1074 <= 2 ^ (F64.prec - 1) * 2 ^ (e - emin F64.prec F64.emax)).
  { rewrite <- Z.pow_add_r by (unfold emin, F64.prec, F64.emax in *; lia).
    apply Z.pow_le_mono_r; unfold emin, F64.prec, F64.emax in *; lia. }
  assert (0 < 2 ^ (e - emin F64.prec F64.emax))
    by (apply Z.pow_pos_nonneg; unfold emin, F64.prec, F64.emax in *; lia).
  nia.
Qed.

Lemma draw_in_closed (lo hi r : float64) :
  F64.valid lo = true -> F64.valid hi = true ->
  is_finite lo = true -> is_finite hi = true ->
  F64.leb lo hi = true -> in_unit r = true ->
  is_finite (F64.sub hi lo) = true ->
  in_closed lo hi (F64.add lo (F64.mul r (F64.sub hi lo))) = true.
Proof.
  intros Vlo Vhi Flo Fhi Hle Hr Fw.
  destruct F64_format as [P64 E64].
  set (w := F64.sub hi lo) in *.
  destruct (SFsub_spec F64.prec F64.emax P64 E64 hi lo Vhi Vlo Fhi Flo) as (Vw & Nw & Gw).
  fold (F64.sub hi lo) in Vw, Nw, Gw. fold w in Vw, Nw, Gw.
  apply (SFleb_grid F64.prec F64.emax P64 E64) in Hle;
    try assumption; try (now apply finite_not_nan).
  set (L := grid F64.prec F64.emax lo) in *. set (H := grid F64.prec F64.emax hi) in *.
  assert (Hw0 : 0 <= grid F64.prec F64.emax w)
    by (rewrite Gw; apply round_dy_nonneg; try assumption; lia).
  assert (Vr : F64.valid r = true).
  { unfold in_unit in Hr. apply andb_prop in Hr as [Hr _]. now apply andb_prop in Hr as [Hr _]. }
  assert (Fr : is_finite r = true) by now apply in_unit_finite.
  (* the product *)
  set (t := F64.mul r w).
  assert (Ht : F64.valid t = true /\ is_finite t = true /\
               0 <= grid F64.prec F64.emax t <= H - L).
  { unfold t, F64.mul. rewrite SFmul_comm.
    destruct (SFmul_spec F64.prec F64.emax P64 E64 w r Vw Vr Fw Fr) as (Vt & Nt & Gt).
    split; [exact Vt|].
    destruct (in_unit_inv r Hr) as [Hz|(mr & er & -> & Hmr & Her)].
    - destruct r; try discriminate. rewrite Gt. split; [|lia].
      apply (finite_of_grid F64.prec F64.emax P64 E64); [assumption|rewrite Gt].
      assert (0 < 2 ^ (F64.emax - emin F64.prec F64.emax))
        by (apply Z.pow_pos_nonneg; unfold emin, F64.prec, F64.emax; lia).
      lia.
    - cbn [cond_Zopp] in Gt.
      pose proof (round_mul_unit_le_width F64.prec F64.emax P64 E64 w (Z.pos mr) er
                    Vw Fw Hw0 ltac:(lia) Her) as [T0 Tw].
      rewrite <- Gt in T0, Tw.
      pose proof (grid_lt_top_of_finite F64.prec F64.emax P64 E64 w Vw Fw) as Hwt.
      split; [apply (finite_of_grid F64.prec F64.emax P64 E64); [assumption|lia]|].
      split; [assumption|]. rewrite Gt.
      destruct (Z.eq_dec (H - L) 0) as [E0|E0].
      + rewrite Gw, E0. change (round_dy F64.prec F64.emax 0 (emin F64.prec F64.emax)) with 0.
        rewrite Z.mul_0_l. reflexivity.
      + assert (Hpos : 0 < H - L) by lia.
        assert (Ew : grid F64.prec F64.emax w =
                     round_grid F64.prec F64.emax (H - L) (emin F64.prec F64.emax)).
        { rewrite Gw. unfold round_dy. rewrite Z.sgn_pos, Z.abs_eq by lia. lia. }
        rewrite Ew. apply round_mul_unit_le; try assumption; lia. }
  destruct Ht as (Vt & Ft & Ht0 & HtD).
  destruct (SFadd_spec F64.prec F64.emax P64 E64 lo t Vlo Vt Flo Ft) as (Vx & Nx & Gx).
  fold (F64.add lo t) in Vx, Nx, Gx. fold L in Gx.
  unfold in_closed. apply andb_true_intro. split.
  - apply (SFleb_grid F64.prec F64.emax P64 E64); try assumption;
      [now apply finite_not_nan|].
    rewrite Gx.
    pose proof (round_dy_id F64.prec F64.emax P64 E64 lo Vlo Flo) as EL. fold L in EL.
    apply Z.le_trans with (round_dy F64.prec F64.emax L (emin F64.prec F64.emax));
      [rewrite EL; lia|].
    apply round_dy_mono; try assumption. lia.
  - apply (SFleb_grid F64.prec F64.emax P64 E64); try assumption;
      [now apply finite_not_nan|].
    rewrite Gx.
    pose proof (round_dy_id F64.prec F64.emax P64 E64 hi Vhi Fhi) as EH. fold H in EH.
    apply Z.le_trans with (round_dy F64.prec F64.emax H (emin F64.prec F64.emax));
      [|rewrite EH; lia].
    apply round_dy_mono; try assumption. lia.
Qed.

(** ** The near sides of the drawing area *)

(** A point at or beyond the origin of an axis is mapped at or beyond the
    padding; a point at the origin is mapped to the padding. *)
Lemma centre_lower (lo x : float64) (s : float32) :
  F64.valid lo = true -> F64.valid x = true -> F32.valid s = true ->
  (is_finite s = true -> 0 <= grid F32.prec F32.emax s) ->
  F64.leb lo x = true ->
  is_finite (F32.add padding (F32.mul (F32.of_f64 (F64.sub x lo)) s)) = true ->
  fle padding (F32.add padding (F32.mul (F32.of_f64 (F64.sub x lo)) s)).
Proof.
  intros Vlo Vx Vs Hs Hle F.
  destruct F32_format as [P32 E32]. destruct F64_format as [P64 E64].
  destruct padding_ok as [Vp Fp].
  pose proof F as F'. apply SFadd_finite_inv in F' as [_ FB].
  pose proof FB as FB'. apply SFmul_finite_inv in FB' as [FD Fs].
  pose proof (of_f64_finite_inv _ FD) as Fd.
  pose proof (SFsub_valid F64.prec F64.emax P64 E64 _ _ Vx Vlo) as Vd.
  pose proof (of_f64_valid _ Vd) as VD.
  pose proof (SFmul_valid F32.prec F32.emax P32 E32 _ _ VD Vs) as VB.
  assert (Hd : 0 <= grid F64.prec F64.emax (F64.sub x lo)).
  { apply (SFsub_nonneg F64.prec F64.emax P64 E64); try assumption.
    now apply finite_not_nan. }
  assert (HD : 0 <= grid F32.prec F32.emax (F32.of_f64 (F64.sub x lo))).
  { apply of_f64_nonneg; try assumption. now apply finite_not_nan. }
  pose proof (SFmul_nonneg F32.prec F32.emax P32 E32 _ s Vs VD Fs FD (Hs Fs) HD) as HB.
  destruct (SFadd_spec F32.prec F32.emax P32 E32 padding _ Vp VB Fp FB) as (VA & NA & GA).
  unfold fle. apply (SFleb_grid F32.prec F32.emax P32 E32); try assumption; [reflexivity|].
  unfold F32.add, F32.mul, F64.sub in *. rewrite GA.
  pose proof (round_dy_id F32.prec F32.emax P32 E32 padding Vp Fp) as Ep.
  apply Z.le_trans
    with (round_dy F32.prec F32.emax (grid F32.prec F32.emax padding) (emin F32.prec F32.emax));
    [rewrite Ep; lia|].
  apply round_dy_mono; try assumption. lia.
Qed.

Lemma centre_origin (lo x : float64) (s : float32) :
  is_finite lo = true -> feq lo x -> is_finite s = true ->
  F32.add padding (F32.mul (F32.of_f64 (F64.sub x lo)) s) = padding.
Proof.
  intros Flo He Fs.
  pose proof (SFsub_feq_zero F64.prec F64.emax lo x Flo He) as Hz.
  fold (F64.sub x lo) in Hz.
  destruct (F64.sub x lo) as [sd| | |]; try discriminate.
  destruct s as [ss| | |ss ms es]; try discriminate; reflexivity.
Qed.

(** ** The generation loop *)

Section Generation.
Context {RandSource : Type} (Float64 : RandSource -> float64 * RandSource).

Lemma store_in_range (s : list Point) (i : nat) (p : Point) :
  (i < length s)%nat -> store s i p = Returned (<[i := p]> s).
Proof. intros H. unfold store. now rewrite decide_True. Qed.

Lemma generated_length (cfg : GUIConfig) (k : nat) (g : RandSource) :
  length (generated Float64 cfg k g).1 = k.
Proof.
  revert g. induction k as [|k IH]; intros g; simpl; [reflexivity|].
  destruct (draw Float64 (MinX cfg) (MaxX cfg) g) as [x g1].
  destruct (draw Float64 (MinY cfg) (MaxY cfg) g1) as [y g2].
  specialize (IH g2). destruct (generated Float64 cfg k g2) as [rest g3].
  simpl in *. now rewrite IH.
Qed.

(** The loop writes the generated points into the slots [i .. i+k) of the
    slice and leaves the other slots alone; no store is out of range. *)
Lemma GeneratePoints_loop_refines (cfg : GUIConfig) (k : nat) :
  forall (i : nat) (pts : list Point) (g : RandSource),
    (i + k <= length pts)%nat ->
    GeneratePoints_loop Float64 k i cfg pts g =
    Returned (take i pts ++ (generated Float64 cfg k g).1 ++ drop (i + k) pts,
              (generated Float64 cfg k g).2).
Proof.
  induction k as [|k IH]; intros i pts g Hlen; simpl.
  - rewrite Nat.add_0_r, take_drop. reflexivity.
  - destruct (draw Float64 (MinX cfg) (MaxX cfg) g) as [x g1].
    destruct (draw Float64 (MinY cfg) (MaxY cfg) g1) as [y g2].
    rewrite store_in_range by lia. simpl.
    rewrite IH by (rewrite length_insert; lia).
    destruct (generated Float64 cfg k g2) as [rest g3]. simpl.
    rewrite drop_insert_lt by lia.
    replace (S i + k)%nat with (i + S k)%nat by lia.
    rewrite (insert_take_drop pts i) by lia.
    replace (S i) with (i + 1)%nat at 1 by lia.
    rewrite take_app_add' by (rewrite length_take; lia).
    simpl. rewrite take_0, <- app_assoc. simpl.
    replace (S (i + k)) with (i + S k)%nat by lia. reflexivity.
Qed.

Lemma make_points_length (n : Z) :
  0 <= n -> exists pts, make_points n = Returned pts /\ length pts = Z.to_nat n.
Proof.
  intros H. unfold make_points.
  destruct (Z.ltb_spec n 0); [lia|].
  eexists; split; [reflexivity|]. now rewrite length_replicate.
Qed.

(** With a count that is not negative, [GeneratePoints] returns: the new
    points are the generated ones, nothing else of the visualizer changes. *)
Lemma GeneratePoints_returns (pv : PointVisualizer) (g : RandSource) :
  0 <= NumPoints (config pv) ->
  GeneratePoints Float64 pv g =
  Returned ({| config := config pv;
               points := (generated Float64 (config pv) (Z.to_nat (NumPoints (config pv))) g).1;
               canvas := canvas pv; pointObjects := pointObjects pv |},
            (generated Float64 (config pv) (Z.to_nat (NumPoints (config pv))) g).2).
Proof.
  intros Hn. unfold GeneratePoints.
  destruct (make_points_length _ Hn) as (pts0 & -> & Hlen). simpl.
  rewrite GeneratePoints_loop_refines by lia. simpl.
  rewrite drop_ge by lia. now rewrite app_nil_r.
Qed.

Lemma GeneratePoints_negative (pv : PointVisualizer) (g : RandSource) :
  NumPoints (config pv) < 0 ->
  GeneratePoints Float64 pv g = Panicked "makeslice: len out of range".
Proof.
  intros Hn. unfold GeneratePoints, make_points.
  destruct (Z.ltb_spec (NumPoints (config pv)) 0); [reflexivity|lia].
Qed.

(** The generated points depend on the domain and the count only. *)
Lemma generated_domain_only (c1 c2 : GUIConfig) (k : nat) (g : RandSource) :
  MinX c1 = MinX c2 -> MaxX c1 = MaxX c2 ->
  MinY c1 = MinY c2 -> MaxY c1 = MaxY c2 ->
  generated Float64 c1 k g = generated Float64 c2 k g.
Proof.
  intros E1 E2 E3 E4. revert g.
  induction k as [|k IH]; intros g; simpl; [reflexivity|].
  rewrite E1, E2, E3, E4.
  destruct (draw Float64 (MinX c2) (MaxX c2) g) as [x g1].
  destruct (draw Float64 (MinY c2) (MaxY c2) g1) as [y g2].
  now rewrite IH.
Qed.

(** A property of single draws holds of every generated point. *)
Lemma generated_Forall (cfg : GUIConfig) (P Q : float64 -> Prop) :
  (forall g, P (draw Float64 (MinX cfg) (MaxX cfg) g).1) ->
  (forall g, Q (draw Float64 (MinY cfg) (MaxY cfg) g).1) ->
  forall k g, Forall (fun p => P (X p) /\ Q (Y p)) (generated Float64 cfg k g).1.
Proof.
  intros HP HQ. induction k as [|k IH]; intros g; simpl; [constructor|].
  pose proof (HP g) as Hx.
  destruct (draw Float64 (MinX cfg) (MaxX cfg) g) as [x g1].
  pose proof (HQ g1) as Hy.
  destruct (draw Float64 (MinY cfg) (MaxY cfg) g1) as [y g2].
  specialize (IH g2). destruct (generated Float64 cfg k g2) as [rest g3].
  simpl in *. constructor; [split; assumption|assumption].
Qed.

End Generation.

(** ** The drawing loop *)

Lemma UpdateCanvas_loop_appends (cfg : GUIConfig) (pts : list Point) :
  forall objs pobjs,
    UpdateCanvas_loop cfg pts objs pobjs =
    (objs ++ map (circle cfg) pts, pobjs ++ map (circle cfg) pts).
Proof.
  induction pts as [|p pts IH]; intros objs pobjs; simpl.
  - now rewrite !app_nil_r.
  - rewrite IH, <- !app_assoc. reflexivity.
Qed.

Lemma UpdateCanvas_returns (pv : PointVisualizer) (c : Container) :
  canvas pv = Some c ->
  UpdateCanvas pv =
  Returned {| config := config pv; points := points pv;
              canvas := Some {| Objects := background (config pv) :: border (config pv)
                                           :: map (circle (config pv)) (points pv) |};
              pointObjects := map (circle (config pv)) (points pv) |}.
Proof.
  intros Hc. unfold UpdateCanvas. rewrite Hc.
  rewrite UpdateCanvas_loop_appends. reflexivity.
Qed.

Lemma circle_as_specified (cfg : GUIConfig) (p : Point) :
  circle cfg p =
  Circle (PointColor cfg) (spec_toCanvas cfg (F32.of_Z 20) p)
         (NewSize (PointSize cfg) (PointSize cfg)).
Proof. reflexivity. Qed.

(** With a zero divisor the scale is not finite, and neither is anything
    computed from it. *)
Lemma position_not_finite (pad d c x half : float32) :
  is_zero d = true ->
  is_finite (F32.sub (F32.add pad (F32.mul x (F32.div c d))) half) = false.
Proof.
  intros Hd. unfold F32.sub, F32.add, F32.mul, F32.div.
  apply SFsub_not_finite_l, SFadd_not_finite_r, SFmul_not_finite_r.
  now apply SFdiv_zero_not_finite.
Qed.

Lemma of_f64_zero (x : float64) : is_zero x = true -> is_zero (F32.of_f64 x) = true.
Proof. now destruct x. Qed.

Lemma canvasX_zero_extent (cfg : GUIConfig) (p : Point) :
  is_finite (MinX cfg) = true -> feq (MinX cfg) (MaxX cfg) ->
  is_finite (canvasX cfg p) = false.
Proof.
  intros Hf He. unfold canvasX, scaleX. apply position_not_finite.
  apply of_f64_zero. now apply SFsub_feq_zero.
Qed.

Lemma canvasY_zero_extent (cfg : GUIConfig) (p : Point) :
  is_finite (MinY cfg) = true -> feq (MinY cfg) (MaxY cfg) ->
  is_finite (canvasY cfg p) = false.
Proof.
  intros Hf He. unfold canvasY, scaleY. apply position_not_finite.
  apply of_f64_zero. now apply SFsub_feq_zero.
Qed.

(** A draw between equal finite bounds is the bound. *)
Lemma draw_zero_extent {RandSource} (Float64 : RandSource -> float64 * RandSource)
      (lo hi : float64) (g : RandSource) :
  unit_source Float64 -> is_finite lo = true -> feq lo hi ->
  feq (draw Float64 lo hi g).1 lo.
Proof.
  intros Hu Hf He. unfold draw. specialize (Hu g).
  destruct (Float64 g) as [r g']. simpl in *.
  unfold F64.add, F64.mul, F64.sub. apply SFadd_zero_r; [assumption|].
  apply SFmul_zero_r; [now apply in_unit_finite|].
  now apply SFsub_feq_zero.
Qed.

Lemma draw_ok {RandSource} (Float64 : RandSource -> float64 * RandSource)
      (lo hi : float64) (g : RandSource) :
  unit_source Float64 ->
  F64.valid lo = true -> F64.valid hi = true -> F64.leb lo hi = true ->
  is_finite (F64.sub hi lo) = true ->
  in_closed lo hi (draw Float64 lo hi g).1 = true /\
  F64.valid (draw Float64 lo hi g).1 = true.
Proof.
  intros Hu Vlo Vhi Hle Fw. destruct F64_format as [P64 E64].
  unfold draw. specialize (Hu g). destruct (Float64 g) as [r g']. simpl in *.
  pose proof Fw as Fw'. apply SFsub_finite_inv in Fw' as [Fhi Flo].
  split; [now apply draw_in_closed|].
  assert (Vr : F64.valid r = true).
  { unfold in_unit in Hu. apply andb_prop in Hu as [Hu _]. now apply andb_prop in Hu as [Hu _]. }
  apply (SFadd_valid F64.prec F64.emax P64 E64); [assumption|].
  apply (SFmul_valid F64.prec F64.emax P64 E64); [assumption|].
  now apply (SFsub_valid F64.prec F64.emax P64 E64).
Qed.

Lemma near_sides (cfg : GUIConfig) (p : Point) :
  wf_config cfg = true -> wf_point p = true ->
  valid_domain cfg = true -> valid_surface cfg = true ->
  is_finite (centreX cfg p) = true -> is_finite (centreY cfg p) = true ->
  (F64.leb (MinX cfg) (X p) = true -> fle padding (centreX cfg p)) /\
  (F64.leb (Y p) (MaxY cfg) = true -> fle padding (centreY cfg p)) /\
  (feq (MinX cfg) (X p) -> centreX cfg p = padding) /\
  (feq (Y p) (MaxY cfg) -> centreY cfg p = padding).
Proof.
  intros Wc Wp Hdom Hsurf FX FY.
  apply wf_config_inv in Wc as (VminX & VmaxX & VminY & VmaxY & VW & VH & VS).
  apply andb_prop in Wp as [Vx Vy].
  apply andb_prop in Hdom as [HdX HdY]. apply andb_prop in Hsurf as [HsX HsY].
  destruct (scale_ok (CanvasWidth cfg) (MinX cfg) (MaxX cfg)) as [VsX HX];
    try assumption; [now apply SFltb_SFleb|]. fold (scaleX cfg) in VsX, HX.
  destruct (scale_ok (CanvasHeight cfg) (MinY cfg) (MaxY cfg)) as [VsY HY];
    try assumption; [now apply SFltb_SFleb|]. fold (scaleY cfg) in VsY, HY.
  unfold centreX, centreY in *.
  pose proof FX as FX'. apply SFadd_finite_inv in FX' as [_ FBX].
  apply SFmul_finite_inv in FBX as [FDX FsX]. apply of_f64_finite_inv in FDX.
  apply SFsub_finite_inv in FDX as [Fx FminX].
  pose proof FY as FY'. apply SFadd_finite_inv in FY' as [_ FBY].
  apply SFmul_finite_inv in FBY as [FDY FsY]. apply of_f64_finite_inv in FDY.
  apply SFsub_finite_inv in FDY as [FmaxY Fy].
  repeat split.
  - intros H. now apply centre_lower.
  - intros H. now apply centre_lower.
  - intros H. now apply centre_origin.
  - intros H. now apply centre_origin.
Qed.

(** ** The far sides of the drawing area *)

Lemma far_side (extent : float32) (lo hi : float64) :
  F32.valid extent = true -> F64.valid lo = true -> F64.valid hi = true ->
  F64.leb lo hi = true ->
  F32.ltb (F32.mul (F32.of_Z 2) padding) extent = true ->
  let s := F32.div (F32.sub extent (F32.mul (F32.of_Z 2) padding))
                   (F32.of_f64 (F64.sub hi lo)) in
  is_finite (F32.add padding (F32.mul (F32.of_f64 (F64.sub hi lo)) s)) = true ->
  within_rounding (F32.add padding (F32.mul (F32.of_f64 (F64.sub hi lo)) s)) extent padding.
Proof.
  intros Ve Vlo Vhi Hd Hs s FA.
  destruct F32_format as [P32 E32]. destruct F64_format as [P64 E64].
  destruct padding_ok as [Vp Fp].
  set (c40 := F32.mul (F32.of_Z 2) padding) in *.
  assert (V40 : F32.valid c40 = true) by reflexivity.
  assert (F40 : is_finite c40 = true) by reflexivity.
  set (c := F32.sub extent c40) in *.
  set (D := F32.of_f64 (F64.sub hi lo)) in *.
  set (v := F32.mul D s) in *.
  pose proof (SFsub_valid F32.prec F32.emax P32 E32 _ _ Ve V40) as Vc.
  fold (F32.sub extent c40) in Vc. fold c in Vc.
  pose proof (SFsub_valid F64.prec F64.emax P64 E64 _ _ Vhi Vlo) as Vw.
  pose proof (of_f64_valid _ Vw) as VD. fold (F64.sub hi lo) in VD. fold D in VD.
  pose proof (SFdiv_valid F32.prec F32.emax P32 E32 _ _ Vc VD) as Vs.
  fold (F32.div c D) in Vs. fold s in Vs.
  pose proof (SFmul_valid F32.prec F32.emax P32 E32 _ _ VD Vs) as Vv.
  fold (F32.mul D s) in Vv. fold v in Vv.
  pose proof FA as FA'. apply SFadd_finite_inv in FA' as [_ Fv].
  pose proof Fv as Fv'. apply SFmul_finite_inv in Fv' as [FD Fs].
  destruct (SFdiv_finite_inv F32.prec F32.emax _ _ Fs) as (Fc & ZD & ND).
  pose proof Fc as Fc'. apply SFsub_finite_inv in Fc' as [Fext _].
  (* signs *)
  pose proof Hs as Hs'.
  apply (SFltb_grid F32.prec F32.emax P32 E32) in Hs';
    try assumption; try reflexivity; [|now apply finite_not_nan].
  assert (GD0 : 0 < grid F32.prec F32.emax D).
  { assert (0 <= grid F32.prec F32.emax D).
    { apply of_f64_nonneg; [assumption|now apply of_f64_nan|].
      apply (SFsub_nonneg F64.prec F64.emax P64 E64); try assumption.
      now apply of_f64_nan. }
    destruct D as [sd| | |sd md ed]; try discriminate.
    destruct (grid_sign F32.prec F32.emax P32 E32 sd md ed VD) as [Hp' Hn'].
    destruct sd; [specialize (Hn' eq_refl); lia|now apply Hp']. }
  pose proof (grid_lt_top_of_finite F32.prec F32.emax P32 E32 D VD FD) as [_ GDtop].
  assert (Gc0 : 0 < grid F32.prec F32.emax c).
  { destruct (SFsub_spec F32.prec F32.emax P32 E32 extent c40 Ve V40 Fext F40) as (_ & _ & Gc).
    fold (F32.sub extent c40) in Gc. fold c in Gc. rewrite Gc.
    apply Z.lt_le_trans with (round_dy F32.prec F32.emax 1 (emin F32.prec F32.emax));
      [reflexivity|].
    apply round_dy_mono; try assumption. lia. }
  (* the four roundings *)
  pose proof (SFsub_upper F32.prec F32.emax P32 E32 extent c40 Ve V40 Fext F40 ltac:(lia)) as H1.
  fold (F32.sub extent c40) in H1. fold c in H1.
  pose proof (SFdiv_upper F32.prec F32.emax P32 E32 c D Vc VD Fc FD Gc0 GD0) as H2.
  fold (F32.div c D) in H2. fold s in H2.
  assert (Gs0 : 0 <= grid F32.prec F32.emax s).
  { apply (SFdiv_nonneg F32.prec F32.emax P32 E32); try assumption; lia. }
  pose proof (SFmul_nonneg F32.prec F32.emax P32 E32 D s Vs VD Fs FD Gs0 ltac:(lia)) as Gv0.
  fold (F32.mul D s) in Gv0. fold v in Gv0.
  destruct (SFadd_spec F32.prec F32.emax P32 E32 padding v Vp Vv Fp Fv) as (_ & _ & GA).
  fold (F32.add padding v) in GA.
  pose proof (SFadd_upper F32.prec F32.emax P32 E32 padding v Vp Vv Fp Fv) as H4.
  fold (F32.add padding v) in H4.
  unfold within_rounding.
  change (grid F32.prec F32.emax c40) with (2 * grid F32.prec F32.emax padding) in *.
  assert (Gp : grid F32.prec F32.emax padding = 20 * 2 ^ 149) by reflexivity.
  destruct (SFmul_upper F32.prec F32.emax P32 E32 D s VD Vs FD Fs ltac:(lia) Gs0) as [H3|H3];
    fold (F32.mul D s) in H3; fold v in H3.
  - (* the product underflows: the sum is the padding *)
    assert (grid F32.prec F32.emax (F32.add padding v) <= grid F32.prec F32.emax padding).
    { rewrite GA.
      apply Z.le_trans
        with (round_dy F32.prec F32.emax (grid F32.prec F32.emax padding + 2 ^ F32.prec)
                       (emin F32.prec F32.emax)).
      - apply round_dy_mono; try assumption. lia.
      - vm_compute. discriminate. }
    lia.
  - change (2 ^ (F32.prec - 1)) with 8388608 in *.
    change (2 ^ (- emin F32.prec F32.emax)) with (2 ^ 149) in *.
    change (2 ^ (F32.emax - emin F32.prec F32.emax)) with (2 ^ 128 * 2 ^ 149) in GDtop.
    set (GA' := grid F32.prec F32.emax (F32.add padding v)) in *.
    set (Gv := grid F32.prec F32.emax v) in *.
    set (Gc := grid F32.prec F32.emax c) in *.
    set (GW := grid F32.prec F32.emax extent) in *.
    set (GD := grid F32.prec F32.emax D) in *.
    set (Gs := grid F32.prec F32.emax s) in *.
    specialize (H4 ltac:(lia)).
    assert (T : 0 < 2 ^ 149) by (apply Z.pow_pos_nonneg; lia).
    assert (HX : GD * Gs * 8388608 <= (Gc + 2 ^ 128) * 2 ^ 149 * (8388608 + 1)).
    { destruct H2 as [[H2 H2']|H2].
      - replace (GD * Gs) with ((Gs - 1) * GD + GD) by ring. nia.
      - replace (GD * Gs) with (Gs * GD) by ring. nia. }
    set (X := GD * Gs) in *.
    clearbody GA' Gv Gc GW X. rewrite Gp in *.
    set (t := 2 ^ 149) in *.
    assert (S1 : Gv * t * (8388608 * 8388608)
                 <= (Gc + 2 ^ 128) * t * ((8388608 + 1) * (8388608 + 1))) by nia.
    assert (S2 : Gv * (8388608 * 8388608)
                 <= (Gc + 2 ^ 128) * ((8388608 + 1) * (8388608 + 1))).
    { apply Z.mul_le_mono_pos_r with t; [assumption|]. lia. }
    unfold t in *. lia.
Qed.

Lemma near_side_within (extent : float32) :
  F32.valid extent = true ->
  F32.ltb (F32.mul (F32.of_Z 2) padding) extent = true ->
  within_rounding padding extent padding.
Proof.
  intros Ve Hs. destruct F32_format as [P32 E32].
  destruct (SFltb_not_nan _ _ Hs) as [_ Ne].
  apply (SFltb_grid F32.prec F32.emax P32 E32) in Hs; try assumption; try reflexivity.
  unfold within_rounding.
  change (grid F32.prec F32.emax (F32.mul (F32.of_Z 2) padding))
    with (2 * grid F32.prec F32.emax padding) in Hs.
  assert (Gp : grid F32.prec F32.emax padding = 20 * 2 ^ 149) by reflexivity.
  rewrite Gp in *. lia.
Qed.

(** The corners are mapped at most a rounding error beyond the far sides. *)
Lemma far_sides (cfg : GUIConfig) (p : Point) :
  wf_config cfg = true -> valid_domain cfg = true -> valid_surface cfg = true ->
  (X p = MinX cfg \/ X p = MaxX cfg) -> (Y p = MinY cfg \/ Y p = MaxY cfg) ->
  is_finite (centreX cfg p) = true -> is_finite (centreY cfg p) = true ->
  within_rounding (centreX cfg p) (CanvasWidth cfg) padding /\
  within_rounding (centreY cfg p) (CanvasHeight cfg) padding.
Proof.
  intros Wc Hdom Hsurf HX HY FX FY.
  pose proof (wf_config_inv cfg Wc) as (VminX & VmaxX & VminY & VmaxY & VW & VH & VS).
  pose proof Hdom as Hdom'. apply andb_prop in Hdom' as [HdX HdY].
  pose proof Hsurf as Hsurf'. apply andb_prop in Hsurf' as [HsX HsY].
  destruct (SFltb_not_nan _ _ HdX) as [NminX NmaxX].
  destruct (SFltb_not_nan _ _ HdY) as [NminY NmaxY].
  assert (Wp : wf_point p = true).
  { unfold wf_point. destruct HX as [-> | ->], HY as [-> | ->];
      now rewrite ?VminX, ?VmaxX, ?VminY, ?VmaxY. }
  assert (LX : F64.leb (MinX cfg) (X p) = true).
  { destruct HX as [-> | ->]; [now apply SFleb_refl|now apply SFltb_SFleb]. }
  assert (LY : F64.leb (Y p) (MaxY cfg) = true).
  { destruct HY as [-> | ->]; [now apply SFltb_SFleb|now apply SFleb_refl]. }
  destruct (near_sides cfg p Wc Wp Hdom Hsurf FX FY) as (_ & _ & H3 & H4).
  split.
  - destruct HX as [E|E].
    + rewrite H3 by (rewrite E; unfold feq; now apply SFeqb_refl).
      now apply near_side_within.
    + unfold centreX in *. rewrite E in *.
      apply far_side; assumption.
  - destruct HY as [E|E].
    + unfold centreY in *. rewrite E in *.
      apply far_side; assumption.
    + rewrite H4 by (rewrite E; unfold feq; now apply SFeqb_refl).
      now apply near_side_within.
Qed.

(** ** Properties of the specification *)

(** C1 (as amended): for every domain with minX < maxX and minY < maxY whose
    widths maxX - minX and maxY - minY do not overflow, and every count
    n >= 0, the generator returns an ordered sequence of exactly n points,
    each with x in the closed interval [minX, maxX] and y in [minY, maxY]
    (the upper bound can be reached by rounding); for n = 0 it returns the
    empty sequence.  The configuration is not changed and the points are
    well-formed numbers. *)
Theorem GeneratePoints_in_closed_domain {RandSource}
        (Float64 : RandSource -> float64 * RandSource)
        (pv : PointVisualizer) (g : RandSource) :
  unit_source Float64 -> 0 <= NumPoints (config pv) ->
  wf_domain (config pv) = true -> valid_domain (config pv) = true ->
  finite_widths (config pv) = true ->
  exists pv' g',
    GeneratePoints Float64 pv g = Returned (pv', g') /\
    config pv' = config pv /\
    length (points pv') = Z.to_nat (NumPoints (config pv)) /\
    (NumPoints (config pv) = 0 -> points pv' = []) /\
    Forall (fun p => in_closed_domain (config pv) p = true /\ wf_point p = true)
           (points pv').
Proof.
  intros Hu Hn Wd Hdom Hfin.
  unfold wf_domain in Wd. repeat (apply andb_prop in Wd as [Wd ?]).
  apply andb_prop in Hdom as [HdX HdY]. apply andb_prop in Hfin as [FwX FwY].
  apply SFltb_SFleb in HdX, HdY.
  do 2 eexists. split; [now apply GeneratePoints_returns|]. simpl.
  split; [reflexivity|]. split; [apply generated_length|]. split.
  - intros ->. reflexivity.
  - eapply Forall_impl;
      [apply (generated_Forall Float64 (config pv)
                (fun x => in_closed (MinX (config pv)) (MaxX (config pv)) x = true
                          /\ F64.valid x = true)
                (fun y => in_closed (MinY (config pv)) (MaxY (config pv)) y = true
                          /\ F64.valid y = true))|].
    + intros g0. now apply draw_ok.
    + intros g0. now apply draw_ok.
    + intros p [[Hx Vx] [Hy Vy]]. unfold in_closed_domain, wf_point.
      now rewrite Hx, Hy, Vx, Vy.
Qed.

Lemma GeneratePoints_in_closed_domain_witness :
  exists pv' g',
    GeneratePoints script_Float64
      (with_config started
         (with_NumPoints 1
            (with_domain (F64.of_Z 1) (F64.of_Z 2) (F64.of_Z 0) (F64.of_Z 100)
                         defaultConfig))) [below_one] = Returned (pv', g') /\
    length (points pv') = 1%nat /\
    Forall (fun p => X p = F64.of_Z 2) (points pv').
Proof.
  destruct (GeneratePoints_in_closed_domain script_Float64
              (with_config started
                 (with_NumPoints 1
                    (with_domain (F64.of_Z 1) (F64.of_Z 2) (F64.of_Z 0) (F64.of_Z 100)
                                 defaultConfig))) [below_one] script_unit_source)
    as (pv' & g' & H & _ & Hl & _ & _); try reflexivity.
  - simpl. lia.
  - exists pv', g'. split; [exact H|]. split; [exact Hl|].
    vm_compute in H. injection H as <- _. repeat constructor.
Defined.

(** C1, counterexample: the domain 1..2 is valid, and when the source draws
    1 - 2^-53 the sum 1 + (1 - 2^-53) * (2 - 1) rounds to 2: the generated X
    is maxX, outside the half-open interval. *)
Lemma GeneratePoints_reaches_upper_bound :
  let cfg := with_NumPoints 1
               (with_domain (F64.of_Z 1) (F64.of_Z 2) (F64.of_Z 0) (F64.of_Z 100)
                            defaultConfig) in
  valid_domain cfg = true /\ in_unit below_one = true /\
  exists pv' g' p,
    GeneratePoints script_Float64 (with_config started cfg) [below_one] = Returned (pv', g') /\
    points pv' = [p] /\ X p = MaxX cfg /\ in_domain cfg p = false.
Proof.
  split; [reflexivity|]. split; [reflexivity|]. do 3 eexists.
  split; [vm_compute; reflexivity|]. repeat split.
Qed.

(** C2: the mapper computes, for every point, the scale factors
    [(extent - 2*padding) / (max - min)], [px = padding + (x - minX) * scaleX]
    and the inverted [py = padding + (maxY - y) * scaleY], both minus half
    the point size: [UpdateCanvas] draws, after background and border, one
    circle per point, in order, at that position.  In the concrete scenario
    (domain 0..100 on both axes, surface 600x400, padding 20, point (50,50))
    the scale factors are the float32 nearest to 5.6 and 3.6, and the position
    is (300, 200), each minus half the point size. *)
Theorem UpdateCanvas_maps_as_specified (pv : PointVisualizer) (c : Container) :
  canvas pv = Some c ->
  (exists pv',
     UpdateCanvas pv = Returned pv' /\
     config pv' = config pv /\ points pv' = points pv /\
     pointObjects pv' =
       map (fun p => Circle (PointColor (config pv))
                            (spec_toCanvas (config pv) (F32.of_Z 20) p)
                            (NewSize (PointSize (config pv)) (PointSize (config pv))))
           (points pv) /\
     canvas pv' = Some {| Objects := background (config pv) :: border (config pv)
                                       :: pointObjects pv' |}) /\
  (forall p : Point,
     MinX (config pv) = F64.of_Z 0 -> MaxX (config pv) = F64.of_Z 100 ->
     MinY (config pv) = F64.of_Z 0 -> MaxY (config pv) = F64.of_Z 100 ->
     CanvasWidth (config pv) = F32.of_Z 600 ->
     CanvasHeight (config pv) = F32.of_Z 400 ->
     X p = F64.of_Z 50 -> Y p = F64.of_Z 50 ->
     scaleX (config pv) = F32.div (F32.of_Z 56) (F32.of_Z 10) /\
     scaleY (config pv) = F32.div (F32.of_Z 36) (F32.of_Z 10) /\
     canvasX (config pv) p =
       F32.sub (F32.of_Z 300) (F32.div (PointSize (config pv)) (F32.of_Z 2)) /\
     canvasY (config pv) p =
       F32.sub (F32.of_Z 200) (F32.div (PointSize (config pv)) (F32.of_Z 2))).
Proof.
  intros Hc. split.
  - eexists. split; [apply (UpdateCanvas_returns pv c Hc)|]. simpl.
    repeat split; reflexivity.
  - intros p HminX HmaxX HminY HmaxY HW HH Hx Hy.
    unfold canvasX, canvasY, scaleX, scaleY.
    rewrite HminX, HmaxX, HminY, HmaxY, HW, HH, Hx, Hy.
    repeat split; try reflexivity; f_equal; reflexivity.
Qed.

Lemma UpdateCanvas_maps_as_specified_witness :
  canvasX (config started) {| X := F64.of_Z 50; Y := F64.of_Z 50 |} = F32.of_Z 297 /\
  canvasY (config started) {| X := F64.of_Z 50; Y := F64.of_Z 50 |} = F32.of_Z 197.
Proof.
  destruct (UpdateCanvas_maps_as_specified started {| Objects := [] |} eq_refl)
    as [_ H].
  destruct (H {| X := F64.of_Z 50; Y := F64.of_Z 50 |}
              eq_refl eq_refl eq_refl eq_refl eq_refl eq_refl eq_refl eq_refl)
    as (_ & _ & Hx & Hy).
  split; [rewrite Hx | rewrite Hy]; reflexivity.
Defined.

(** C3 (as amended): the generator validates no domain.  For every domain,
    valid or not, and every count n >= 0 it returns exactly n points and
    leaves the configuration as it was; there is no InvalidDomain error. *)
Theorem GeneratePoints_validates_no_domain {RandSource}
        (Float64 : RandSource -> float64 * RandSource)
        (pv : PointVisualizer) (g : RandSource) :
  0 <= NumPoints (config pv) ->
  exists pv' g',
    GeneratePoints Float64 pv g = Returned (pv', g') /\
    length (points pv') = Z.to_nat (NumPoints (config pv)) /\
    config pv' = config pv.
Proof.
  intros Hn. do 2 eexists. split; [now apply GeneratePoints_returns|].
  simpl. split; [apply generated_length|reflexivity].
Qed.

Lemma GeneratePoints_validates_no_domain_witness :
  let pv := with_config started
              (with_domain (F64.of_Z 100) (F64.of_Z 0) (F64.of_Z 0) (F64.of_Z 100)
                           defaultConfig) in
  valid_domain (config pv) = false /\
  exists pv' g',
    GeneratePoints script_Float64 pv [below_one] = Returned (pv', g') /\
    length (points pv') = 30%nat /\ config pv' = config pv.
Proof.
  intros pv. split; [reflexivity|].
  apply (GeneratePoints_validates_no_domain script_Float64 pv [below_one]).
  simpl. lia.
Defined.

(** C3, counterexample: with Domain(0,0,0,100), that is minX = maxX = 0, the
    domain is invalid and generation still returns, with 30 points. *)
Lemma GeneratePoints_invalid_domain_accepted :
  let pv := with_config started
              (with_domain (F64.of_Z 0) (F64.of_Z 0) (F64.of_Z 0) (F64.of_Z 100)
                           defaultConfig) in
  valid_domain (config pv) = false /\
  exists pv' g',
    GeneratePoints script_Float64 pv [] = Returned (pv', g') /\
    length (points pv') = 30%nat.
Proof.
  split; [reflexivity|]. do 2 eexists. split; [vm_compute; reflexivity|reflexivity].
Qed.

(** C4: two calls with the same domain, the same count and the random source
    in the same state produce the same points, in the same order, and leave
    the source in the same state; the rest of the configuration has no
    influence. *)
Theorem GeneratePoints_deterministic {RandSource}
        (Float64 : RandSource -> float64 * RandSource)
        (pv1 pv2 : PointVisualizer) (g : RandSource) :
  MinX (config pv1) = MinX (config pv2) -> MaxX (config pv1) = MaxX (config pv2) ->
  MinY (config pv1) = MinY (config pv2) -> MaxY (config pv1) = MaxY (config pv2) ->
  NumPoints (config pv1) = NumPoints (config pv2) ->
  0 <= NumPoints (config pv1) ->
  exists pv1' pv2' g',
    GeneratePoints Float64 pv1 g = Returned (pv1', g') /\
    GeneratePoints Float64 pv2 g = Returned (pv2', g') /\
    points pv1' = points pv2' /\
    length (points pv1') = Z.to_nat (NumPoints (config pv1)).
Proof.
  intros E1 E2 E3 E4 En Hn.
  do 3 eexists. split; [now apply GeneratePoints_returns|].
  split.
  - rewrite GeneratePoints_returns by lia.
    rewrite <- En, <- (generated_domain_only Float64 (config pv1) (config pv2))
      by assumption.
    reflexivity.
  - simpl. split; [reflexivity|apply generated_length].
Qed.

Lemma GeneratePoints_deterministic_witness :
  exists pv1' pv2' g',
    GeneratePoints script_Float64 started [below_one] = Returned (pv1', g') /\
    GeneratePoints script_Float64
      (with_config NewPointVisualizer defaultConfig) [below_one] = Returned (pv2', g') /\
    points pv1' = points pv2' /\ length (points pv1') = 30%nat.
Proof.
  apply (GeneratePoints_deterministic script_Float64 started
           (with_config NewPointVisualizer defaultConfig) [below_one]);
    try reflexivity.
  simpl. lia.
Defined.

(** C5 (as amended): the Y mapping is antitone.  For well-formed numbers, a
    valid domain and a valid surface, of two points with p1.y < p2.y whose
    canvas Y are finite, the second is mapped to a canvas Y that is smaller
    or the same: py(p1) >= py(p2).  (Equality happens: two Y closer than a
    float32 can tell are mapped to one position.) *)
Theorem canvasY_antitone (cfg : GUIConfig) (p1 p2 : Point) :
  wf_config cfg = true -> wf_point p1 = true -> wf_point p2 = true ->
  valid_domain cfg = true -> valid_surface cfg = true ->
  flt (Y p1) (Y p2) ->
  is_finite (canvasY cfg p1) = true -> is_finite (canvasY cfg p2) = true ->
  fle (canvasY cfg p2) (canvasY cfg p1).
Proof.
  intros Wc W1 W2 Hdom Hsurf Hy F1 F2.
  destruct F32_format as [P32 E32]. destruct F64_format as [P64 E64].
  apply wf_config_inv in Wc as (VminX & VmaxX & VminY & VmaxY & VW & VH & VS).
  apply andb_prop in W1 as [_ Vy1]. apply andb_prop in W2 as [_ Vy2].
  apply andb_prop in Hdom as [_ HdY]. apply andb_prop in Hsurf as [_ HsY].
  unfold canvasY in *.
  destruct (place_parts _ _ _ F1) as (Fd1 & Fs & Fh & _).
  destruct (place_parts _ _ _ F2) as (Fd2 & _).
  destruct (scale_ok (CanvasHeight cfg) (MinY cfg) (MaxY cfg)) as [Vs Hs];
    try assumption; [now apply SFltb_SFleb|]. fold (scaleY cfg) in Vs, Hs.
  apply SFsub_finite_inv in Fd1 as [FM Fy1]. apply SFsub_finite_inv in Fd2 as [_ Fy2].
  apply place_mono; try assumption.
  - now apply (SFsub_valid F64.prec F64.emax P64 E64).
  - now apply (SFsub_valid F64.prec F64.emax P64 E64).
  - apply (SFdiv_valid F32.prec F32.emax P32 E32); [assumption|reflexivity].
  - now apply Hs.
  - apply (SFsub_anti_r F64.prec F64.emax P64 E64); try assumption.
    apply Z.lt_le_incl.
    apply (SFltb_grid F64.prec F64.emax P64 E64); try assumption;
      now apply finite_not_nan.
Qed.

Lemma canvasY_antitone_witness :
  fle (canvasY defaultConfig {| X := F64.of_Z 50; Y := F64.of_Z 75 |})
      (canvasY defaultConfig {| X := F64.of_Z 50; Y := F64.of_Z 25 |}).
Proof.
  apply (canvasY_antitone defaultConfig {| X := F64.of_Z 50; Y := F64.of_Z 25 |}
                          {| X := F64.of_Z 50; Y := F64.of_Z 75 |}); reflexivity.
Defined.

(** C5, counterexample: under the default configuration the points (50, 50)
    and (50, 50 + 2^-46) have different Y, the second above the first, and
    the same canvas Y: the conversion to float32 maps both differences to 50. *)
Lemma canvasY_not_strict :
  let p1 := {| X := F64.of_Z 50; Y := F64.of_Z 50 |} in
  let p2 := {| X := F64.of_Z 50; Y := F64.scaled (50 * 2 ^ 46 + 1) (-46) |} in
  valid_domain defaultConfig = true /\ valid_surface defaultConfig = true /\
  flt (Y p1) (Y p2) /\
  canvasY defaultConfig p1 = canvasY defaultConfig p2 /\
  SFltb (canvasY defaultConfig p2) (canvasY defaultConfig p1) = false.
Proof. repeat split. Qed.

(** C6 (as amended): the generate button updates each of the four range
    fields on its own: a field whose entry text parses takes the parsed value,
    a field whose text does not parse keeps its prior value; then the points
    are generated and drawn with the resulting domain, whichever fields were
    updated.  Nothing else of the configuration changes. *)
Theorem generateBtn_updates_fields_independently {RandSource}
        (Float64 : RandSource -> float64 * RandSource)
        (ParseFloat : string -> option float64)
        (en : Entries) (pv : PointVisualizer) (g : RandSource) (c : Container) :
  canvas pv = Some c -> 0 <= NumPoints (config pv) ->
  exists pv' g',
    generateBtn_OnTapped Float64 ParseFloat en pv g = Returned (pv', g') /\
    MinX (config pv') = default (MinX (config pv)) (ParseFloat (xMinEntry en)) /\
    MaxX (config pv') = default (MaxX (config pv)) (ParseFloat (xMaxEntry en)) /\
    MinY (config pv') = default (MinY (config pv)) (ParseFloat (yMinEntry en)) /\
    MaxY (config pv') = default (MaxY (config pv)) (ParseFloat (yMaxEntry en)) /\
    NumPoints (config pv') = NumPoints (config pv) /\
    CanvasWidth (config pv') = CanvasWidth (config pv) /\
    CanvasHeight (config pv') = CanvasHeight (config pv) /\
    PointSize (config pv') = PointSize (config pv) /\
    PointColor (config pv') = PointColor (config pv) /\
    length (points pv') = Z.to_nat (NumPoints (config pv)) /\
    pointObjects pv' = map (circle (config pv')) (points pv').
Proof.
  intros Hc Hn. unfold generateBtn_OnTapped, update_from.
  set (c4 := match ParseFloat (yMaxEntry en) with Some v => _ | None => _ end).
  assert (Hn4 : NumPoints c4 = NumPoints (config pv)).
  { subst c4. repeat (destruct (ParseFloat _); simpl); reflexivity. }
  rewrite GeneratePoints_returns by (simpl; lia). simpl.
  erewrite UpdateCanvas_returns by (simpl; exact Hc). simpl.
  do 2 eexists. split; [reflexivity|]. simpl.
  rewrite generated_length, Hn4.
  subst c4. repeat split; repeat (destruct (ParseFloat _); simpl); reflexivity.
Qed.

Lemma generateBtn_updates_fields_independently_witness :
  let en := {| xMinEntry := "abc"; xMaxEntry := "5";
               yMinEntry := "zzz"; yMaxEntry := "100.0" |} in
  parse_examples (xMinEntry en) = None /\ parse_examples (yMinEntry en) = None /\
  exists pv' g',
    generateBtn_OnTapped script_Float64 parse_examples en started [below_one]
    = Returned (pv', g') /\
    MinX (config pv') = MinX (config started) /\ MaxX (config pv') = F64.of_Z 5 /\
    MinY (config pv') = MinY (config started) /\ MaxY (config pv') = F64.of_Z 100 /\
    length (points pv') = 30%nat /\
    pointObjects pv' = map (circle (config pv')) (points pv').
Proof.
  intros en. split; [reflexivity|]. split; [reflexivity|].
  destruct (generateBtn_updates_fields_independently script_Float64 parse_examples
              en started [below_one] {| Objects := [] |} eq_refl)
    as (pv' & g' & H & H1 & H2 & H3 & H4 & _ & _ & _ & _ & _ & Hl & Ho).
  - simpl. lia.
  - exists pv', g'. repeat split; assumption.
Defined.

(** C6, counterexample: with the texts 5 and abc in the X entries the cycle
    is not rejected although abc does not parse; it returns with MinX
    updated to 5 and MaxX left at its prior value 100. *)
Lemma generateBtn_partial_update :
  let en := {| xMinEntry := "5"; xMaxEntry := "abc";
               yMinEntry := "0.0"; yMaxEntry := "100.0" |} in
  parse_examples (xMaxEntry en) = None /\
  exists pv' g',
    generateBtn_OnTapped script_Float64 parse_examples en started [] = Returned (pv', g') /\
    MinX (config pv') = F64.of_Z 5 /\ MinX (config pv') <> MinX (config started) /\
    MaxX (config pv') = MaxX (config started).
Proof.
  split; [reflexivity|].
  do 2 eexists. split; [vm_compute; reflexivity|].
  simpl. repeat split; [discriminate].
Qed.

(** C7 (as amended): the mapper has no check for a zero-extent axis.  When
    [MinX = MaxX] (finite) reaches [UpdateCanvas], the X scale is the result
    of a division by zero; the call still returns and draws one circle per
    point, each at an X position that is not a finite number (an infinity
    or NaN).  The same holds of the Y axis. *)
Theorem UpdateCanvas_zero_extent_still_draws (pv : PointVisualizer) (c : Container) :
  canvas pv = Some c ->
  exists pv',
    UpdateCanvas pv = Returned pv' /\
    length (pointObjects pv') = length (points pv) /\
    (is_finite (MinX (config pv)) = true -> feq (MinX (config pv)) (MaxX (config pv)) ->
     Forall (fun o => exists pos, position_of o = Some pos /\
                                  is_finite (PosX pos) = false) (pointObjects pv')) /\
    (is_finite (MinY (config pv)) = true -> feq (MinY (config pv)) (MaxY (config pv)) ->
     Forall (fun o => exists pos, position_of o = Some pos /\
                                  is_finite (PosY pos) = false) (pointObjects pv')).
Proof.
  intros Hc. eexists. split; [apply (UpdateCanvas_returns pv c Hc)|]. simpl.
  split; [apply length_map|].
  split; intros Hf He; apply Forall_forall; intros o Ho;
    apply list_elem_of_In, in_map_iff in Ho as (p & <- & _);
    eexists; (split; [reflexivity|]); simpl.
  - now apply canvasX_zero_extent.
  - now apply canvasY_zero_extent.
Qed.

Lemma UpdateCanvas_zero_extent_still_draws_witness :
  let cfg := with_domain (F64.of_Z 7) (F64.of_Z 7) (F64.of_Z 3) (F64.of_Z 3)
                         defaultConfig in
  let pv := {| config := cfg;
               points := [{| X := F64.of_Z 7; Y := F64.of_Z 3 |};
                          {| X := F64.of_Z 7; Y := F64.of_Z 3 |}];
               canvas := Some {| Objects := [] |}; pointObjects := [] |} in
  exists pv',
    UpdateCanvas pv = Returned pv' /\
    length (pointObjects pv') = 2%nat /\
    Forall (fun o => exists pos, position_of o = Some pos /\
                                 is_finite (PosX pos) = false) (pointObjects pv') /\
    Forall (fun o => exists pos, position_of o = Some pos /\
                                 is_finite (PosY pos) = false) (pointObjects pv').
Proof.
  intros cfg pv.
  destruct (UpdateCanvas_zero_extent_still_draws pv {| Objects := [] |} eq_refl)
    as (pv' & H & Hl & HX & HY).
  exists pv'. split; [exact H|]. split; [exact Hl|].
  split; [apply HX; reflexivity|apply HY; reflexivity].
Defined.

(** C7, counterexample: the domain 0..0 x 0..100 with the one point (0,50):
    the mapper neither fails nor skips the drawing; it returns and draws the
    circle at the X position NaN. *)
Lemma UpdateCanvas_draws_at_nan :
  let cfg := with_domain (F64.of_Z 0) (F64.of_Z 0) (F64.of_Z 0) (F64.of_Z 100)
                         defaultConfig in
  let pv := {| config := cfg; points := [{| X := F64.of_Z 0; Y := F64.of_Z 50 |}];
               canvas := Some {| Objects := [] |}; pointObjects := [] |} in
  feq (MinX cfg) (MaxX cfg) /\
  exists pv',
    UpdateCanvas pv = Returned pv' /\
    pointObjects pv' =
      [Circle (PointColor cfg) (NewPos S754_nan (F32.of_Z 197))
              (NewSize (F32.of_Z 6) (F32.of_Z 6))].
Proof.
  split; [reflexivity|]. eexists. split; vm_compute; reflexivity.
Qed.

(** C8 (as amended): for every valid domain and every surface with
    width > 2*padding and height > 2*padding (well-formed numbers), each of
    the four domain corners whose mapped position (ignoring the half-size
    offset) is finite is mapped to px >= padding and py >= padding, with
    px = padding at the corners on minX and py = padding at the corners on
    maxY, and to px <= (width - padding) * (1 + 2^-20) and
    py <= (height - padding) * (1 + 2^-20): the far sides are met up to the
    float32 rounding of the four operations only.  Under the default
    configuration the corners are mapped to (20, 380), (20, 20), (580, 380)
    and (580, 20), exactly the rectangle of the claim. *)
Theorem corners_within_rounding (cfg : GUIConfig) :
  wf_config cfg = true -> valid_domain cfg = true -> valid_surface cfg = true ->
  Forall (fun c =>
            is_finite (centreX cfg c) = true -> is_finite (centreY cfg c) = true ->
            fle padding (centreX cfg c) /\ fle padding (centreY cfg c) /\
            within_rounding (centreX cfg c) (CanvasWidth cfg) padding /\
            within_rounding (centreY cfg c) (CanvasHeight cfg) padding /\
            (X c = MinX cfg -> centreX cfg c = padding) /\
            (Y c = MaxY cfg -> centreY cfg c = padding))
         (corners cfg) /\
  map (fun c => (centreX defaultConfig c, centreY defaultConfig c)) (corners defaultConfig) =
  [ (F32.of_Z 20, F32.of_Z 380); (F32.of_Z 20, F32.of_Z 20);
    (F32.of_Z 580, F32.of_Z 380); (F32.of_Z 580, F32.of_Z 20) ].
Proof.
  intros Wc Hdom Hsurf. split; [|reflexivity].
  pose proof (wf_config_inv cfg Wc) as (VminX & VmaxX & VminY & VmaxY & _).
  pose proof Hdom as Hdom'. apply andb_prop in Hdom' as [HdX HdY].
  destruct (SFltb_not_nan _ _ HdX) as [NminX NmaxX].
  destruct (SFltb_not_nan _ _ HdY) as [NminY NmaxY].
  assert (Hcorner : forall c,
            (X c = MinX cfg \/ X c = MaxX cfg) -> (Y c = MinY cfg \/ Y c = MaxY cfg) ->
            is_finite (centreX cfg c) = true -> is_finite (centreY cfg c) = true ->
            fle padding (centreX cfg c) /\ fle padding (centreY cfg c) /\
            within_rounding (centreX cfg c) (CanvasWidth cfg) padding /\
            within_rounding (centreY cfg c) (CanvasHeight cfg) padding /\
            (X c = MinX cfg -> centreX cfg c = padding) /\
            (Y c = MaxY cfg -> centreY cfg c = padding)).
  { intros c HX HY FX FY.
    assert (Wp : wf_point c = true).
    { unfold wf_point. destruct HX as [-> | ->], HY as [-> | ->];
        now rewrite ?VminX, ?VmaxX, ?VminY, ?VmaxY. }
    assert (LX : F64.leb (MinX cfg) (X c) = true).
    { destruct HX as [-> | ->]; [now apply SFleb_refl|now apply SFltb_SFleb]. }
    assert (LY : F64.leb (Y c) (MaxY cfg) = true).
    { destruct HY as [-> | ->]; [now apply SFltb_SFleb|now apply SFleb_refl]. }
    destruct (near_sides cfg c Wc Wp Hdom Hsurf FX FY) as (H1 & H2 & H3 & H4).
    destruct (far_sides cfg c Wc Hdom Hsurf HX HY FX FY) as [U1 U2].
    split; [now apply H1|]. split; [now apply H2|].
    split; [exact U1|]. split; [exact U2|]. split.
    - intros E. apply H3. rewrite E. unfold feq. apply SFeqb_refl. assumption.
    - intros E. apply H4. rewrite E. unfold feq. apply SFeqb_refl. assumption. }
  unfold corners.
  repeat (apply List.Forall_cons;
          [intros FX FY; apply Hcorner; simpl; auto|]).
  apply List.Forall_nil.
Qed.

Lemma corners_within_rounding_witness :
  centreX defaultConfig {| X := MinX defaultConfig; Y := MinY defaultConfig |} = padding /\
  fle padding (centreY defaultConfig {| X := MinX defaultConfig; Y := MinY defaultConfig |}) /\
  within_rounding
    (centreY defaultConfig {| X := MinX defaultConfig; Y := MinY defaultConfig |})
    (CanvasHeight defaultConfig) padding.
Proof.
  destruct (corners_within_rounding defaultConfig eq_refl eq_refl eq_refl) as [H _].
  apply List.Forall_inv in H. destruct (H eq_refl eq_refl) as (_ & Hy & _ & Uy & Hx & _).
  split; [apply Hx; reflexivity|]. split; [exact Hy|exact Uy].
Defined.

(** C8, counterexample: with the Y range 0..81 on the default surface the
    corner (0, 0) is mapped, before the half-size offset, to
    20 + 81 * (360/81), which is 380.00003 in float32: beyond
    height - padding = 380, outside the rectangle. *)
Lemma corner_outside_rectangle :
  let cfg := with_domain (F64.of_Z 0) (F64.of_Z 100) (F64.of_Z 0) (F64.of_Z 81)
                         defaultConfig in
  let corner := {| X := MinX cfg; Y := MinY cfg |} in
  valid_domain cfg = true /\ valid_surface cfg = true /\
  centreY cfg corner = F32.scaled (380 * 2 ^ 15 + 1) (-15) /\
  SFleb (centreY cfg corner) (F32.sub (CanvasHeight cfg) padding) = false.
Proof. repeat split. Qed.

(** C9 (as amended): a negative count is not rejected with an error.
    [GeneratePoints] panics in [make] ("makeslice: len out of range") before
    anything is assigned, so no point set is produced and nothing is
    changed. *)
Theorem GeneratePoints_negative_count_panics {RandSource}
        (Float64 : RandSource -> float64 * RandSource)
        (pv : PointVisualizer) (g : RandSource) :
  NumPoints (config pv) < 0 ->
  GeneratePoints Float64 pv g = Panicked "makeslice: len out of range".
Proof. apply GeneratePoints_negative. Qed.

Lemma GeneratePoints_negative_count_panics_witness :
  GeneratePoints script_Float64 (with_config started (with_NumPoints (-1) defaultConfig)) []
  = Panicked "makeslice: len out of range".
Proof.
  apply (GeneratePoints_negative_count_panics script_Float64
           (with_config started (with_NumPoints (-1) defaultConfig)) []).
  simpl. lia.
Defined.

(** C9, counterexample: with the count -1 the generator panics. *)
Lemma GeneratePoints_minus_one_panics :
  exists msg,
    GeneratePoints script_Float64 (with_config started (with_NumPoints (-1) defaultConfig)) []
    = Panicked msg.
Proof. eexists. reflexivity. Qed.

(** C10 (as amended): for every configuration whose X bounds are equal and
    finite and every count n >= 0, the generator returns n points whose X
    coordinate equals MinX, all of them; likewise all Y coordinates equal
    MinY when the Y bounds are equal and finite. *)
Theorem GeneratePoints_zero_extent {RandSource}
        (Float64 : RandSource -> float64 * RandSource)
        (pv : PointVisualizer) (g : RandSource) :
  unit_source Float64 -> 0 <= NumPoints (config pv) ->
  exists pv' g',
    GeneratePoints Float64 pv g = Returned (pv', g') /\
    length (points pv') = Z.to_nat (NumPoints (config pv)) /\
    (is_finite (MinX (config pv)) = true -> feq (MinX (config pv)) (MaxX (config pv)) ->
     Forall (fun p => feq (X p) (MinX (config pv))) (points pv')) /\
    (is_finite (MinY (config pv)) = true -> feq (MinY (config pv)) (MaxY (config pv)) ->
     Forall (fun p => feq (Y p) (MinY (config pv))) (points pv')).
Proof.
  intros Hu Hn. do 2 eexists. split; [now apply GeneratePoints_returns|]. simpl.
  split; [apply generated_length|].
  split; intros Hf He.
  - eapply Forall_impl;
      [apply (generated_Forall Float64 (config pv)
                (fun x => feq x (MinX (config pv))) (fun _ => True))|].
    + intros g0. now apply draw_zero_extent.
    + trivial.
    + now intros p [H _].
  - eapply Forall_impl;
      [apply (generated_Forall Float64 (config pv)
                (fun _ => True) (fun y => feq y (MinY (config pv))))|].
    + trivial.
    + intros g0. now apply draw_zero_extent.
    + now intros p [_ H].
Qed.

Lemma GeneratePoints_zero_extent_witness :
  exists pv' g',
    GeneratePoints script_Float64
      (with_config started
         (with_NumPoints 2
            (with_domain (F64.of_Z 7) (F64.of_Z 7) (F64.of_Z 0) (F64.of_Z 100)
                         defaultConfig))) [below_one; below_one] = Returned (pv', g') /\
    Forall (fun p => feq (X p) (F64.of_Z 7)) (points pv').
Proof.
  destruct (GeneratePoints_zero_extent script_Float64
              (with_config started
                 (with_NumPoints 2
                    (with_domain (F64.of_Z 7) (F64.of_Z 7) (F64.of_Z 0) (F64.of_Z 100)
                                 defaultConfig))) [below_one; below_one]
              script_unit_source) as (pv' & g' & H & _ & HX & _).
  - simpl. lia.
  - exists pv', g'. split; [exact H|]. apply HX; reflexivity.
Defined.

(** C10, counterexample: the bounds MinX = MaxX = +Inf compare equal, yet
    the X coordinate of the generated point is NaN and not MinX. *)
Lemma GeneratePoints_infinite_bounds :
  let cfg := with_NumPoints 1
               (with_domain (S754_infinity false) (S754_infinity false)
                            (F64.of_Z 0) (F64.of_Z 100) defaultConfig) in
  feq (MinX cfg) (MaxX cfg) /\
  exists pv' g' p,
    GeneratePoints script_Float64 (with_config started cfg) [] = Returned (pv', g') /\
    points pv' = [p] /\ X p = S754_nan /\ SFeqb (X p) (MinX cfg) = false.
Proof.
  split; [reflexivity|]. do 3 eexists.
  split; [vm_compute; reflexivity|]. repeat split.
Qed.

(** * Further properties: the controls, the sessions and the whole domain *)

(** ** Conversions between the number types *)

Section Conversions.
Variables prec emax : Z.
Hypothesis Hprec : 1 < prec.
Hypothesis Hemax : prec < emax.
Local Set Default Proof Using "Hprec Hemax".
Local Abbreviation emin := (emin prec emax).
Local Abbreviation fexp := (fexp prec emax).

(** A number [n * 2^e] with [n] of at most [prec] bits is not rounded. *)
Lemma round_dy_exact (n e : Z) :
  Z.abs n <= 2 ^ prec -> emin <= e -> e + prec <= emax ->
  round_dy prec emax n e = n * 2 ^ (e - emin).
Proof.
  intros Hn He1 He2.
  assert (Hp : 0 < 2 ^ prec) by (apply Z.pow_pos_nonneg; lia).
  assert (HT : 0 < 2 ^ (e - emin)) by (apply Z.pow_pos_nonneg; lia).
  assert (Hg : forall a, 0 < a -> a <= 2 ^ prec ->
                 round_grid prec emax a e = a * 2 ^ (e - emin)).
  { intros a Ha Hle. unfold round_grid, round_mant.
    assert (Htop : a * 2 ^ (e - emin) <= 2 ^ (emax - emin)).
    { apply Z.le_trans with (2 ^ prec * 2 ^ (e - emin)).
      - apply Z.mul_le_mono_nonneg_r; lia.
      - rewrite <- Z.pow_add_r by lia. apply Z.pow_le_mono_r; lia. }
    pose proof (Zdigits2_bounds a Ha) as [Hd1 Hd2].
    pose proof (Zdigits2_pos a Ha) as Hd0.
    pose proof (fexp_eq prec emax Hprec Hemax (Zdigits2 a + e)) as Ef.
    destruct (Z.eq_dec a (2 ^ prec)) as [->|Hne].
    - assert (Ed : Zdigits2 (2 ^ prec) = prec + 1).
      { apply Zdigits2_unique; [|lia].
        replace (prec + 1 - 1) with prec by lia. split; [lia|].
        apply Z.pow_lt_mono_r; lia. }
      rewrite Ed in *. replace (fexp (prec + 1 + e)) with (e + 1) in * by lia.
      destruct (Z.leb_spec (e + 1) e) as [|_]; [lia|].
      replace (e + 1 - e) with 1 by lia.
      assert (Er : rne_shift (2 ^ prec) 1 = 2 ^ (prec - 1)).
      { replace (2 ^ prec) with (2 ^ (prec - 1) * 2 ^ 1)
          by (rewrite <- Z.pow_add_r by lia; f_equal; lia).
        apply (rne_shift_exact prec emax Hprec Hemax). lia. }
      rewrite Er.
      replace (2 ^ (prec - 1) * 2 ^ (e + 1 - emin)) with (2 ^ prec * 2 ^ (e - emin))
        by (rewrite <- !Z.pow_add_r by lia; f_equal; lia).
      apply Z.min_r. assumption.
    - assert (Hd : Zdigits2 a <= prec).
      { destruct (Z_le_gt_dec (Zdigits2 a) prec) as [|Hgt]; [assumption|exfalso].
        assert (2 ^ prec <= 2 ^ (Zdigits2 a - 1)) by (apply Z.pow_le_mono_r; lia). lia. }
      set (f := fexp (Zdigits2 a + e)) in *.
      assert (Hf : emin <= f <= e) by lia. clearbody f.
      destruct (Z.leb_spec f e) as [_|]; [|lia].
      replace (a * 2 ^ (e - f) * 2 ^ (f - emin)) with (a * 2 ^ (e - emin)).
      + apply Z.min_r. assumption.
      + rewrite <- Z.mul_assoc, <- Z.pow_add_r by lia. do 2 f_equal. lia. }
  unfold round_dy.
  destruct (Z.lt_trichotomy n 0) as [H|[->|H]].
  - rewrite Z.sgn_neg, Z.abs_neq by lia. rewrite Hg by lia. lia.
  - reflexivity.
  - rewrite Z.sgn_pos, Z.abs_eq by lia. rewrite Hg by lia. lia.
Qed.

(** The integer part, from the value on the grid. *)
Lemma truncate_grid (x : spec_float) :
  valid_binary prec emax x = true -> is_finite x = true ->
  truncate x = Some (Z.quot (grid prec emax x) (2 ^ (- emin))).
Proof.
  intros V F.
  assert (Hm : emin < 0) by (unfold SpecFloat.emin; lia).
  assert (HT : 0 < 2 ^ (- emin)) by (apply Z.pow_pos_nonneg; lia).
  destruct x as [s| | |s m e]; try discriminate.
  - cbn [truncate grid]. now rewrite Z.quot_0_l by lia.
  - cbn [truncate valid_binary] in *.
    pose proof (bounded_inv prec emax Hprec Hemax m e V) as (_ & He & _).
    rewrite (grid_finite_eq prec emax Hprec Hemax). f_equal.
    assert (E : Z.quot (Z.pos m * 2 ^ (e - emin)) (2 ^ (- emin)) = Z.shiftl (Z.pos m) e).
    { assert (0 < 2 ^ (e - emin)) by (apply Z.pow_pos_nonneg; lia).
      rewrite Z.quot_div_nonneg by nia.
      destruct (Z_le_gt_dec 0 e) as [H0|H0].
      - rewrite Z.shiftl_mul_pow2 by lia.
        replace (e - emin) with (e + - emin) by lia.
        rewrite Z.pow_add_r, Z.mul_assoc by lia. apply Z.div_mul. lia.
      - rewrite Z.shiftl_div_pow2 by lia.
        replace (- emin) with (e - emin + - e) by lia.
        rewrite Z.pow_add_r by lia.
        assert (0 < 2 ^ (- e)) by (apply Z.pow_pos_nonneg; lia).
        rewrite (Z.mul_comm (Z.pos m)), Z.div_mul_cancel_l by lia. reflexivity. }
    destruct s; cbn [cond_Zopp].
    + rewrite Z.mul_opp_l, Z.quot_opp_l by lia. now rewrite E.
    + now rewrite E.
Qed.

End Conversions.

(** A finite number with a value between two finite ones. *)
Lemma finite_between32 (lo x hi : float32) :
  F32.valid lo = true -> F32.valid hi = true ->
  is_finite lo = true -> is_finite hi = true -> is_nan x = false ->
  grid F32.prec F32.emax lo <= grid F32.prec F32.emax x <= grid F32.prec F32.emax hi ->
  is_finite x = true.
Proof.
  intros Vlo Vhi Flo Fhi N H. destruct F32_format as [P32 E32].
  pose proof (grid_lt_top_of_finite F32.prec F32.emax P32 E32 lo Vlo Flo).
  pose proof (grid_lt_top_of_finite F32.prec F32.emax P32 E32 hi Vhi Fhi).
  apply (finite_of_grid F32.prec F32.emax P32 E32); [exact N|]. lia.
Qed.

Lemma finite_between64 (lo x hi : float64) :
  F64.valid lo = true -> F64.valid hi = true ->
  is_finite lo = true -> is_finite hi = true -> is_nan x = false ->
  grid F64.prec F64.emax lo <= grid F64.prec F64.emax x <= grid F64.prec F64.emax hi ->
  is_finite x = true.
Proof.
  intros Vlo Vhi Flo Fhi N H. destruct F64_format as [P64 E64].
  pose proof (grid_lt_top_of_finite F64.prec F64.emax P64 E64 lo Vlo Flo).
  pose proof (grid_lt_top_of_finite F64.prec F64.emax P64 E64 hi Vhi Fhi).
  apply (finite_of_grid F64.prec F64.emax P64 E64); [exact N|]. lia.
Qed.

(** [float64(n)] of an integer of at most 53 bits is [n]. *)
Lemma of_Z_exact (n : Z) :
  Z.abs n <= 2 ^ 53 ->
  F64.valid (F64.of_Z n) = true /\ is_finite (F64.of_Z n) = true /\
  grid F64.prec F64.emax (F64.of_Z n) = n * 2 ^ 1074.
Proof.
  intros Hn. destruct F64_format as [P64 E64].
  destruct (binary_normalize_spec F64.prec F64.emax P64 E64 n 0 false) as (V & N & G).
  fold (F64.of_Z n) in V, N, G.
  rewrite (round_dy_exact F64.prec F64.emax P64 E64) in G;
    [|assumption|unfold emin, F64.prec, F64.emax; lia|unfold F64.prec, F64.emax; lia].
  change (2 ^ (0 - emin F64.prec F64.emax)) with (2 ^ 1074) in G.
  split; [exact V|]. split; [|exact G].
  apply (finite_of_grid F64.prec F64.emax P64 E64); [exact N|]. rewrite G.
  change (2 ^ (F64.emax - emin F64.prec F64.emax)) with (2 ^ 1024 * 2 ^ 1074).
  assert (0 < 2 ^ 1074) by (apply Z.pow_pos_nonneg; lia).
  assert (2 ^ 53 < 2 ^ 1024) by (apply Z.pow_lt_mono_r; lia). nia.
Qed.

(** X1: [int(float64(n)) = n] for every integer [n] of at most 53 bits: the
    value with which the points slider is set converts back to the count. *)
Theorem int_of_float64_of_Z (int_overflow : float64 -> Z) (n : Z) :
  Z.abs n <= 2 ^ 53 -> int_of_float64 int_overflow (F64.of_Z n) = n.
Proof.
  intros Hn. destruct F64_format as [P64 E64].
  destruct (of_Z_exact n Hn) as (V & F & G).
  unfold int_of_float64.
  rewrite (truncate_grid F64.prec F64.emax P64 E64 _ V F), G.
  change (2 ^ (- emin F64.prec F64.emax)) with (2 ^ 1074).
  rewrite Z.quot_mul by (apply Z.pow_nonzero; lia).
  assert (Hf : fits_int n = true).
  { unfold fits_int. apply andb_true_intro.
    assert (2 ^ 53 < 2 ^ 63) by (apply Z.pow_lt_mono_r; lia).
    split; [apply Z.leb_le|apply Z.ltb_lt]; lia. }
  now rewrite Hf.
Qed.

Lemma int_of_float64_of_Z_witness :
  int_of_float64 amd64_int_overflow (F64.of_Z 30) = 30.
Proof. apply (int_of_float64_of_Z amd64_int_overflow 30). simpl. lia. Defined.

Lemma int_between (int_overflow : float64 -> Z) (v : float64) (a b : Z) :
  Z.abs a <= 2 ^ 53 -> Z.abs b <= 2 ^ 53 ->
  in_slider_range a b v = true ->
  is_finite v = true /\ a <= int_of_float64 int_overflow v <= b.
Proof.
  intros Ha Hb H. unfold in_slider_range in H.
  apply andb_prop in H as [H Lb]. apply andb_prop in H as [V La].
  destruct F64_format as [P64 E64].
  destruct (of_Z_exact a Ha) as (Va & Fa & Ga).
  destruct (of_Z_exact b Hb) as (Vb & Fb & Gb).
  destruct (SFleb_not_nan _ _ La) as [_ N].
  apply (SFleb_grid F64.prec F64.emax P64 E64) in La;
    [|assumption|assumption|now apply finite_not_nan|assumption].
  apply (SFleb_grid F64.prec F64.emax P64 E64) in Lb;
    [|assumption|assumption|assumption|now apply finite_not_nan].
  assert (F : is_finite v = true)
    by (apply (finite_between64 (F64.of_Z a) _ (F64.of_Z b)); try assumption; lia).
  split; [exact F|].
  rewrite Ga in La. rewrite Gb in Lb.
  assert (HT : 0 < 2 ^ 1074) by (apply Z.pow_pos_nonneg; lia).
  assert (H53 : 2 ^ 53 < 2 ^ 63) by (apply Z.pow_lt_mono_r; lia).
  unfold int_of_float64.
  rewrite (truncate_grid F64.prec F64.emax P64 E64 _ V F).
  change (2 ^ (- emin F64.prec F64.emax)) with (2 ^ 1074).
  set (z := Z.quot (grid F64.prec F64.emax v) (2 ^ 1074)).
  assert (Hz : a <= z <= b).
  { unfold z. split.
    - apply Z.le_trans with (Z.quot (a * 2 ^ 1074) (2 ^ 1074));
        [rewrite Z.quot_mul by lia; lia|apply Z.quot_le_mono; lia].
    - apply Z.le_trans with (Z.quot (b * 2 ^ 1074) (2 ^ 1074));
        [apply Z.quot_le_mono; lia|rewrite Z.quot_mul by lia; lia]. }
  assert (Hf : fits_int z = true).
  { unfold fits_int. apply andb_true_intro.
    split; [apply Z.leb_le|apply Z.ltb_lt]; lia. }
  now rewrite Hf.
Qed.

(** X2: the conversion [int(v)] keeps integer bounds: a number between the
    integers [a] and [b] (of at most 53 bits) is truncated to an integer
    between [a] and [b]. *)
Theorem int_of_float64_between (int_overflow : float64 -> Z) (v : float64) (a b : Z) :
  F64.valid v = true -> Z.abs a <= 2 ^ 53 -> Z.abs b <= 2 ^ 53 ->
  F64.leb (F64.of_Z a) v = true -> F64.leb v (F64.of_Z b) = true ->
  a <= int_of_float64 int_overflow v <= b.
Proof.
  intros V Ha Hb La Lb. apply int_between; try assumption.
  unfold in_slider_range. now rewrite V, La, Lb.
Qed.

Lemma int_of_float64_between_witness :
  5 <= int_of_float64 amd64_int_overflow (F64.scaled 251 (-1)) <= 200.
Proof.
  apply (int_of_float64_between amd64_int_overflow (F64.scaled 251 (-1)) 5 200);
    try reflexivity; simpl; lia.
Defined.

(** A float32 is a float64: the conversion is exact. *)
Lemma float64_of_float32_exact (s : bool) (m : positive) (e : Z) :
  bounded F32.prec F32.emax m e = true ->
  let y := float64_of_float32 (S754_finite s m e) in
  F64.valid y = true /\ is_finite y = true /\
  grid F64.prec F64.emax y = cond_Zopp s (Z.pos m) * 2 ^ (e + 1074).
Proof.
  intros B y. destruct F64_format as [P64 E64]. destruct F32_format as [P32 E32].
  pose proof (bounded_inv F32.prec F32.emax P32 E32 m e B) as (_ & He & _).
  pose proof (bounded_lt_pow F32.prec F32.emax P32 E32 m e B) as Hm.
  unfold emin, F32.prec, F32.emax in He, Hm.
  destruct (binary_round_spec F64.prec F64.emax P64 E64 s m e) as (V & N & G).
  change (binary_round F64.prec F64.emax s m e) with y in V, N, G.
  assert (H24 : 2 ^ 24 < 2 ^ 53) by (apply Z.pow_lt_mono_r; lia).
  rewrite (round_dy_exact F64.prec F64.emax P64 E64) in G;
    [|destruct s; cbn [cond_Zopp]; unfold F64.prec; lia
     |unfold emin, F64.prec, F64.emax; lia|unfold F64.prec, F64.emax; lia].
  replace (e - emin F64.prec F64.emax) with (e + 1074) in G
    by (unfold emin, F64.prec, F64.emax; lia).
  split; [exact V|]. split; [|exact G].
  apply (finite_of_grid F64.prec F64.emax P64 E64); [exact N|]. rewrite G.
  change (2 ^ (F64.emax - emin F64.prec F64.emax)) with (2 ^ 2098).
  assert (Hp : 0 < 2 ^ (e + 1074)) by (apply Z.pow_pos_nonneg; lia).
  assert (Hq : 2 ^ 53 * 2 ^ (e + 1074) <= 2 ^ 2098).
  { rewrite <- Z.pow_add_r by lia. apply Z.pow_le_mono_r; lia. }
  destruct s; cbn [cond_Zopp]; nia.
Qed.

(** X3: [float32(float64(x)) = x] for every float32 [x]: the value with
    which the size slider is set converts back to the point size. *)
Theorem float32_of_float64_of_float32 (x : float32) :
  F32.valid x = true -> F32.of_f64 (float64_of_float32 x) = x.
Proof.
  intros V. destruct F64_format as [P64 E64]. destruct F32_format as [P32 E32].
  destruct x as [s|s| |s m e]; try reflexivity.
  cbn [F32.valid valid_binary] in V. unfold F32.valid in V. cbn [valid_binary] in V.
  destruct (float64_of_float32_exact s m e V) as (Vy & Fy & Gy).
  set (y := float64_of_float32 (S754_finite s m e)) in *.
  destruct (of_f64_spec y Vy Fy) as (Vz & Nz & Gz).
  pose proof (bounded_inv F32.prec F32.emax P32 E32 m e V) as (_ & He & _).
  unfold emin, F32.prec, F32.emax in He.
  rewrite Gy in Gz.
  change (emin F64.prec F64.emax) with (-1074) in Gz.
  replace (-1074) with (e - (e + 1074)) in Gz by lia.
  rewrite (round_dy_scale F32.prec F32.emax P32 E32) in Gz by lia.
  destruct (binary_round_spec F32.prec F32.emax P32 E32 s m e) as (_ & _ & Gx).
  rewrite (binary_round_id F32.prec F32.emax P32 E32 s m e V) in Gx.
  rewrite <- Gx in Gz.
  assert (Heq : SFeqb (S754_finite s m e) (F32.of_f64 y) = true).
  { unfold SFeqb.
    rewrite (SFcompare_grid F32.prec F32.emax P32 E32); try assumption; try reflexivity.
    now rewrite Gz, Z.compare_refl. }
  destruct (SFeqb_finite_inv (S754_finite s m e) (F32.of_f64 y) eq_refl Heq)
    as [[H _]|[_ H]]; [discriminate|exact H].
Qed.

Lemma float32_of_float64_of_float32_witness :
  F32.of_f64 (float64_of_float32 (F32.of_Z 6)) = F32.of_Z 6.
Proof. apply (float32_of_float64_of_float32 (F32.of_Z 6)). reflexivity. Defined.

(** ** The mapping on the whole domain *)

(** A distance between zero and the largest one is placed between the
    padding and the place of the largest; no overflow on the way. *)
Lemma centre_between (d dmax : float64) (s : float32) :
  F64.valid d = true -> F64.valid dmax = true -> F32.valid s = true ->
  is_finite d = true ->
  (is_finite s = true -> 0 <= grid F32.prec F32.emax s) ->
  0 <= grid F64.prec F64.emax d <= grid F64.prec F64.emax dmax ->
  is_finite (F32.add padding (F32.mul (F32.of_f64 dmax) s)) = true ->
  is_finite (F32.add padding (F32.mul (F32.of_f64 d) s)) = true /\
  grid F32.prec F32.emax padding
  <= grid F32.prec F32.emax (F32.add padding (F32.mul (F32.of_f64 d) s))
  <= grid F32.prec F32.emax (F32.add padding (F32.mul (F32.of_f64 dmax) s)).
Proof.
  intros Vd Vm Vs Fd Hs [Hd0 Hdm] Fmax.
  destruct F32_format as [P32 E32]. destruct F64_format as [P64 E64].
  destruct padding_ok as [Vp Fp].
  pose proof Fmax as F'. apply SFadd_finite_inv in F' as [_ Fbm].
  pose proof Fbm as F'. apply SFmul_finite_inv in F' as [Fam Fs].
  pose proof (of_f64_finite_inv _ Fam) as Fdm.
  specialize (Hs Fs).
  (* the conversion *)
  destruct (of_f64_spec d Vd Fd) as (Va & Na & _).
  pose proof (of_f64_valid dmax Vm) as Vam.
  pose proof (of_f64_mono d dmax Vd Vm Fd Fdm Hdm) as Ha.
  pose proof (of_f64_nonneg d Vd (finite_not_nan _ Fd) Hd0) as Ha0.
  assert (Fa : is_finite (F32.of_f64 d) = true).
  { apply (finite_between32 (S754_zero false) _ (F32.of_f64 dmax));
      try assumption; try reflexivity. split; [exact Ha0|exact Ha]. }
  (* the product *)
  destruct (SFmul_spec F32.prec F32.emax P32 E32 _ _ Va Vs Fa Fs) as (Vb & Nb & _).
  pose proof (SFmul_valid F32.prec F32.emax P32 E32 _ _ Vam Vs) as Vbm.
  pose proof (SFmul_mono_l F32.prec F32.emax P32 E32 _ _ s Vs Va Vam Fs Fa Fam Hs Ha) as Hb.
  pose proof (SFmul_nonneg F32.prec F32.emax P32 E32 _ s Vs Va Fs Fa Hs Ha0) as Hb0.
  assert (Fb : is_finite (F32.mul (F32.of_f64 d) s) = true).
  { apply (finite_between32 (S754_zero false) _ (F32.mul (F32.of_f64 dmax) s));
      try assumption; try reflexivity. split; [exact Hb0|exact Hb]. }
  (* the sum *)
  destruct (SFadd_spec F32.prec F32.emax P32 E32 padding _ Vp Vb Fp Fb) as (Vc & Nc & _).
  pose proof (SFadd_valid F32.prec F32.emax P32 E32 _ _ Vp Vbm) as Vcm.
  pose proof (SFadd_mono_r F32.prec F32.emax P32 E32 padding _ _ Vp Vb Vbm Fp Fb Fbm Hb) as Hc.
  pose proof (SFadd_mono_r F32.prec F32.emax P32 E32 padding (S754_zero false) _
                Vp eq_refl Vb Fp eq_refl Fb Hb0) as Hc0.
  change (SFadd F32.prec F32.emax padding (S754_zero false)) with padding in Hc0.
  split; [|split; [exact Hc0|exact Hc]].
  apply (finite_between32 padding _ (F32.add padding (F32.mul (F32.of_f64 dmax) s)));
    try assumption. split; [exact Hc0|exact Hc].
Qed.

Lemma axis_inside (extent : float32) (lo hi d : float64) :
  F32.valid extent = true -> F64.valid lo = true -> F64.valid hi = true ->
  F64.valid d = true -> is_finite d = true ->
  F64.leb lo hi = true ->
  F32.ltb (F32.mul (F32.of_Z 2) padding) extent = true ->
  0 <= grid F64.prec F64.emax d <= grid F64.prec F64.emax (F64.sub hi lo) ->
  let s := F32.div (F32.sub extent (F32.mul (F32.of_Z 2) padding))
                   (F32.of_f64 (F64.sub hi lo)) in
  is_finite (F32.add padding (F32.mul (F32.of_f64 (F64.sub hi lo)) s)) = true ->
  is_finite (F32.add padding (F32.mul (F32.of_f64 d) s)) = true /\
  fle padding (F32.add padding (F32.mul (F32.of_f64 d) s)) /\
  within_rounding (F32.add padding (F32.mul (F32.of_f64 d) s)) extent padding.
Proof.
  intros Ve Vlo Vhi Vd Fd Hle Hs Hd s Fmax.
  destruct F32_format as [P32 E32]. destruct F64_format as [P64 E64].
  destruct padding_ok as [Vp Fp].
  destruct (scale_ok extent lo hi Ve Vlo Vhi Hle Hs) as [Vs Hs0]. fold s in Vs, Hs0.
  pose proof (SFsub_valid F64.prec F64.emax P64 E64 _ _ Vhi Vlo) as Vm.
  destruct (centre_between d (F64.sub hi lo) s Vd Vm Vs Fd Hs0 Hd Fmax) as (F & H1 & H2).
  pose proof (far_side extent lo hi Ve Vlo Vhi Hle Hs Fmax) as Hfar. fold s in Hfar.
  split; [exact F|]. split.
  - unfold fle. apply (SFleb_grid F32.prec F32.emax P32 E32); try assumption.
    + apply (SFadd_valid F32.prec F32.emax P32 E32); [assumption|].
      apply (SFmul_valid F32.prec F32.emax P32 E32); [|assumption].
      now apply of_f64_valid.
    + now apply finite_not_nan.
    + now apply finite_not_nan.
  - unfold within_rounding in *.
    eapply Z.le_trans; [|exact Hfar]. apply Z.mul_le_mono_nonneg_r; [|exact H2].
    apply Z.pow_nonneg. lia.
Qed.

(** X4: every point of the closed domain, not only its corners, is mapped
    (ignoring the half-size offset) to a finite position with
    padding <= px <= (width - padding) * (1 + 2^-20) and
    padding <= py <= (height - padding) * (1 + 2^-20), for every valid
    domain and surface of well-formed numbers on which the far corner
    (maxX, minY) is mapped to a finite position. *)
Theorem domain_mapped_inside (cfg : GUIConfig) (p : Point) :
  wf_config cfg = true -> wf_point p = true ->
  valid_domain cfg = true -> valid_surface cfg = true ->
  in_closed_domain cfg p = true ->
  is_finite (centreX cfg {| X := MaxX cfg; Y := MinY cfg |}) = true ->
  is_finite (centreY cfg {| X := MaxX cfg; Y := MinY cfg |}) = true ->
  is_finite (centreX cfg p) = true /\ is_finite (centreY cfg p) = true /\
  fle padding (centreX cfg p) /\ fle padding (centreY cfg p) /\
  within_rounding (centreX cfg p) (CanvasWidth cfg) padding /\
  within_rounding (centreY cfg p) (CanvasHeight cfg) padding.
Proof.
  intros Wc Wp Hdom Hsurf Hin FX FY.
  destruct F32_format as [P32 E32]. destruct F64_format as [P64 E64].
  apply wf_config_inv in Wc as (VminX & VmaxX & VminY & VmaxY & VW & VH & VS).
  apply andb_prop in Wp as [Vx Vy].
  apply andb_prop in Hdom as [HdX HdY]. apply andb_prop in Hsurf as [HsX HsY].
  apply andb_prop in Hin as [HinX HinY].
  apply andb_prop in HinX as [Lx Ux]. apply andb_prop in HinY as [Ly Uy].
  apply SFltb_SFleb in HdX, HdY.
  unfold centreX, centreY, scaleX, scaleY in *. cbn [X Y] in FX, FY.
  (* the bounds and the coordinates are finite *)
  pose proof FX as F'. apply SFadd_finite_inv in F' as [_ F'].
  apply SFmul_finite_inv in F' as [F' _]. apply of_f64_finite_inv in F'.
  pose proof F' as FwX. apply SFsub_finite_inv in F' as [FmaxX FminX].
  pose proof FY as F'. apply SFadd_finite_inv in F' as [_ F'].
  apply SFmul_finite_inv in F' as [F' _]. apply of_f64_finite_inv in F'.
  pose proof F' as FwY. apply SFsub_finite_inv in F' as [FmaxY FminY].
  destruct (SFleb_not_nan _ _ Lx) as [_ Nx]. destruct (SFleb_not_nan _ _ Ly) as [_ Ny].
  pose proof (proj1 (SFleb_grid F64.prec F64.emax P64 E64 _ _ VminX Vx
                       (finite_not_nan _ FminX) Nx) Lx) as GLx.
  pose proof (proj1 (SFleb_grid F64.prec F64.emax P64 E64 _ _ Vx VmaxX
                       Nx (finite_not_nan _ FmaxX)) Ux) as GUx.
  pose proof (proj1 (SFleb_grid F64.prec F64.emax P64 E64 _ _ VminY Vy
                       (finite_not_nan _ FminY) Ny) Ly) as GLy.
  pose proof (proj1 (SFleb_grid F64.prec F64.emax P64 E64 _ _ Vy VmaxY
                       Ny (finite_not_nan _ FmaxY)) Uy) as GUy.
  assert (Fx : is_finite (X p) = true)
    by (apply (finite_between64 (MinX cfg) _ (MaxX cfg)); try assumption; lia).
  assert (Fy : is_finite (Y p) = true)
    by (apply (finite_between64 (MinY cfg) _ (MaxY cfg)); try assumption; lia).
  pose proof (SFsub_valid F64.prec F64.emax P64 E64 _ _ VmaxX VminX) as VwX.
  pose proof (SFsub_valid F64.prec F64.emax P64 E64 _ _ VmaxY VminY) as VwY.
  (* the distance on X *)
  destruct (SFsub_spec F64.prec F64.emax P64 E64 (X p) (MinX cfg) Vx VminX Fx FminX)
    as (VdX & NdX & _).
  pose proof (SFsub_nonneg F64.prec F64.emax P64 E64 _ _ Vx VminX Lx NdX) as HdX0.
  pose proof (SFsub_mono_l F64.prec F64.emax P64 E64 (X p) (MaxX cfg) (MinX cfg)
                VminX Vx VmaxX FminX Fx FmaxX GUx) as HdX1.
  assert (FdX : is_finite (F64.sub (X p) (MinX cfg)) = true).
  { apply (finite_between64 (S754_zero false) _ (F64.sub (MaxX cfg) (MinX cfg)));
      try assumption; try reflexivity. split; assumption. }
  (* the distance on Y *)
  destruct (SFsub_spec F64.prec F64.emax P64 E64 (MaxY cfg) (Y p) VmaxY Vy FmaxY Fy)
    as (VdY & NdY & _).
  pose proof (SFsub_nonneg F64.prec F64.emax P64 E64 _ _ VmaxY Vy Uy NdY) as HdY0.
  pose proof (SFsub_anti_r F64.prec F64.emax P64 E64 (MaxY cfg) (MinY cfg) (Y p)
                VmaxY VminY Vy FmaxY FminY Fy GLy) as HdY1.
  assert (FdY : is_finite (F64.sub (MaxY cfg) (Y p)) = true).
  { apply (finite_between64 (S754_zero false) _ (F64.sub (MaxY cfg) (MinY cfg)));
      try assumption; try reflexivity. split; assumption. }
  destruct (axis_inside (CanvasWidth cfg) (MinX cfg) (MaxX cfg) (F64.sub (X p) (MinX cfg)))
    as (R1 & R2 & R3); try assumption; [split; assumption|].
  destruct (axis_inside (CanvasHeight cfg) (MinY cfg) (MaxY cfg) (F64.sub (MaxY cfg) (Y p)))
    as (S1 & S2 & S3); try assumption; [split; assumption|].
  repeat split; assumption.
Qed.

Lemma domain_mapped_inside_witness :
  fle padding (centreX defaultConfig {| X := F64.of_Z 50; Y := F64.of_Z 25 |}) /\
  within_rounding (centreY defaultConfig {| X := F64.of_Z 50; Y := F64.of_Z 25 |})
                  (CanvasHeight defaultConfig) padding.
Proof.
  destruct (domain_mapped_inside defaultConfig {| X := F64.of_Z 50; Y := F64.of_Z 25 |}
              eq_refl eq_refl eq_refl eq_refl eq_refl eq_refl eq_refl)
    as (_ & _ & H1 & _ & _ & H2).
  split; [exact H1|exact H2].
Defined.

(** X5: the X mapping is monotone.  For well-formed numbers, a valid domain
    and a valid surface, of two points with p1.x < p2.x whose canvas X are
    finite, the second is mapped to a canvas X that is larger or the same:
    px(p1) <= px(p2). *)
Theorem canvasX_monotone (cfg : GUIConfig) (p1 p2 : Point) :
  wf_config cfg = true -> wf_point p1 = true -> wf_point p2 = true ->
  valid_domain cfg = true -> valid_surface cfg = true ->
  flt (X p1) (X p2) ->
  is_finite (canvasX cfg p1) = true -> is_finite (canvasX cfg p2) = true ->
  fle (canvasX cfg p1) (canvasX cfg p2).
Proof.
  intros Wc W1 W2 Hdom Hsurf Hx F1 F2.
  destruct F32_format as [P32 E32]. destruct F64_format as [P64 E64].
  apply wf_config_inv in Wc as (VminX & VmaxX & VminY & VmaxY & VW & VH & VS).
  apply andb_prop in W1 as [Vx1 _]. apply andb_prop in W2 as [Vx2 _].
  apply andb_prop in Hdom as [HdX _]. apply andb_prop in Hsurf as [HsX _].
  unfold canvasX in *.
  destruct (place_parts _ _ _ F1) as (Fd1 & Fs & Fh & _).
  destruct (place_parts _ _ _ F2) as (Fd2 & _).
  destruct (scale_ok (CanvasWidth cfg) (MinX cfg) (MaxX cfg)) as [Vs Hs];
    try assumption; [now apply SFltb_SFleb|]. fold (scaleX cfg) in Vs, Hs.
  apply SFsub_finite_inv in Fd1 as [Fx1 Fm]. apply SFsub_finite_inv in Fd2 as [Fx2 _].
  apply place_mono; try assumption.
  - now apply (SFsub_valid F64.prec F64.emax P64 E64).
  - now apply (SFsub_valid F64.prec F64.emax P64 E64).
  - apply (SFdiv_valid F32.prec F32.emax P32 E32); [assumption|reflexivity].
  - now apply Hs.
  - apply (SFsub_mono_l F64.prec F64.emax P64 E64); try assumption.
    apply Z.lt_le_incl.
    apply (SFltb_grid F64.prec F64.emax P64 E64); try assumption;
      now apply finite_not_nan.
Qed.

Lemma canvasX_monotone_witness :
  fle (canvasX defaultConfig {| X := F64.of_Z 25; Y := F64.of_Z 50 |})
      (canvasX defaultConfig {| X := F64.of_Z 75; Y := F64.of_Z 50 |}).
Proof.
  apply (canvasX_monotone defaultConfig {| X := F64.of_Z 25; Y := F64.of_Z 50 |}
                          {| X := F64.of_Z 75; Y := F64.of_Z 50 |}); reflexivity.
Defined.

(** ** Redrawing *)

Lemma UpdateCanvas_up_to_date (pv : PointVisualizer) (c : Container) :
  canvas pv = Some c ->
  exists pv', UpdateCanvas pv = Returned pv' /\
              config pv' = config pv /\ points pv' = points pv /\ up_to_date pv'.
Proof.
  intros Hc. eexists. split; [apply (UpdateCanvas_returns pv c Hc)|].
  repeat split.
Qed.

(** X6: a redraw replaces what the canvas held.  With the canvas created,
    [UpdateCanvas] returns a visualizer that depends on the configuration and
    the points only, not on the objects drawn before, and drawing again
    changes nothing. *)
Theorem UpdateCanvas_idempotent (pv : PointVisualizer) (c : Container) :
  canvas pv = Some c ->
  exists pv',
    UpdateCanvas pv = Returned pv' /\ UpdateCanvas pv' = Returned pv' /\
    forall pv2 c2, canvas pv2 = Some c2 -> config pv2 = config pv ->
                   points pv2 = points pv -> UpdateCanvas pv2 = Returned pv'.
Proof.
  intros Hc. eexists. split; [apply (UpdateCanvas_returns pv c Hc)|]. split.
  - erewrite UpdateCanvas_returns by reflexivity. reflexivity.
  - intros pv2 c2 Hc2 Ec Ep. rewrite (UpdateCanvas_returns pv2 c2 Hc2), Ec, Ep.
    reflexivity.
Qed.

Lemma UpdateCanvas_idempotent_witness :
  exists pv', UpdateCanvas started = Returned pv' /\ UpdateCanvas pv' = Returned pv'.
Proof.
  destruct (UpdateCanvas_idempotent started {| Objects := [] |} eq_refl)
    as (pv' & H1 & H2 & _).
  exists pv'. split; assumption.
Defined.

Lemma map_recolour (cfg : GUIConfig) (c : Color) (pts : list Point) :
  map (circle (set_PointColor c cfg)) pts = map (recolour c) (map (circle cfg) pts).
Proof.
  induction pts as [|p pts IH]; [reflexivity|]. cbn [map]. now rewrite IH.
Qed.

(** X7: a colour button changes the fill colour and nothing else.  On an
    up-to-date canvas the tap returns, sets [PointColor] only, and every
    circle is drawn again at its position and with its size, filled with the
    colour of the button; the points are the same. *)
Theorem colorBtn_recolours_only (b : ColorButton) (pv : PointVisualizer) :
  up_to_date pv ->
  exists pv',
    colorBtn_OnTapped b pv = Returned pv' /\
    config pv' = set_PointColor (button_color b) (config pv) /\
    points pv' = points pv /\
    pointObjects pv' = map (recolour (button_color b)) (pointObjects pv) /\
    up_to_date pv'.
Proof.
  intros [Ho Hc]. unfold colorBtn_OnTapped.
  eexists. split; [eapply UpdateCanvas_returns; exact Hc|].
  cbn [config points pointObjects with_config].
  split; [reflexivity|]. split; [reflexivity|]. split.
  - rewrite Ho. apply map_recolour.
  - split; reflexivity.
Qed.

Lemma colorBtn_recolours_only_witness :
  exists pv',
    colorBtn_OnTapped redBtn (displayed [{| X := F64.of_Z 50; Y := F64.of_Z 50 |}])
    = Returned pv' /\
    PointColor (config pv') = RGBA 255 99 71 255.
Proof.
  destruct (colorBtn_recolours_only redBtn
              (displayed [{| X := F64.of_Z 50; Y := F64.of_Z 50 |}]))
    as (pv' & H & Hc & _).
  - split; reflexivity.
  - exists pv'. split; [exact H|]. now rewrite Hc.
Defined.

(** X8: the size slider does not redraw.  Its callback sets [PointSize] to
    [float32(value)] and leaves points and canvas as they are, so on an
    up-to-date canvas with at least one point a new size leaves the canvas
    out of date, the circles still having the previous size. *)
Theorem sizeSlider_leaves_canvas_stale (value : float64) (pv : PointVisualizer) :
  up_to_date pv -> points pv <> [] ->
  F32.of_f64 value <> PointSize (config pv) ->
  let pv' := sizeSlider_OnChanged value pv in
  config pv' = set_PointSize (F32.of_f64 value) (config pv) /\
  points pv' = points pv /\ canvas pv' = canvas pv /\
  pointObjects pv' = pointObjects pv /\
  in_sync pv' /\ ~ up_to_date pv'.
Proof.
  intros [Ho Hc] Hne Hs pv'. repeat split.
  - exists (PointSize (config pv)). split; [exact Ho|exact Hc].
  - intros [Ho' _]. cbn [pv' sizeSlider_OnChanged with_config pointObjects points config] in Ho'.
    rewrite Ho in Ho'. destruct (points pv) as [|p pts]; [now apply Hne|].
    cbn [map] in Ho'. injection Ho' as E _. unfold circle in E.
    cbn [PointSize set_PointSize] in E. apply Hs. congruence.
Qed.

Lemma sizeSlider_leaves_canvas_stale_witness :
  ~ up_to_date (sizeSlider_OnChanged (F64.of_Z 10)
                  (displayed [{| X := F64.of_Z 50; Y := F64.of_Z 50 |}])).
Proof.
  apply (sizeSlider_leaves_canvas_stale (F64.of_Z 10)
           (displayed [{| X := F64.of_Z 50; Y := F64.of_Z 50 |}])).
  - split; reflexivity.
  - discriminate.
  - vm_compute. discriminate.
Defined.

(** ** The numbers drawn by a generation *)

Section Draws.
Context {RandSource : Type}.
Variable Float64 : RandSource -> float64 * RandSource.

Lemma advance_succ (k : nat) (g : RandSource) :
  advance Float64 (S k) g = advance Float64 k (Float64 g).2.
Proof. unfold advance. exact (Nat.iter_succ_r k (fun g => (Float64 g).2) g). Qed.

Lemma draw_fst (lo hi : float64) (g : RandSource) :
  (draw Float64 lo hi g).1 = F64.add lo (F64.mul (Float64 g).1 (F64.sub hi lo)).
Proof. unfold draw. now destruct (Float64 g). Qed.

Lemma draw_snd (lo hi : float64) (g : RandSource) :
  (draw Float64 lo hi g).2 = (Float64 g).2.
Proof. unfold draw. now destruct (Float64 g). Qed.

Lemma generated_cons (cfg : GUIConfig) (k : nat) (g : RandSource) :
  generated Float64 cfg (S k) g =
  ({| X := (draw Float64 (MinX cfg) (MaxX cfg) g).1;
      Y := (draw Float64 (MinY cfg) (MaxY cfg) (Float64 g).2).1 |}
   :: (generated Float64 cfg k (advance Float64 2 g)).1,
   (generated Float64 cfg k (advance Float64 2 g)).2).
Proof.
  cbn [generated].
  destruct (draw Float64 (MinX cfg) (MaxX cfg) g) as [x g1] eqn:E1.
  pose proof (draw_snd (MinX cfg) (MaxX cfg) g) as S1. rewrite E1 in S1. cbn in S1. subst g1.
  destruct (draw Float64 (MinY cfg) (MaxY cfg) (Float64 g).2) as [y g2] eqn:E2.
  pose proof (draw_snd (MinY cfg) (MaxY cfg) (Float64 g).2) as S2.
  rewrite E2 in S2. cbn in S2. subst g2.
  change (advance Float64 2 g) with (Float64 (Float64 g).2).2.
  now destruct (generated Float64 cfg k (Float64 (Float64 g).2).2).
Qed.

Lemma generated_source (cfg : GUIConfig) (k : nat) :
  forall g, (generated Float64 cfg k g).2 = advance Float64 (2 * k) g.
Proof.
  induction k as [|k IH]; intros g; [reflexivity|].
  rewrite generated_cons. cbn [snd]. rewrite IH.
  replace (2 * S k)%nat with (S (S (2 * k))) by lia.
  now rewrite !advance_succ.
Qed.

Lemma generated_lookup (cfg : GUIConfig) (k : nat) :
  forall i g, (i < k)%nat ->
    (generated Float64 cfg k g).1 !! i =
    Some {| X := F64.add (MinX cfg)
                   (F64.mul (nth_draw Float64 (2 * i) g) (F64.sub (MaxX cfg) (MinX cfg)));
            Y := F64.add (MinY cfg)
                   (F64.mul (nth_draw Float64 (2 * i + 1) g)
                            (F64.sub (MaxY cfg) (MinY cfg))) |}.
Proof.
  induction k as [|k IH]; intros i g Hi; [lia|].
  rewrite generated_cons. cbn [fst]. destruct i as [|i].
  - cbn [lookup list_lookup]. rewrite !draw_fst. reflexivity.
  - cbn [lookup list_lookup].
    change ((generated Float64 cfg k (advance Float64 2 g)).1 !! i) with
      (lookup i (generated Float64 cfg k (advance Float64 2 g)).1).
    rewrite IH by lia. unfold nth_draw.
    replace (2 * S i)%nat with (S (S (2 * i))) by lia.
    replace (S (S (2 * i)) + 1)%nat with (S (S (2 * i + 1))) by lia.
    rewrite !advance_succ. reflexivity.
Qed.

(** X9: a generation of n points draws exactly 2n numbers from the source,
    in order: the point of index i takes its X from the draw number 2i and
    its Y from the draw number 2i+1, each as [min + r * (max - min)], and
    the points held before are dropped. *)
Theorem GeneratePoints_draw_order (pv : PointVisualizer) (g : RandSource) :
  0 <= NumPoints (config pv) ->
  exists pv',
    GeneratePoints Float64 pv g =
      Returned (pv', advance Float64 (2 * Z.to_nat (NumPoints (config pv))) g) /\
    length (points pv') = Z.to_nat (NumPoints (config pv)) /\
    forall i, (i < Z.to_nat (NumPoints (config pv)))%nat ->
      points pv' !! i =
      Some {| X := F64.add (MinX (config pv))
                     (F64.mul (nth_draw Float64 (2 * i) g)
                              (F64.sub (MaxX (config pv)) (MinX (config pv))));
              Y := F64.add (MinY (config pv))
                     (F64.mul (nth_draw Float64 (2 * i + 1) g)
                              (F64.sub (MaxY (config pv)) (MinY (config pv)))) |}.
Proof.
  intros Hn. eexists. split; [|split].
  - rewrite (GeneratePoints_returns Float64 pv g Hn), generated_source. reflexivity.
  - apply generated_length.
  - intros i Hi. cbn [points]. now apply generated_lookup.
Qed.

End Draws.

Lemma GeneratePoints_draw_order_witness :
  exists pv',
    GeneratePoints script_Float64 started [below_one; S754_zero false] =
      Returned (pv', advance script_Float64 (2 * 30) [below_one; S754_zero false]) /\
    length (points pv') = 30%nat.
Proof.
  destruct (GeneratePoints_draw_order script_Float64 started [below_one; S754_zero false])
    as (pv' & H & L & _).
  - simpl. lia.
  - exists pv'. split; [exact H|exact L].
Defined.

(** ** Sessions *)

(** The point size that the size slider can set. *)
Lemma size_between (v : float64) :
  in_slider_range 2 15 v = true ->
  fle (F32.of_Z 2) (F32.of_f64 v) /\ fle (F32.of_f64 v) (F32.of_Z 15).
Proof.
  intros H. destruct (int_between amd64_int_overflow v 2 15) as [F _];
    [simpl; lia|simpl; lia|exact H|].
  unfold in_slider_range in H.
  apply andb_prop in H as [H Lb]. apply andb_prop in H as [V La].
  destruct F64_format as [P64 E64]. destruct F32_format as [P32 E32].
  apply (SFleb_grid F64.prec F64.emax P64 E64) in La;
    [|reflexivity|assumption|reflexivity|now apply finite_not_nan].
  apply (SFleb_grid F64.prec F64.emax P64 E64) in Lb;
    [|assumption|reflexivity|now apply finite_not_nan|reflexivity].
  destruct (of_f64_spec v V F) as (Vz & Nz & _).
  pose proof (of_f64_mono (F64.of_Z 2) v eq_refl V eq_refl F La) as H2.
  pose proof (of_f64_mono v (F64.of_Z 15) V eq_refl F eq_refl Lb) as H15.
  change (F32.of_f64 (F64.of_Z 2)) with (F32.of_Z 2) in H2.
  change (F32.of_f64 (F64.of_Z 15)) with (F32.of_Z 15) in H15.
  split; unfold fle; apply (SFleb_grid F32.prec F32.emax P32 E32);
    try assumption; reflexivity.
Qed.

Section Sessions.
Context {RandSource : Type}.
Variable Float64 : RandSource -> float64 * RandSource.
Variable ParseFloat : string -> option float64.
Variable int_overflow : float64 -> Z.

(** The generate button sets the domain only. *)
Lemma entries_keep (en : Entries) (c : GUIConfig) :
  let c' := update_from ParseFloat (yMaxEntry en) set_MaxY
              (update_from ParseFloat (yMinEntry en) set_MinY
                 (update_from ParseFloat (xMaxEntry en) set_MaxX
                    (update_from ParseFloat (xMinEntry en) set_MinX c))) in
  NumPoints c' = NumPoints c /\ CanvasWidth c' = CanvasWidth c /\
  CanvasHeight c' = CanvasHeight c /\ PointSize c' = PointSize c /\
  PointColor c' = PointColor c.
Proof.
  unfold update_from.
  destruct (ParseFloat (xMinEntry en)), (ParseFloat (xMaxEntry en)),
    (ParseFloat (yMinEntry en)), (ParseFloat (yMaxEntry en)); repeat split.
Qed.

Lemma generateBtn_returns (en : Entries) (pv : PointVisualizer) (g : RandSource)
      (c : Container) :
  canvas pv = Some c -> 0 <= NumPoints (config pv) ->
  exists pv' g',
    generateBtn_OnTapped Float64 ParseFloat en pv g = Returned (pv', g') /\
    up_to_date pv' /\ generated_under Float64 pv' /\
    NumPoints (config pv') = NumPoints (config pv) /\
    CanvasWidth (config pv') = CanvasWidth (config pv) /\
    CanvasHeight (config pv') = CanvasHeight (config pv) /\
    PointSize (config pv') = PointSize (config pv) /\
    PointColor (config pv') = PointColor (config pv).
Proof.
  intros Hc Hn. unfold generateBtn_OnTapped.
  destruct (entries_keep en (config pv)) as (E1 & E2 & E3 & E4 & E5).
  set (c' := update_from ParseFloat (yMaxEntry en) set_MaxY _) in *.
  rewrite (GeneratePoints_returns Float64 (with_config pv c') g)
    by (cbn [config with_config]; lia).
  cbn [mbind outcome_bind].
  erewrite UpdateCanvas_returns by (cbn [canvas with_config]; exact Hc).
  cbn [mbind outcome_bind]. do 2 eexists. split; [reflexivity|].
  cbn [config with_config]. split; [split; reflexivity|]. split.
  - eexists _, _. reflexivity.
  - repeat split; assumption.
Qed.

Lemma up_to_date_in_sync (pv : PointVisualizer) : up_to_date pv -> in_sync pv.
Proof. intros [Ho Hc]. exists (PointSize (config pv)). split; [exact Ho|exact Hc]. Qed.

Lemma Run_start_returns (pv : PointVisualizer) (g : RandSource) :
  0 <= NumPoints (config pv) ->
  exists pv' g',
    Run_start Float64 pv g = Returned (pv', g') /\
    config pv' = config pv /\ up_to_date pv' /\ generated_under Float64 pv' /\
    points pv' = (generated Float64 (config pv) (Z.to_nat (NumPoints (config pv))) g).1.
Proof.
  intros Hn. unfold Run_start.
  rewrite GeneratePoints_returns by (cbn [config]; lia).
  cbn [mbind outcome_bind config].
  erewrite UpdateCanvas_returns by reflexivity.
  cbn [mbind outcome_bind]. do 2 eexists. split; [reflexivity|].
  cbn [config points]. split; [reflexivity|]. split; [split; reflexivity|].
  split; [|reflexivity]. eexists _, _. reflexivity.
Qed.

Lemma dispatch_safe (ev : Event) (pv : PointVisualizer) (g : RandSource) :
  session_invariant pv -> possible ev = true ->
  exists pv' g',
    dispatch Float64 ParseFloat int_overflow ev pv g = Returned (pv', g') /\
    session_invariant pv'.
Proof.
  intros (Hs & Hn & Hs2 & Hs15 & HW & HH) Hev.
  destruct ev as [v|v|b|en]; cbn [dispatch possible] in *.
  - (* the points slider *)
    destruct (int_between int_overflow v 5 200) as [_ Hv]; [simpl; lia|simpl; lia|exact Hev|].
    do 2 eexists. split; [reflexivity|].
    destruct Hs as (size & Ho & Hc).
    split; [exists size; split; [exact Ho|exact Hc]|].
    cbn [pointsSlider_OnChanged config with_config set_NumPoints NumPoints PointSize
           CanvasWidth CanvasHeight].
    repeat split; try assumption; lia.
  - (* the size slider *)
    destruct (size_between v Hev) as [H2 H15].
    do 2 eexists. split; [reflexivity|].
    destruct Hs as (size & Ho & Hc).
    split; [exists size; split; [exact Ho|exact Hc]|].
    cbn [sizeSlider_OnChanged config with_config set_PointSize NumPoints PointSize
           CanvasWidth CanvasHeight].
    repeat split; try assumption; lia.
  - (* a colour button *)
    destruct Hs as (size & Ho & Hc). unfold colorBtn_OnTapped.
    erewrite UpdateCanvas_returns by (cbn [canvas with_config]; exact Hc).
    cbn [mbind outcome_bind]. do 2 eexists. split; [reflexivity|].
    split; [apply up_to_date_in_sync; split; reflexivity|].
    cbn [config with_config set_PointColor NumPoints PointSize CanvasWidth CanvasHeight].
    repeat split; try assumption; lia.
  - (* the generate button *)
    destruct Hs as (size & Ho & Hc).
    destruct (generateBtn_returns en pv g _ Hc) as (pv' & g' & H & Hu & _ & E1 & E2 & E3 & E4 & _);
      [lia|].
    exists pv', g'. split; [exact H|].
    split; [now apply up_to_date_in_sync|].
    rewrite E1, E2, E3, E4. repeat split; try assumption; lia.
Qed.

Lemma ShowAndRun_safe (evs : list Event) :
  forall pv g,
    session_invariant pv -> forallb possible evs = true ->
    exists pv' g',
      ShowAndRun Float64 ParseFloat int_overflow evs pv g = Returned (pv', g') /\
      session_invariant pv'.
Proof.
  induction evs as [|ev evs IH]; intros pv g Hi Hev.
  - exists pv, g. split; [reflexivity|exact Hi].
  - cbn [forallb] in Hev. apply andb_prop in Hev as [Hev Hevs].
    destruct (dispatch_safe ev pv g Hi Hev) as (pv1 & g1 & H1 & Hi1).
    destruct (IH pv1 g1 Hi1 Hevs) as (pv' & g' & H & Hi').
    exists pv', g'. split; [|exact Hi'].
    cbn [ShowAndRun]. rewrite H1. cbn [mbind outcome_bind]. exact H.
Qed.

(** X10: the program never panics.  For every seed and every sequence of
    events that the window allows (points slider within 5..200, size slider
    within 2..15, any colour button, the generate button with any texts in
    the entries), [main] runs through all of them, and afterwards the canvas
    shows background, border and one circle per point under the current
    domain and colour (only the point size of the circles may be an earlier
    one), the count is within 5..200, the point size within 2..15 and the
    canvas is 600 by 400. *)
Theorem main_session_safe (g : RandSource) (evs : list Event) :
  forallb possible evs = true ->
  exists pv' g',
    main Float64 ParseFloat int_overflow g evs = Returned (pv', g') /\
    session_invariant pv'.
Proof.
  intros Hev. unfold main, Run.
  destruct (Run_start_returns NewPointVisualizer g) as (pv1 & g1 & H1 & Ec & Hu & _);
    [simpl; lia|].
  rewrite H1. cbn [mbind outcome_bind].
  apply ShowAndRun_safe; [|exact Hev].
  split; [now apply up_to_date_in_sync|]. rewrite Ec.
  repeat split; simpl; try lia; reflexivity.
Qed.

Lemma dispatch_generated_under (ev : Event) (pv pv' : PointVisualizer) (g g' : RandSource) :
  generated_under Float64 pv ->
  dispatch Float64 ParseFloat int_overflow ev pv g = Returned (pv', g') ->
  generated_under Float64 pv'.
Proof.
  intros (n & g0 & Hp) H. destruct ev as [v|v|b|en]; cbn [dispatch] in H.
  - injection H as <- _. exists n, g0. cbn [pointsSlider_OnChanged with_config points config].
    rewrite Hp. f_equal. now apply generated_domain_only.
  - injection H as <- _. exists n, g0. cbn [sizeSlider_OnChanged with_config points config].
    rewrite Hp. f_equal. now apply generated_domain_only.
  - unfold colorBtn_OnTapped, UpdateCanvas in H. cbn [canvas with_config] in H.
    destruct (canvas pv); [|discriminate].
    cbn [config with_config] in H.
    destruct (UpdateCanvas_loop _ _ _ _) in H.
    cbn [mbind outcome_bind] in H. injection H as <- _.
    exists n, g0. cbn [points config with_config].
    rewrite Hp. f_equal. now apply generated_domain_only.
  - destruct (canvas pv) as [c|] eqn:Hc.
    + destruct (Z_lt_ge_dec (NumPoints (config pv)) 0) as [Hn|Hn].
      * exfalso. unfold generateBtn_OnTapped in H.
        destruct (entries_keep en (config pv)) as (E1 & _).
        rewrite GeneratePoints_negative in H; [discriminate|].
        cbn [config with_config]. cbv zeta in E1. rewrite E1. exact Hn.
      * destruct (generateBtn_returns en pv g c Hc) as (pv2 & g2 & H2 & _ & Hg & _); [lia|].
        rewrite H2 in H. injection H as <- _. exact Hg.
    + exfalso. unfold generateBtn_OnTapped in H.
      destruct (GeneratePoints Float64 _ g) as [[pv1 g1]|] eqn:E; [|discriminate].
      cbn [mbind outcome_bind] in H.
      assert (canvas pv1 = None).
      { unfold GeneratePoints in E.
        destruct (make_points _); [|discriminate]. cbn [mbind outcome_bind] in E.
        destruct (GeneratePoints_loop _ _ _ _ _ _) as [[pts gg]|]; [|discriminate].
        cbn [mbind outcome_bind] in E. injection E as <- _. exact Hc. }
      unfold UpdateCanvas in H. rewrite H0 in H. discriminate.
Qed.

Lemma ShowAndRun_generated_under (evs : list Event) :
  forall pv g pv' g',
    generated_under Float64 pv ->
    ShowAndRun Float64 ParseFloat int_overflow evs pv g = Returned (pv', g') ->
    generated_under Float64 pv'.
Proof.
  induction evs as [|ev evs IH]; intros pv g pv' g' Hg H; cbn [ShowAndRun] in H.
  - injection H as <- _. exact Hg.
  - destruct (dispatch Float64 ParseFloat int_overflow ev pv g) as [[pv1 g1]|] eqn:E;
      [|discriminate].
    cbn [mbind outcome_bind] in H.
    apply (IH pv1 g1 pv' g'); [|exact H].
    now apply (dispatch_generated_under ev pv pv1 g g1).
Qed.

(** X11: the points on display belong to the current domain.  The domain
    changes with a generation only, so after any events, when [Run] has not
    panicked and the current domain is valid (well-formed numbers, widths
    that do not overflow), every point held is in the closed domain
    [minX, maxX] x [minY, maxY], for every source of numbers in [0,1). *)
Theorem session_points_in_domain (pv pv' : PointVisualizer) (g g' : RandSource)
        (evs : list Event) :
  Run Float64 ParseFloat int_overflow pv g evs = Returned (pv', g') ->
  unit_source Float64 ->
  wf_config (config pv') = true -> valid_domain (config pv') = true ->
  finite_widths (config pv') = true ->
  Forall (fun p => in_closed_domain (config pv') p = true /\ wf_point p = true)
         (points pv').
Proof.
  intros H Hu Wc Hdom Hfin. unfold Run in H.
  destruct (Run_start Float64 pv g) as [[pv1 g1]|] eqn:E; [|discriminate].
  cbn [mbind outcome_bind] in H.
  assert (Hg : generated_under Float64 pv1).
  { destruct (Z_lt_ge_dec (NumPoints (config pv)) 0) as [Hn|Hn].
    - exfalso. unfold Run_start in E.
      rewrite GeneratePoints_negative in E; [discriminate|exact Hn].
    - destruct (Run_start_returns pv g) as (pv2 & g2 & H2 & _ & _ & Hg & _); [lia|].
      rewrite H2 in E. injection E as <- _. exact Hg. }
  destruct (ShowAndRun_generated_under evs pv1 g1 pv' g' Hg H) as (n & g0 & ->).
  apply wf_config_inv in Wc as (VminX & VmaxX & VminY & VmaxY & _).
  apply andb_prop in Hdom as [HdX HdY]. apply andb_prop in Hfin as [FwX FwY].
  apply SFltb_SFleb in HdX, HdY.
  eapply Forall_impl;
    [apply (generated_Forall Float64 (config pv')
              (fun x => in_closed (MinX (config pv')) (MaxX (config pv')) x = true
                        /\ F64.valid x = true)
              (fun y => in_closed (MinY (config pv')) (MaxY (config pv')) y = true
                        /\ F64.valid y = true))|].
  - intros g2. now apply draw_ok.
  - intros g2. now apply draw_ok.
  - intros p [[H1 H2] [H3 H4]]. unfold in_closed_domain, wf_point.
    now rewrite H1, H2, H3, H4.
Qed.

(** X12: the count set with the slider is the count generated.  After the
    points slider has reported a value within 5..200, a tap on the generate
    button (canvas created, any texts in the entries) returns with exactly
    [int(value)] points, between 5 and 200, and with that many circles
    after background and border on the canvas. *)
Theorem slider_then_generate (value : float64) (en : Entries) (pv : PointVisualizer)
        (g : RandSource) (c : Container) :
  canvas pv = Some c -> in_slider_range 5 200 value = true ->
  exists pv' g',
    dispatch Float64 ParseFloat int_overflow (GenerateTapped en)
             (pointsSlider_OnChanged int_overflow value pv) g = Returned (pv', g') /\
    NumPoints (config pv') = int_of_float64 int_overflow value /\
    5 <= NumPoints (config pv') <= 200 /\
    length (points pv') = Z.to_nat (NumPoints (config pv')) /\
    length (pointObjects pv') = Z.to_nat (NumPoints (config pv')) /\
    canvas pv' = Some {| Objects := background (config pv') :: border (config pv')
                                      :: pointObjects pv' |}.
Proof.
  intros Hc Hv.
  destruct (int_between int_overflow value 5 200) as [_ Hn]; [simpl; lia|simpl; lia|exact Hv|].
  cbn [dispatch]. unfold generateBtn_OnTapped.
  destruct (entries_keep en (config (pointsSlider_OnChanged int_overflow value pv)))
    as (E1 & _).
  set (c' := update_from ParseFloat (yMaxEntry en) set_MaxY _) in *.
  cbn [pointsSlider_OnChanged config with_config set_NumPoints NumPoints] in E1.
  rewrite (GeneratePoints_returns Float64 _ g) by (cbn [config with_config]; lia).
  cbn [mbind outcome_bind].
  erewrite UpdateCanvas_returns by (cbn [canvas with_config pointsSlider_OnChanged]; exact Hc).
  cbn [mbind outcome_bind]. do 2 eexists. split; [reflexivity|].
  cbn [config points pointObjects canvas with_config].
  rewrite length_map, generated_length, E1. repeat split; lia.
Qed.

End Sessions.

Lemma main_session_safe_witness :
  exists pv' g',
    main script_Float64 parse_examples amd64_int_overflow [below_one]
      [PointsSliderChanged (F64.of_Z 7); SizeSliderChanged (F64.of_Z 10);
       ColorTapped redBtn;
       GenerateTapped {| xMinEntry := "5"; xMaxEntry := "abc";
                         yMinEntry := "0.0"; yMaxEntry := "100.0" |}]
    = Returned (pv', g') /\
    session_invariant pv'.
Proof.
  apply (main_session_safe script_Float64 parse_examples amd64_int_overflow [below_one]
           [PointsSliderChanged (F64.of_Z 7); SizeSliderChanged (F64.of_Z 10);
            ColorTapped redBtn;
            GenerateTapped {| xMinEntry := "5"; xMaxEntry := "abc";
                              yMinEntry := "0.0"; yMaxEntry := "100.0" |}]).
  reflexivity.
Defined.

Lemma session_points_in_domain_witness :
  exists pv' g',
    Run script_Float64 parse_examples amd64_int_overflow
        (with_config started (with_NumPoints 2 defaultConfig)) [below_one]
        [ColorTapped greenBtn] = Returned (pv', g') /\
    Forall (fun p => in_closed_domain (config pv') p = true /\ wf_point p = true)
           (points pv').
Proof.
  do 2 eexists. split; [vm_compute; reflexivity|].
  apply (session_points_in_domain script_Float64 parse_examples amd64_int_overflow
           (with_config started (with_NumPoints 2 defaultConfig)) _ [below_one] []
           [ColorTapped greenBtn]).
  - vm_compute. reflexivity.
  - apply script_unit_source.
  - reflexivity.
  - reflexivity.
  - reflexivity.
Defined.

(** ** The default configuration *)

(** Under the default domain a draw stays below the upper bound. *)
Lemma draw_default_below (r : float64) :
  in_unit r = true ->
  F64.ltb (F64.add (F64.of_Z 0) (F64.mul r (F64.sub (F64.of_Z 100) (F64.of_Z 0))))
          (F64.of_Z 100) = true.
Proof.
  intros Hr. destruct F64_format as [P64 E64].
  change (F64.sub (F64.of_Z 100) (F64.of_Z 0)) with (F64.of_Z 100).
  pose proof (in_unit_finite r Hr) as Fr.
  pose proof Hr as Hr'. unfold in_unit in Hr'.
  apply andb_prop in Hr' as [Hr' _]. apply andb_prop in Hr' as [Vr L0].
  assert (G0 : 0 <= grid F64.prec F64.emax r).
  { apply (SFleb_grid F64.prec F64.emax P64 E64) in L0;
      [exact L0|reflexivity|assumption|reflexivity|now apply finite_not_nan]. }
  assert (Gr : grid F64.prec F64.emax r <= grid F64.prec F64.emax below_one).
  { destruct (in_unit_inv r Hr) as [Hz|(mr & er & -> & Hm & He)].
    - destruct r; discriminate.
    - cbn [F64.valid valid_binary] in Vr. unfold F64.valid in Vr. cbn [valid_binary] in Vr.
      pose proof (bounded_inv F64.prec F64.emax P64 E64 mr er Vr) as (_ & Hb & _).
      rewrite (grid_finite_eq F64.prec F64.emax P64 E64). cbn [cond_Zopp].
      assert (E : grid F64.prec F64.emax below_one = (2 ^ 53 - 1) * 2 ^ 1021)
        by (vm_compute; reflexivity).
      rewrite E. unfold emin, F64.prec, F64.emax in *.
      replace (er - (3 - 1024 - 53)) with (er + 1074) by lia.
      assert (0 < 2 ^ (er + 1074)) by (apply Z.pow_pos_nonneg; lia).
      assert (2 ^ (er + 1074) <= 2 ^ 1021) by (apply Z.pow_le_mono_r; lia).
      apply Z.le_trans with ((2 ^ 53 - 1) * 2 ^ (er + 1074)).
      + apply Z.mul_le_mono_nonneg_r; lia.
      + apply Z.mul_le_mono_nonneg_l; lia. }
  (* the product *)
  pose proof (SFmul_valid F64.prec F64.emax P64 E64 r (F64.of_Z 100) Vr eq_refl) as Vm.
  destruct (SFmul_spec F64.prec F64.emax P64 E64 r (F64.of_Z 100) Vr eq_refl Fr eq_refl)
    as (_ & Nm & _).
  pose proof (SFmul_mono_l F64.prec F64.emax P64 E64 r below_one (F64.of_Z 100)
                eq_refl Vr eq_refl eq_refl Fr eq_refl ltac:(vm_compute; discriminate) Gr)
    as Hm.
  pose proof (SFmul_nonneg F64.prec F64.emax P64 E64 r (F64.of_Z 100)
                eq_refl Vr eq_refl Fr ltac:(vm_compute; discriminate) G0) as Hm0.
  assert (Fm : is_finite (F64.mul r (F64.of_Z 100)) = true).
  { apply (finite_between64 (S754_zero false) _ (F64.mul below_one (F64.of_Z 100)));
      try assumption; try reflexivity. split; assumption. }
  (* the sum *)
  pose proof (SFadd_mono_r F64.prec F64.emax P64 E64 (F64.of_Z 0)
                (F64.mul r (F64.of_Z 100)) (F64.mul below_one (F64.of_Z 100))
                eq_refl Vm eq_refl eq_refl Fm eq_refl Hm) as Ha.
  destruct (SFadd_spec F64.prec F64.emax P64 E64 (F64.of_Z 0) _ eq_refl Vm eq_refl Fm)
    as (Va & Na & _).
  apply (SFltb_grid F64.prec F64.emax P64 E64); try assumption; try reflexivity.
  eapply Z.le_lt_trans; [exact Ha|]. vm_compute. reflexivity.
Qed.

(** The place of a distance between zero and the largest one, with the
    half-size offset. *)
Lemma canvas_between (d dmax : float64) (s half : float32) :
  F64.valid d = true -> F64.valid dmax = true -> F32.valid s = true ->
  F32.valid half = true -> is_finite d = true ->
  (is_finite s = true -> 0 <= grid F32.prec F32.emax s) ->
  0 <= grid F64.prec F64.emax d <= grid F64.prec F64.emax dmax ->
  is_finite (F32.sub padding half) = true ->
  is_finite (F32.sub (F32.add padding (F32.mul (F32.of_f64 dmax) s)) half) = true ->
  fle (F32.sub padding half)
      (F32.sub (F32.add padding (F32.mul (F32.of_f64 d) s)) half) /\
  fle (F32.sub (F32.add padding (F32.mul (F32.of_f64 d) s)) half)
      (F32.sub (F32.add padding (F32.mul (F32.of_f64 dmax) s)) half).
Proof.
  intros Vd Vm Vs Vh Fd Hs Hd Flo Fhi.
  destruct F32_format as [P32 E32]. destruct padding_ok as [Vp Fp].
  destruct (place_parts _ _ _ Fhi) as (_ & _ & Fh & _ & Fcm).
  destruct (centre_between d dmax s Vd Vm Vs Fd Hs Hd Fcm) as (Fc & H1 & H2).
  set (c := F32.add padding (F32.mul (F32.of_f64 d) s)) in *.
  set (cm := F32.add padding (F32.mul (F32.of_f64 dmax) s)) in *.
  assert (Vc : F32.valid c = true).
  { apply (SFadd_valid F32.prec F32.emax P32 E32); [assumption|].
    apply (SFmul_valid F32.prec F32.emax P32 E32); [|assumption]. now apply of_f64_valid. }
  assert (Vcm : F32.valid cm = true).
  { apply (SFadd_valid F32.prec F32.emax P32 E32); [assumption|].
    apply (SFmul_valid F32.prec F32.emax P32 E32); [|assumption]. now apply of_f64_valid. }
  destruct (SFsub_spec F32.prec F32.emax P32 E32 c half Vc Vh Fc Fh) as (Vr & Nr & _).
  pose proof (SFsub_mono_l F32.prec F32.emax P32 E32 padding c half Vh Vp Vc Fh Fp Fc H1) as G1.
  pose proof (SFsub_mono_l F32.prec F32.emax P32 E32 c cm half Vh Vc Vcm Fh Fc Fcm H2) as G2.
  pose proof (SFsub_valid F32.prec F32.emax P32 E32 padding half Vp Vh) as Vlo.
  pose proof (SFsub_valid F32.prec F32.emax P32 E32 cm half Vcm Vh) as Vhi.
  split; unfold fle; apply (SFleb_grid F32.prec F32.emax P32 E32);
    try assumption; now apply finite_not_nan.
Qed.

(** Under the default configuration a point of the domain is drawn inside
    the canvas. *)
Lemma default_point_inside (p : Point) :
  wf_point p = true -> in_closed_domain defaultConfig p = true ->
  fle (F32.of_Z 17) (canvasX defaultConfig p) /\
  fle (canvasX defaultConfig p) (F32.of_Z 577) /\
  fle (F32.of_Z 17) (canvasY defaultConfig p) /\
  fle (canvasY defaultConfig p) (F32.of_Z 377).
Proof.
  intros Wp Hin. destruct F64_format as [P64 E64].
  apply andb_prop in Wp as [Vx Vy].
  apply andb_prop in Hin as [HinX HinY].
  apply andb_prop in HinX as [Lx Ux]. apply andb_prop in HinY as [Ly Uy].
  cbn [MinX MaxX MinY MaxY defaultConfig] in Lx, Ux, Ly, Uy.
  destruct (SFleb_not_nan _ _ Lx) as [_ Nx]. destruct (SFleb_not_nan _ _ Ly) as [_ Ny].
  pose proof (proj1 (SFleb_grid F64.prec F64.emax P64 E64 (F64.of_Z 0) (X p)
                       eq_refl Vx eq_refl Nx) Lx) as GLx.
  pose proof (proj1 (SFleb_grid F64.prec F64.emax P64 E64 (X p) (F64.of_Z 100)
                       Vx eq_refl Nx eq_refl) Ux) as GUx.
  pose proof (proj1 (SFleb_grid F64.prec F64.emax P64 E64 (F64.of_Z 0) (Y p)
                       eq_refl Vy eq_refl Ny) Ly) as GLy.
  pose proof (proj1 (SFleb_grid F64.prec F64.emax P64 E64 (Y p) (F64.of_Z 100)
                       Vy eq_refl Ny eq_refl) Uy) as GUy.
  assert (Fx : is_finite (X p) = true)
    by (apply (finite_between64 (F64.of_Z 0) _ (F64.of_Z 100)); try reflexivity;
        try assumption; lia).
  assert (Fy : is_finite (Y p) = true)
    by (apply (finite_between64 (F64.of_Z 0) _ (F64.of_Z 100)); try reflexivity;
        try assumption; lia).
  (* the distance on X *)
  destruct (SFsub_spec F64.prec F64.emax P64 E64 (X p) (F64.of_Z 0) Vx eq_refl Fx eq_refl)
    as (VdX & NdX & _).
  pose proof (SFsub_nonneg F64.prec F64.emax P64 E64 (X p) (F64.of_Z 0) Vx eq_refl Lx NdX)
    as HdX0.
  pose proof (SFsub_mono_l F64.prec F64.emax P64 E64 (X p) (F64.of_Z 100) (F64.of_Z 0)
                eq_refl Vx eq_refl eq_refl Fx eq_refl GUx) as HdX1.
  assert (FdX : is_finite (F64.sub (X p) (F64.of_Z 0)) = true).
  { apply (finite_between64 (S754_zero false) _ (F64.sub (F64.of_Z 100) (F64.of_Z 0)));
      try assumption; try reflexivity. split; assumption. }
  (* the distance on Y *)
  destruct (SFsub_spec F64.prec F64.emax P64 E64 (F64.of_Z 100) (Y p) eq_refl Vy eq_refl Fy)
    as (VdY & NdY & _).
  pose proof (SFsub_nonneg F64.prec F64.emax P64 E64 (F64.of_Z 100) (Y p) eq_refl Vy Uy NdY)
    as HdY0.
  pose proof (SFsub_anti_r F64.prec F64.emax P64 E64 (F64.of_Z 100) (F64.of_Z 0) (Y p)
                eq_refl eq_refl Vy eq_refl eq_refl Fy GLy) as HdY1.
  assert (FdY : is_finite (F64.sub (F64.of_Z 100) (Y p)) = true).
  { apply (finite_between64 (S754_zero false) _ (F64.sub (F64.of_Z 100) (F64.of_Z 0)));
      try assumption; try reflexivity. split; assumption. }
  destruct (canvas_between (F64.sub (X p) (F64.of_Z 0)) (F64.sub (F64.of_Z 100) (F64.of_Z 0))
              (scaleX defaultConfig) (F32.div (F32.of_Z 6) (F32.of_Z 2)))
    as [X1 X2]; try assumption; try reflexivity;
    [intros _; vm_compute; discriminate|split; assumption|].
  destruct (canvas_between (F64.sub (F64.of_Z 100) (Y p)) (F64.sub (F64.of_Z 100) (F64.of_Z 0))
              (scaleY defaultConfig) (F32.div (F32.of_Z 6) (F32.of_Z 2)))
    as [Y1 Y2]; try assumption; try reflexivity;
    [intros _; vm_compute; discriminate|split; assumption|].
  repeat split; assumption.
Qed.

Section DefaultConfiguration.
Context {RandSource : Type}.
Variable Float64 : RandSource -> float64 * RandSource.
Variable ParseFloat : string -> option float64.
Variable int_overflow : float64 -> Z.

Lemma draw_default (g : RandSource) :
  unit_source Float64 ->
  let x := (draw Float64 (F64.of_Z 0) (F64.of_Z 100) g).1 in
  in_half_open (F64.of_Z 0) (F64.of_Z 100) x = true /\ F64.valid x = true.
Proof.
  intros Hu x.
  destruct (draw_ok Float64 (F64.of_Z 0) (F64.of_Z 100) g Hu eq_refl eq_refl eq_refl eq_refl)
    as [Hc Hv]. fold x in Hc, Hv.
  split; [|exact Hv]. apply andb_prop in Hc as [Hlo _].
  unfold in_half_open. rewrite Hlo. cbn [andb].
  unfold x. rewrite draw_fst. apply draw_default_below. apply Hu.
Qed.

(** X13: on the default domain the upper bound is never reached.  With the
    domain 0..100 on both axes, every count n >= 0 and every source of
    numbers in [0,1), the generator returns exactly n points, each with x and
    y in the half-open interval [0, 100). *)
Theorem GeneratePoints_default_half_open (pv : PointVisualizer) (g : RandSource) :
  unit_source Float64 -> 0 <= NumPoints (config pv) ->
  MinX (config pv) = F64.of_Z 0 -> MaxX (config pv) = F64.of_Z 100 ->
  MinY (config pv) = F64.of_Z 0 -> MaxY (config pv) = F64.of_Z 100 ->
  exists pv' g',
    GeneratePoints Float64 pv g = Returned (pv', g') /\
    length (points pv') = Z.to_nat (NumPoints (config pv)) /\
    Forall (fun p => in_domain (config pv) p = true) (points pv').
Proof.
  intros Hu Hn E1 E2 E3 E4. do 2 eexists.
  split; [now apply GeneratePoints_returns|]. cbn [points].
  split; [apply generated_length|].
  eapply Forall_impl;
    [apply (generated_Forall Float64 (config pv)
              (fun x => in_half_open (F64.of_Z 0) (F64.of_Z 100) x = true)
              (fun y => in_half_open (F64.of_Z 0) (F64.of_Z 100) y = true))|].
  - intros g0. rewrite E1, E2. now apply draw_default.
  - intros g0. rewrite E3, E4. now apply draw_default.
  - intros p [H1 H2]. unfold in_domain. now rewrite E1, E2, E3, E4, H1, H2.
Qed.

(** X14: the program starts with 30 points, all on the canvas.  For every
    seed of a source of numbers in [0,1), [main] comes to its event loop
    without a panic, under the default configuration, with exactly 30 points
    in [0, 100) x [0, 100) and the canvas up to date; every circle has its
    top left corner between 17 and 577 horizontally and between 17 and 377
    vertically, so that the circles (6 by 6) lie inside the 600 by 400
    canvas. *)
Theorem main_starts_inside (g : RandSource) :
  unit_source Float64 ->
  exists pv' g',
    main Float64 ParseFloat int_overflow g [] = Returned (pv', g') /\
    config pv' = defaultConfig /\ length (points pv') = 30%nat /\
    up_to_date pv' /\
    Forall (fun p => in_domain defaultConfig p = true /\
                     fle (F32.of_Z 17) (canvasX defaultConfig p) /\
                     fle (canvasX defaultConfig p) (F32.of_Z 577) /\
                     fle (F32.of_Z 17) (canvasY defaultConfig p) /\
                     fle (canvasY defaultConfig p) (F32.of_Z 377))
           (points pv').
Proof.
  intros Hu. unfold main, Run.
  destruct (Run_start_returns Float64 NewPointVisualizer g) as (pv1 & g1 & H1 & Ec & Hd & _ & Ep);
    [simpl; lia|].
  exists pv1, g1. rewrite H1. split; [reflexivity|]. split; [exact Ec|].
  rewrite Ep. split; [apply generated_length|]. split; [exact Hd|].
  eapply Forall_impl;
    [apply (generated_Forall Float64 defaultConfig
              (fun x => in_half_open (F64.of_Z 0) (F64.of_Z 100) x = true /\
                        F64.valid x = true)
              (fun y => in_half_open (F64.of_Z 0) (F64.of_Z 100) y = true /\
                        F64.valid y = true))|].
  - intros g0. now apply draw_default.
  - intros g0. now apply draw_default.
  - intros p [[H2 V2] [H3 V3]]. split.
    + unfold in_domain. cbn [MinX MaxX MinY MaxY defaultConfig]. now rewrite H2, H3.
    + apply default_point_inside.
      * unfold wf_point. now rewrite V2, V3.
      * apply andb_prop in H2 as [L2 U2]. apply andb_prop in H3 as [L3 U3].
        apply SFltb_SFleb in U2, U3.
        unfold in_closed_domain, in_closed. cbn [MinX MaxX MinY MaxY defaultConfig].
        unfold F64.leb in *. rewrite L2, L3, U2, U3. reflexivity.
Qed.

End DefaultConfiguration.

Lemma GeneratePoints_default_half_open_witness :
  exists pv' g',
    GeneratePoints script_Float64 (with_config started (with_NumPoints 3 defaultConfig))
                   [below_one; below_one] = Returned (pv', g') /\
    Forall (fun p => in_domain defaultConfig p = true) (points pv').
Proof.
  destruct (GeneratePoints_default_half_open script_Float64
              (with_config started (with_NumPoints 3 defaultConfig))
              [below_one; below_one] script_unit_source)
    as (pv' & g' & H & _ & Hd); try reflexivity.
  - simpl. lia.
  - exists pv', g'. split; [exact H|exact Hd].
Defined.

Lemma main_starts_inside_witness :
  exists pv' g',
    main script_Float64 parse_examples amd64_int_overflow [below_one; below_one] []
    = Returned (pv', g') /\
    length (points pv') = 30%nat.
Proof.
  destruct (main_starts_inside script_Float64 parse_examples amd64_int_overflow
              [below_one; below_one] script_unit_source)
    as (pv' & g' & H & _ & L & _).
  exists pv', g'. split; [exact H|exact L].
Defined.

Lemma slider_then_generate_witness :
  exists pv' g',
    dispatch script_Float64 parse_examples amd64_int_overflow
             (GenerateTapped {| xMinEntry := "5"; xMaxEntry := "abc";
                                yMinEntry := "0.0"; yMaxEntry := "100.0" |})
             (pointsSlider_OnChanged amd64_int_overflow (F64.of_Z 7) started) []
    = Returned (pv', g') /\
    length (points pv') = 7%nat.
Proof.
  destruct (slider_then_generate script_Float64 parse_examples amd64_int_overflow
              (F64.of_Z 7)
              {| xMinEntry := "5"; xMaxEntry := "abc";
                 yMinEntry := "0.0"; yMaxEntry := "100.0" |}
              started [] {| Objects := [] |} eq_refl eq_refl)
    as (pv' & g' & H & En & _ & L & _).
  exists pv', g'. split; [exact H|].
  rewrite L, En. reflexivity.
Defined.
